(** * Word search generator: a shallow embedding of [wordsearch.cpp]

    The development follows the C++ source function by function.

    Conventions of the embedding.
    - [int] values are integers of [Z] (coordinates, counters, scores) or
      naturals (container indices and sizes).  Every value the program
      computes is bounded by the grid dimensions plus the length of a word,
      so the 32-bit range is never left on inputs that fit in memory.
    - A [vector<string>] grid is a list of rows, a row a list of characters;
      a word is a [string].
    - A function returns [None] where the C++ program has no defined result:
      an index out of range in [operator[]], or a container built with a
      negative size.
    - The three globals [GRID_ROWS], [GRID_COLS], [MAX_RUNTIME_MS] are
      section variables: [generateWordSearch] assigns them once, before
      anything reads them.
    - The steady clock is the sequence [elapsed_ms] of the readings that the
      successive calls of [hasTimedOut] obtain; the random generator is the
      sequence [rand_draw] of the successive draws of [dist(rng)].
    - [std::sort] is a parameter [std_sort]; what the C++ standard promises
      about it is the record [std_sort_spec]. *)

From Stdlib Require Import ZArith List Ascii String Bool Lia.
From Stdlib Require Import Sorting.Permutation Sorting.Sorted.
From stdpp Require Import base option list strings gmap.

Local Open Scope Z_scope.

(** ** Data structures *)

Abbreviation Grid := (list (list ascii)).

(** The empty-cell sentinel ['.']. *)
Definition empty_cell : ascii := "."%char.

Record WordPlacement : Type := mkWordPlacement {
  word : string;
  row : Z;
  col : Z;
  delta_row : Z;
  delta_col : Z
}.

Record PuzzleResult : Type := mkPuzzleResult {
  grid : Grid;
  placements : list WordPlacement;
  placed_words : list string;
  unplaced_words : list string;
  num_placed : Z;
  total_overlap_score : Z
}.

(** A default-constructed [PuzzleResult]. *)
Definition empty_result : PuzzleResult :=
  {| grid := []; placements := []; placed_words := []; unplaced_words := [];
     num_placed := 0; total_overlap_score := 0 |}.

(** [struct Candidate { int r, c, dr, dc, overlap; }] of
    [solvePuzzleRecursively]. *)
Record Candidate : Type := mkCandidate {
  cand_r : Z;
  cand_c : Z;
  cand_dr : Z;
  cand_dc : Z;
  cand_overlap : Z
}.

(** All 8 directions (horizontal, vertical, diagonal). *)
Definition DIRECTIONS : list (Z * Z) :=
  [(0, 1); (0, -1); (1, 0); (-1, 0); (1, 1); (1, -1); (-1, 1); (-1, -1)].

(** ** Indexing *)

(** [grid[r][c]] as an rvalue. *)
Definition grid_get (g : Grid) (r c : Z) : option ascii :=
  if (0 <=? r) && (0 <=? c)
  then g !! Z.to_nat r ≫= (λ line, line !! Z.to_nat c)
  else None.

(** [grid[r][c] = ch]. *)
Definition grid_set (g : Grid) (r c : Z) (ch : ascii) : option Grid :=
  match grid_get g r c with
  | Some _ => Some (alter (λ line, <[Z.to_nat c := ch]> line) (Z.to_nat r) g)
  | None => None
  end.

(** The mutable state of one search: the best solution so far, the
    [used_flags] vector and the number of clock readings taken. *)
Record SearchState : Type := mkSearchState {
  best_result : PuzzleResult;
  used_flags : list bool;
  clock_reads : nat
}.

(** [used_flags[i] = b]. *)
Definition set_used_flag (i : nat) (b : bool) (st : SearchState)
  : option SearchState :=
  match used_flags st !! i with
  | Some _ => Some {| best_result := best_result st;
                      used_flags := <[i := b]> (used_flags st);
                      clock_reads := clock_reads st |}
  | None => None
  end.

(** Assignment to [best_result]. *)
Definition set_best (b : PuzzleResult) (st : SearchState) : SearchState :=
  {| best_result := b; used_flags := used_flags st;
     clock_reads := clock_reads st |}.

(** What the standard guarantees of [std::sort(first, last, comp)] when
    [comp] is a strict weak ordering: the range is permuted, and afterwards
    no element is ordered before one that precedes it.  The relative order
    of equivalent elements is not part of the contract. *)
Record strict_weak_order {A : Type} (comp : A → A → bool) : Prop := {
  swo_irrefl : ∀ a, comp a a = false;
  swo_trans : ∀ a b c, comp a b = true → comp b c = true → comp a c = true;
  swo_incomp : ∀ a b c, comp a b = false → comp b c = false → comp a c = false
}.

Record std_sort_spec
  (std_sort : ∀ A : Type, (A → A → bool) → list A → list A) : Prop := {
  std_sort_perm : ∀ A (comp : A → A → bool) (l : list A),
    strict_weak_order comp → Permutation (std_sort A comp l) l;
  std_sort_sorted : ∀ A (comp : A → A → bool) (l : list A),
    strict_weak_order comp →
    StronglySorted (λ a b, comp b a = false) (std_sort A comp l)
}.

Section Solver.

(** [int GRID_ROWS, GRID_COLS; int MAX_RUNTIME_MS;] *)
Variables GRID_ROWS GRID_COLS MAX_RUNTIME_MS : Z.
(** [elapsed_ms k]: the value of [elapsed_ms] in call number [k] of
    [hasTimedOut], counted from 0. *)
Variable elapsed_ms : nat → Z.
Variable std_sort : ∀ A : Type, (A → A → bool) → list A → list A.

(** Check if a cell is within grid boundaries. *)
Definition isInBounds (r c : Z) : bool :=
  (0 <=? r) && (r <? GRID_ROWS) && (0 <=? c) && (c <? GRID_COLS).

(** Check if solver exceeded runtime limit. *)
Definition hasTimedOut (st : SearchState) : bool * SearchState :=
  (MAX_RUNTIME_MS <=? elapsed_ms (clock_reads st),
   {| best_result := best_result st; used_flags := used_flags st;
      clock_reads := S (clock_reads st) |}).

(** The loop of [canPlaceWord], with the running [overlap_count]. *)
Fixpoint canPlaceWord_loop (g : Grid) (w : string) (r c dr dc : Z)
    (overlap_count : Z) : option (bool * Z) :=
  match w with
  | EmptyString => Some (true, overlap_count)
  | String ch w' =>
      if negb (isInBounds r c) then Some (false, overlap_count)
      else
        match grid_get g r c with
        | None => None
        | Some existing =>
            if negb (Ascii.eqb existing empty_cell)
               && negb (Ascii.eqb existing ch)
            then Some (false, overlap_count)
            else canPlaceWord_loop g w' (r + dr) (c + dc) dr dc
                   (if Ascii.eqb existing ch
                    then overlap_count + 1 else overlap_count)
        end
  end.

(** Validate word placement and count overlaps: the returned pair is the
    [bool] result and the final value of the out-parameter
    [overlap_count]. *)
Definition canPlaceWord (g : Grid) (w : string) (r c dr dc : Z)
  : option (bool * Z) :=
  canPlaceWord_loop g w r c dr dc 0.

(** Write word into grid. *)
Fixpoint placeWord (g : Grid) (w : string) (r c dr dc : Z) : option Grid :=
  match w with
  | EmptyString => Some g
  | String ch w' =>
      g' ← grid_set g r c ch; placeWord g' w' (r + dr) (c + dc) dr dc
  end.

(** [overlap_map[rr][cc]++]. *)
Definition overlap_map_incr (m : list (list Z)) (rr cc : Z) : list (list Z) :=
  alter (λ line, alter Z.succ (Z.to_nat cc) line) (Z.to_nat rr) m.

(** The inner loop of [calculateOverlapScore] over the letters of one
    placement. *)
Fixpoint overlap_map_word (m : list (list Z)) (w : string) (rr cc dr dc : Z)
  : list (list Z) :=
  match w with
  | EmptyString => m
  | String _ w' =>
      overlap_map_word
        (if isInBounds rr cc then overlap_map_incr m rr cc else m)
        w' (rr + dr) (cc + dc) dr dc
  end.

Definition overlap_map_of (pls : list WordPlacement) : list (list Z) :=
  fold_left
    (λ m p, overlap_map_word m (word p) (row p) (col p)
              (delta_row p) (delta_col p))
    pls
    (replicate (Z.to_nat GRID_ROWS) (replicate (Z.to_nat GRID_COLS) 0)).

(** [overlap_map[r][c]] for [r], [c] inside the map. *)
Definition overlap_map_at (m : list (list Z)) (r c : nat) : Z :=
  default 0 (m !! r ≫= (λ line, line !! c)).

(** The two summation loops of [calculateOverlapScore]. *)
Definition overlap_map_total (m : list (list Z)) : Z :=
  fold_left
    (λ overlap_score r,
       fold_left
         (λ overlap_score c,
            if 1 <? overlap_map_at m r c
            then overlap_score + (overlap_map_at m r c - 1)
            else overlap_score)
         (seq 0 (Z.to_nat GRID_COLS)) overlap_score)
    (seq 0 (Z.to_nat GRID_ROWS)) 0.

(** Compute total overlap score for all placed words. *)
Definition calculateOverlapScore (pls : list WordPlacement) : Z :=
  match pls with
  | [] => 0
  | _ => overlap_map_total (overlap_map_of pls)
  end.

(** The "update best solution" step of [solvePuzzleRecursively]. *)
Definition record_best (g : Grid) (current_placements : list WordPlacement)
    (best : PuzzleResult) : PuzzleResult :=
  let placed_count := Z.of_nat (length current_placements) in
  let current_overlap := calculateOverlapScore current_placements in
  if (num_placed best <? placed_count)
     || ((placed_count =? num_placed best)
         && (total_overlap_score best <? current_overlap))
  then {| grid := g; placements := current_placements;
          placed_words := placed_words best;
          unplaced_words := unplaced_words best;
          num_placed := placed_count;
          total_overlap_score := current_overlap |}
  else best.

(** The triples [(r, c, dir)] in the order of the three nested loops that
    generate the placement options. *)
Definition scan_order : list (Z * Z * (Z * Z)) :=
  r ← seqZ 0 GRID_ROWS; c ← seqZ 0 GRID_COLS; dir ← DIRECTIONS;
  [(r, c, dir)].

(** Generate valid placement options. *)
Fixpoint collect_candidates (g : Grid) (w : string)
    (todo : list (Z * Z * (Z * Z))) : option (list Candidate) :=
  match todo with
  | [] => Some []
  | (r, c, dir) :: todo' =>
      match canPlaceWord g w r c (fst dir) (snd dir) with
      | None => None
      | Some (ok, overlap_val) =>
          more ← collect_candidates g w todo';
          Some (if ok
                then mkCandidate r c (fst dir) (snd dir) overlap_val :: more
                else more)
      end
  end.

(** The comparison passed to [sort]: by overlap and centrality. *)
Definition candidate_less (a b : Candidate) : bool :=
  if negb (cand_overlap a =? cand_overlap b)
  then cand_overlap b <? cand_overlap a
  else
    let dist_a := Z.abs (cand_r a - GRID_ROWS ÷ 2)
                  + Z.abs (cand_c a - GRID_COLS ÷ 2) in
    let dist_b := Z.abs (cand_r b - GRID_ROWS ÷ 2)
                  + Z.abs (cand_c b - GRID_COLS ÷ 2) in
    dist_a <? dist_b.

Definition ranked_candidates (g : Grid) (w : string)
  : option (list Candidate) :=
  candidates ← collect_candidates g w scan_order;
  Some (std_sort Candidate candidate_less candidates).

(** The loop of recursive placement attempts.  [recur] is the recursive
    call on [current_index + 1]; the boolean of the result tells whether
    the loop left [solvePuzzleRecursively] through [return]. *)
Definition try_candidates
    (recur : Grid → list WordPlacement → SearchState → option SearchState)
    (g : Grid) (current_word : string) (word_index : nat)
    (current_placements : list WordPlacement)
  : list Candidate → SearchState → option (bool * SearchState) :=
  fix attempts (cands : list Candidate) (st : SearchState) :=
    match cands with
    | [] => Some (false, st)
    | cand :: cands' =>
        let '(timed_out, st) := hasTimedOut st in
        if timed_out then Some (true, st)
        else
          new_grid ← placeWord g current_word (cand_r cand) (cand_c cand)
                       (cand_dr cand) (cand_dc cand);
          st ← set_used_flag word_index true st;
          st ← recur new_grid
                 (current_placements ++
                    [mkWordPlacement current_word (cand_r cand) (cand_c cand)
                       (cand_dr cand) (cand_dc cand)])
                 st;
          st ← set_used_flag word_index false st;
          attempts cands' st
    end.

(** The recursive backtracking algorithm.  [rest] is the part of
    [word_order] from [current_index] on, so that [current_index >=
    word_order.size()] is [rest = []] and [remaining] is its length.
    [current_placements] is passed by value: the C++ code pushes before
    each recursive call and pops after it, and returns early only between
    a pop and the next push. *)
Fixpoint solvePuzzleRecursively (words : list string) (rest : list nat)
    (g : Grid) (current_placements : list WordPlacement) (st : SearchState)
  : option SearchState :=
  let '(timed_out, st) := hasTimedOut st in
  if timed_out then Some st
  else
    let placed_count := Z.of_nat (length current_placements) in
    let st := set_best (record_best g current_placements (best_result st)) st in
    match rest with
    | [] => Some st
    | word_index :: rest' =>
        let remaining := Z.of_nat (length rest) in
        if placed_count + remaining <=? num_placed (best_result st)
        then Some st
        else
          current_word ← words !! word_index;
          candidates ← ranked_candidates g current_word;
          '(returned, st) ←
            try_candidates (solvePuzzleRecursively words rest') g
              current_word word_index current_placements candidates st;
          if (returned : bool) then Some st
          else
            let '(timed_out, st) := hasTimedOut st in
            if timed_out then Some st
            else solvePuzzleRecursively words rest' g current_placements st
    end.

End Solver.

(** ** Puzzle solver entry function *)

(** [greater<>()] on [pair<int,int>]: [a > b], lexicographically. *)
Definition pair_greater (a b : nat * nat) : bool :=
  (fst b <? fst a)%nat || ((fst b =? fst a)%nat && (snd b <? snd a)%nat).

(** The vector [tmp] of one pass of the word-order loop: the pairs
    [(words[i].size(), i)] of the words whose flag agrees with the pass.
    [ws] is the part of [words] from index [i] on. *)
Fixpoint word_order_tmp (first_pass : bool) (required_flags : list bool)
    (ws : list string) (i : nat) : option (list (nat * nat)) :=
  match ws with
  | [] => Some []
  | w :: ws' =>
      flag ← required_flags !! i;
      more ← word_order_tmp first_pass required_flags ws' (S i);
      Some (if Bool.eqb first_pass flag
            then (String.length w, i) :: more else more)
  end.

(** Determine optimal word order: the two passes of [generateWordSearch]. *)
Definition word_order_of
    (std_sort : ∀ A : Type, (A → A → bool) → list A → list A)
    (words : list string) (required_flags : list bool) : option (list nat) :=
  tmp0 ← word_order_tmp true required_flags words 0;
  tmp1 ← word_order_tmp false required_flags words 0;
  Some (map snd (std_sort _ pair_greater tmp0)
        ++ map snd (std_sort _ pair_greater tmp1)).

(** [char('A' + dist(rng))] for a draw [d]. *)
Definition letter_of_draw (d : Z) : ascii :=
  ascii_of_nat (Z.to_nat ((65 + d) `mod` 256)).

(** The cells of a [rows] by [cols] grid, row by row: the order of every
    double loop over the grid. *)
Definition grid_cells (rows cols : Z) : list (Z * Z) :=
  r ← seqZ 0 rows; c ← seqZ 0 cols; [(r, c)].

(** Fill remaining cells randomly; [k] counts the draws made so far. *)
Fixpoint fill_random (rand_draw : nat → Z) (g : Grid) (cells : list (Z * Z))
    (k : nat) : option Grid :=
  match cells with
  | [] => Some g
  | (r, c) :: cells' =>
      existing ← grid_get g r c;
      if Ascii.eqb existing empty_cell
      then g' ← grid_set g r c (letter_of_draw (rand_draw k));
           fill_random rand_draw g' cells' (S k)
      else fill_random rand_draw g cells' k
  end.

(** [vector<string> blank_grid(rows, string(cols, '.'))]. *)
Definition blank_grid (rows cols : Z) : Grid :=
  replicate (Z.to_nat rows) (replicate (Z.to_nat cols) empty_cell).

Definition initial_state (words : list string) : SearchState :=
  {| best_result := empty_result;
     used_flags := replicate (length words) false;
     clock_reads := 0 |}.

(** The set [placed_set] of [generateWordSearch]. *)
Definition placed_set_of (pls : list WordPlacement) : gset string :=
  list_to_set (map word pls).

(** [generateWordSearch] up to and including the search: the value of
    [best_result] when [solvePuzzleRecursively] has returned. *)
Definition search_result
    (elapsed_ms : nat → Z)
    (std_sort : ∀ A : Type, (A → A → bool) → list A → list A)
    (words : list string) (required_flags : list bool)
    (rows cols runtime_ms : Z) : option SearchState :=
  if (rows <? 0) || (cols <? 0) then None
  else
    word_order ← word_order_of std_sort words required_flags;
    solvePuzzleRecursively rows cols runtime_ms elapsed_ms std_sort
      words word_order (blank_grid rows cols) [] (initial_state words).

Definition generateWordSearch
    (elapsed_ms : nat → Z) (rand_draw : nat → Z)
    (std_sort : ∀ A : Type, (A → A → bool) → list A → list A)
    (words : list string) (required_flags : list bool)
    (rows cols runtime_ms : Z) : option PuzzleResult :=
  st ← search_result elapsed_ms std_sort words required_flags
         rows cols runtime_ms;
  let best := best_result st in
  (* Identify which words were placed *)
  let placed_set := placed_set_of (placements best) in
  let placed := filter (λ w, w ∈ placed_set) words in
  let unplaced := filter (λ w, w ∉ placed_set) words in
  (* Fill remaining cells randomly *)
  filled ← fill_random rand_draw (grid best) (grid_cells rows cols) 0;
  Some {| grid := filled; placements := placements best;
          placed_words := placed_words best ++ placed;
          unplaced_words := unplaced_words best ++ unplaced;
          num_placed := num_placed best;
          total_overlap_score := total_overlap_score best |}.

(** ** Two sorting functions within the contract of [std::sort] *)

(** Insertion before the first element that is not ordered before [x]:
    equivalent elements keep their order. *)
Fixpoint insert_after_smaller {A : Type} (comp : A → A → bool) (x : A)
    (l : list A) : list A :=
  match l with
  | [] => [x]
  | y :: l' =>
      if comp y x then y :: insert_after_smaller comp x l' else x :: l
  end.

Definition stable_sort (A : Type) (comp : A → A → bool) (l : list A) : list A :=
  foldr (insert_after_smaller comp) [] l.

(** Insertion before the first element that [x] is ordered before:
    equivalent elements end up in reverse order. *)
Fixpoint insert_before_larger {A : Type} (comp : A → A → bool) (x : A)
    (l : list A) : list A :=
  match l with
  | [] => [x]
  | y :: l' =>
      if comp x y then x :: l else y :: insert_before_larger comp x l'
  end.

Definition reversing_sort (A : Type) (comp : A → A → bool) (l : list A)
  : list A :=
  foldr (insert_before_larger comp) [] l.

(** ** [std::sort] of libstdc++

    The ranking calls [std::sort], whose code is the C++ library's, not the
    repository's.  This is the implementation of GCC's libstdc++
    ([bits/stl_algo.h], [bits/stl_heap.h]): an introsort on ranges of more
    than 16 elements, followed by an insertion sort.  The range is a list,
    an iterator is its offset from [begin()], and [None] is an access
    outside the range or a loop that has used up its fuel. *)

Section StdSort.

Context {A : Type} (comp : A → A → bool).

(** [*(begin + i)] as an rvalue. *)
Definition deref (a : list A) (i : Z) : option A :=
  if 0 <=? i then a !! Z.to_nat i else None.

(** [*(begin + i) = x]. *)
Definition assign (a : list A) (i : Z) (x : A) : option (list A) :=
  match deref a i with
  | Some _ => Some (<[Z.to_nat i := x]> a)
  | None => None
  end.

Definition iter_swap (a : list A) (i j : Z) : option (list A) :=
  x ← deref a i; y ← deref a j; a ← assign a i y; assign a j x.

(** [_S_threshold]. *)
Definition S_threshold : Z := 16.

(** Swaps the median value of [*a], [*b] and [*c] under [comp] to
    [*result]. *)
Definition move_median_to_first (arr : list A) (result a b c : Z)
  : option (list A) :=
  xa ← deref arr a; xb ← deref arr b; xc ← deref arr c;
  if comp xa xb
  then
    if comp xb xc then iter_swap arr result b
    else if comp xa xc then iter_swap arr result c
    else iter_swap arr result a
  else if comp xa xc then iter_swap arr result a
  else if comp xb xc then iter_swap arr result c
  else iter_swap arr result b.

(** The loop of [__unguarded_linear_insert]. *)
Fixpoint linear_insert_loop (fuel : nat) (a : list A) (val : A)
    (last next : Z) : option (list A) :=
  match fuel with
  | O => None
  | S fuel =>
      x ← deref a next;
      if comp val x
      then a ← assign a last x; linear_insert_loop fuel a val next (next - 1)
      else assign a last val
  end.

Definition unguarded_linear_insert (a : list A) (last : Z) : option (list A) :=
  val ← deref a last;
  linear_insert_loop (S (length a)) a val last (last - 1).

(** [std::move_backward(first, last, result)], [n] being [last - first]. *)
Fixpoint move_backward (n : nat) (a : list A) (last result : Z)
  : option (list A) :=
  match n with
  | O => Some a
  | S n =>
      x ← deref a (last - 1);
      a ← assign a (result - 1) x;
      move_backward n a (last - 1) (result - 1)
  end.

(** The loop of [__insertion_sort], [n] iterations from [i] on. *)
Fixpoint insertion_sort_loop (n : nat) (a : list A) (first i : Z)
  : option (list A) :=
  match n with
  | O => Some a
  | S n =>
      x ← deref a i; x0 ← deref a first;
      a ← (if comp x x0
           then a ← move_backward (Z.to_nat (i - first)) a i (i + 1);
                assign a first x
           else unguarded_linear_insert a i);
      insertion_sort_loop n a first (i + 1)
  end.

Definition insertion_sort (a : list A) (first last : Z) : option (list A) :=
  if first =? last then Some a
  else insertion_sort_loop (Z.to_nat (last - (first + 1))) a first (first + 1).

Fixpoint unguarded_insertion_sort_loop (n : nat) (a : list A) (i : Z)
  : option (list A) :=
  match n with
  | O => Some a
  | S n =>
      a ← unguarded_linear_insert a i;
      unguarded_insertion_sort_loop n a (i + 1)
  end.

Definition unguarded_insertion_sort (a : list A) (first last : Z)
  : option (list A) :=
  unguarded_insertion_sort_loop (Z.to_nat (last - first)) a first.

Definition final_insertion_sort (a : list A) (first last : Z)
  : option (list A) :=
  if S_threshold <? last - first
  then
    a ← insertion_sort a first (first + S_threshold);
    unguarded_insertion_sort a (first + S_threshold) last
  else insertion_sort a first last.

(** [while (comp(first, pivot)) ++first;] *)
Fixpoint partition_scan_up (fuel : nat) (a : list A) (first pivot : Z)
  : option Z :=
  match fuel with
  | O => None
  | S fuel =>
      x ← deref a first; p ← deref a pivot;
      if comp x p then partition_scan_up fuel a (first + 1) pivot
      else Some first
  end.

(** [while (comp(pivot, last)) --last;] *)
Fixpoint partition_scan_down (fuel : nat) (a : list A) (pivot last : Z)
  : option Z :=
  match fuel with
  | O => None
  | S fuel =>
      p ← deref a pivot; x ← deref a last;
      if comp p x then partition_scan_down fuel a pivot (last - 1)
      else Some last
  end.

(** The loop of [__unguarded_partition]; the result is the range and the
    returned iterator. *)
Fixpoint unguarded_partition_loop (fuel : nat) (a : list A)
    (first last pivot : Z) : option (list A * Z) :=
  match fuel with
  | O => None
  | S fuel =>
      first ← partition_scan_up (S (length a)) a first pivot;
      last ← partition_scan_down (S (length a)) a pivot (last - 1);
      if first <? last
      then
        a ← iter_swap a first last;
        unguarded_partition_loop fuel a (first + 1) last pivot
      else Some (a, first)
  end.

Definition unguarded_partition (a : list A) (first last pivot : Z)
  : option (list A * Z) :=
  unguarded_partition_loop (S (length a)) a first last pivot.

Definition unguarded_partition_pivot (a : list A) (first last : Z)
  : option (list A * Z) :=
  let mid := first + (last - first) ÷ 2 in
  a ← move_median_to_first a first (first + 1) mid (last - 1);
  unguarded_partition a (first + 1) last first.

(** The loop of [__push_heap]. *)
Fixpoint push_heap_loop (fuel : nat) (a : list A)
    (first holeIndex topIndex : Z) (value : A) : option (list A) :=
  match fuel with
  | O => None
  | S fuel =>
      let parent := (holeIndex - 1) ÷ 2 in
      if topIndex <? holeIndex
      then
        p ← deref a (first + parent);
        if comp p value
        then
          a ← assign a (first + holeIndex) p;
          push_heap_loop fuel a first parent topIndex value
        else assign a (first + holeIndex) value
      else assign a (first + holeIndex) value
  end.

Definition push_heap (a : list A) (first holeIndex topIndex : Z) (value : A)
  : option (list A) :=
  push_heap_loop (S (length a)) a first holeIndex topIndex value.

(** The first loop of [__adjust_heap]; the result is the range,
    [holeIndex] and [secondChild]. *)
Fixpoint adjust_heap_loop (fuel : nat) (a : list A)
    (first holeIndex secondChild len : Z) : option (list A * Z * Z) :=
  match fuel with
  | O => None
  | S fuel =>
      if secondChild <? (len - 1) ÷ 2
      then
        let secondChild := 2 * (secondChild + 1) in
        x ← deref a (first + secondChild);
        y ← deref a (first + (secondChild - 1));
        let secondChild := if comp x y then secondChild - 1 else secondChild in
        z ← deref a (first + secondChild);
        a ← assign a (first + holeIndex) z;
        adjust_heap_loop fuel a first secondChild secondChild len
      else Some (a, holeIndex, secondChild)
  end.

Definition adjust_heap (a : list A) (first holeIndex len : Z) (value : A)
  : option (list A) :=
  let topIndex := holeIndex in
  '(a, holeIndex, secondChild) ←
    adjust_heap_loop (S (length a)) a first holeIndex holeIndex len;
  '(a, holeIndex) ←
    (if (Z.land len 1 =? 0) && (secondChild =? (len - 2) ÷ 2)
     then
       let secondChild := 2 * (secondChild + 1) in
       z ← deref a (first + (secondChild - 1));
       a ← assign a (first + holeIndex) z;
       Some (a, secondChild - 1)
     else Some (a, holeIndex));
  push_heap a first holeIndex topIndex value.

Definition pop_heap (a : list A) (first last result : Z) : option (list A) :=
  value ← deref a result;
  x ← deref a first;
  a ← assign a result x;
  adjust_heap a first 0 (last - first) value.

Fixpoint make_heap_loop (fuel : nat) (a : list A) (first len parent : Z)
  : option (list A) :=
  match fuel with
  | O => None
  | S fuel =>
      value ← deref a (first + parent);
      a ← adjust_heap a first parent len value;
      if parent =? 0 then Some a
      else make_heap_loop fuel a first len (parent - 1)
  end.

Definition make_heap (a : list A) (first last : Z) : option (list A) :=
  if last - first <? 2 then Some a
  else
    let len := last - first in
    make_heap_loop (S (length a)) a first len ((len - 2) ÷ 2).

Fixpoint heap_select_loop (n : nat) (a : list A) (first middle i : Z)
  : option (list A) :=
  match n with
  | O => Some a
  | S n =>
      x ← deref a i; x0 ← deref a first;
      a ← (if comp x x0 then pop_heap a first middle i else Some a);
      heap_select_loop n a first middle (i + 1)
  end.

Definition heap_select (a : list A) (first middle last : Z)
  : option (list A) :=
  a ← make_heap a first middle;
  heap_select_loop (Z.to_nat (last - middle)) a first middle middle.

Fixpoint sort_heap_loop (fuel : nat) (a : list A) (first last : Z)
  : option (list A) :=
  match fuel with
  | O => None
  | S fuel =>
      if 1 <? last - first
      then
        let last := last - 1 in
        a ← pop_heap a first last last;
        sort_heap_loop fuel a first last
      else Some a
  end.

Definition sort_heap (a : list A) (first last : Z) : option (list A) :=
  sort_heap_loop (S (length a)) a first last.

Definition partial_sort (a : list A) (first middle last : Z)
  : option (list A) :=
  a ← heap_select a first middle last;
  sort_heap a first middle.

(** [__introsort_loop]: the recursive call on [[cut, last)], then the next
    round of the loop on [[first, cut)]. *)
Fixpoint introsort_loop (fuel : nat) (a : list A)
    (first last depth_limit : Z) : option (list A) :=
  match fuel with
  | O => None
  | S fuel =>
      if S_threshold <? last - first
      then
        if depth_limit =? 0 then partial_sort a first last last
        else
          let depth_limit := depth_limit - 1 in
          '(a, cut) ← unguarded_partition_pivot a first last;
          a ← introsort_loop fuel a cut last depth_limit;
          introsort_loop fuel a first cut depth_limit
      else Some a
  end.

(** [std::sort(begin, end, comp)] on the whole range;
    [std::__lg(n)] is [Z.log2 n]. *)
Definition libstdcxx_sort (a : list A) : option (list A) :=
  let first := 0 in
  let last := Z.of_nat (length a) in
  if first =? last then Some a
  else
    a ← introsort_loop (S (length a)) a first last
          (Z.log2 (last - first) * 2);
    final_insertion_sort a first last.

End StdSort.

(** [std::sort] as a function on lists.  Where [libstdcxx_sort] is not
    defined the range is given back as it is; the properties below that use
    this function also state that [libstdcxx_sort] is defined on their
    input. *)
Definition std_sort_libstdcxx (A : Type) (comp : A → A → bool) (l : list A)
  : list A :=
  default l (libstdcxx_sort comp l).

(** Test data. *)
Definition never_late : nat → Z := λ _, 0.
Definition always_A : nat → Z := λ _, 0.
Definition chars (s : string) : list ascii := list_ascii_of_string s.

(** ** Word normalization and the driver [main]

    [isalpha] and [toupper] are those of the "C" locale, which the program
    never changes: the letters are the 52 ASCII letters. *)

Definition isalpha (ch : ascii) : bool :=
  let n := nat_of_ascii ch in
  ((65 <=? n) && (n <=? 90) || (97 <=? n) && (n <=? 122))%nat.

Definition toupper (ch : ascii) : ascii :=
  let n := nat_of_ascii ch in
  if ((97 <=? n) && (n <=? 122))%nat then ascii_of_nat (n - 32) else ch.

(** Convert string to uppercase alphabetic only. *)
Fixpoint normalizeWord (input : string) : string :=
  match input with
  | EmptyString => EmptyString
  | String ch input' =>
      if isalpha ch then String (toupper ch) (normalizeWord input')
      else normalizeWord input'
  end.

(** A character of the set [" \t"]. *)
Definition is_blank (ch : ascii) : bool :=
  Ascii.eqb ch " "%char || Ascii.eqb ch (ascii_of_nat 9).

(** [line.find_first_not_of(" \t")]; [None] is [string::npos]. *)
Fixpoint find_first_not_blank (line : string) : option nat :=
  match line with
  | EmptyString => None
  | String ch line' =>
      if is_blank ch then S <$> find_first_not_blank line' else Some 0%nat
  end.

(** [line.find_last_not_of(" \t")]. *)
Fixpoint find_last_not_blank (line : string) : option nat :=
  match line with
  | EmptyString => None
  | String ch line' =>
      match find_last_not_blank line' with
      | Some j => Some (S j)
      | None => if is_blank ch then None else Some 0%nat
      end
  end.

(** One turn of the loop that reads standard input: [None] is [continue],
    otherwise the string pushed on [input_lines]. *)
Definition trim_line (line : string) : option string :=
  match find_first_not_blank line with
  | None => None
  | Some a =>
      let b := default 0%nat (find_last_not_blank line) in
      Some (substring a (b - a + 1) line)
  end.

(** The vector [input_lines] for the lines that [getline] delivers. *)
Definition read_lines (stdin_lines : list string) : list string :=
  omap trim_line stdin_lines.

(** One turn of the loop over [input_lines]: [None] is [continue],
    otherwise the word and the flag pushed on [words] and
    [required_flags]. *)
Definition parse_entry (raw : string) : option (string * bool) :=
  let '(required, s) :=
    match raw with
    | String ch s' => if Ascii.eqb ch "*"%char then (true, s') else (false, raw)
    | EmptyString => (false, raw)
    end in
  let normalized := normalizeWord s in
  match normalized with
  | EmptyString => None
  | _ => Some (normalized, required)
  end.

(** The string of the one character ['\n']. *)
Definition newline : string := String (ascii_of_nat 10) EmptyString.

(** What [main] does after it has read its arguments and its input: it
    leaves with status 1 and a message on [cerr], or calls
    [generateWordSearch]. *)
Inductive MainStep : Type :=
  | Exit (status : Z) (message : string)
  | Solve (words : list string) (required_flags : list bool)
      (rows cols runtime_ms : Z).

(** [main] from the parsed arguments on, up to the call of
    [generateWordSearch]: [cli_rows], [cli_cols] are the values of
    [--rows=], [--cols=] (0 when absent), [runtime_ms] is [MAX_RUNTIME_MS]
    after [--timems=].  [ceil_sqrt n] is the value of
    [(int)ceil(sqrt((double)n))], a floating-point computation left
    uninterpreted. *)
Definition main_plan (ceil_sqrt : Z → Z) (cli_rows cli_cols runtime_ms : Z)
    (stdin_lines : list string) : MainStep :=
  let input_lines := read_lines stdin_lines in
  match input_lines with
  | [] => Exit 1 ("Provide words via stdin (one per line). Prefix * for must-include words."
                  +:+ newline)
  | _ =>
      let entries := omap parse_entry input_lines in
      let words := map fst entries in
      let required_flags := map snd entries in
      let max_word_len :=
        foldl (λ m w, Z.max m (Z.of_nat (String.length w))) 0 words in
      match words with
      | [] => Exit 1 ("No valid words found after normalization." +:+ newline)
      | _ =>
          if (cli_rows <=? 0) || (cli_cols <=? 0)
          then
            let total_letters :=
              foldl (λ t w, t + Z.of_nat (String.length w)) 0 words in
            let estimated := Z.max max_word_len (ceil_sqrt total_letters + 2) in
            Solve words required_flags (Z.max estimated 10)
              (Z.max estimated 10) runtime_ms
          else Solve words required_flags cli_rows cli_cols runtime_ms
      end
  end.

(** The strings that [main] writes between double quotes, in the order of
    the output: [result.grid[r]] for every [r] below [rows], the word of
    every placement, the placed words and the unplaced words.  They are
    written as they are, without escaping.  Undefined when a row index
    leaves [result.grid]. *)
Definition quoted_output (rows : Z) (result : PuzzleResult)
  : option (list string) :=
  grid_lines ← mapM (λ r, string_of_list_ascii <$> grid result !! r)
                 (seq 0 (Z.to_nat rows));
  Some (grid_lines ++ map word (placements result)
        ++ placed_words result ++ unplaced_words result).

(** ** Vocabulary of the specification *)

(** A grid of [rows] rows of [cols] characters each. *)
Definition grid_shape (rows cols : Z) (g : Grid) : Prop :=
  length g = Z.to_nat rows ∧ Forall (λ line, length line = Z.to_nat cols) g.

(** The cell [start + k * (dr, dc)]. *)
Definition cell_at (r c dr dc : Z) (k : nat) : Z * Z :=
  (r + Z.of_nat k * dr, c + Z.of_nat k * dc).

Definition grid_at (g : Grid) (rc : Z * Z) : option ascii :=
  grid_get g (fst rc) (snd rc).

Definition placement_cell (p : WordPlacement) (k : nat) : Z * Z :=
  cell_at (row p) (col p) (delta_row p) (delta_col p) k.

(** The cell [rc] is one of the cells of the placement [p]. *)
Definition covers (p : WordPlacement) (rc : Z * Z) : Prop :=
  ∃ k, (k < String.length (word p))%nat ∧ placement_cell p k = rc.

Definition covered_by (pls : list WordPlacement) (rc : Z * Z) : Prop :=
  ∃ p, p ∈ pls ∧ covers p rc.

(** Every cell of the word is in bounds and holds the sentinel or the
    letter the word has there. *)
Definition placement_fits (rows cols : Z) (g : Grid) (w : string)
    (r c dr dc : Z) : Prop :=
  ∀ k ch, String.get k w = Some ch →
    isInBounds rows cols (fst (cell_at r c dr dc k)) (snd (cell_at r c dr dc k))
      = true
    ∧ (grid_at g (cell_at r c dr dc k) = Some empty_cell
       ∨ grid_at g (cell_at r c dr dc k) = Some ch).

(** The number of cells along the word whose letter in the grid is the
    letter of the word. *)
Definition matching_cells (g : Grid) (w : string) (r c dr dc : Z) : Z :=
  Z.of_nat (length (filter
    (λ k, grid_at g (cell_at r c dr dc k) = String.get k w)
    (seq 0 (String.length w)))).

Definition sum_Z (l : list Z) : Z := foldr Z.add 0 l.

(** How many times the placement [p] visits the cell [rc]. *)
Definition visits (p : WordPlacement) (rc : Z * Z) : Z :=
  Z.of_nat (length (filter (λ k, placement_cell p k = rc)
                      (seq 0 (String.length (word p))))).

(** How many placement cells fall on [rc], over all placements. *)
Definition usage_count (pls : list WordPlacement) (rc : Z * Z) : Z :=
  sum_Z (map (λ p, visits p rc) pls).

(** The direct recount of the overlap score. *)
Definition recount (rows cols : Z) (pls : list WordPlacement) : Z :=
  sum_Z (map (λ rc, Z.max 0 (usage_count pls rc - 1)) (grid_cells rows cols)).

(** The comparison key of a solution and its lexicographic order. *)
Definition rank (b : PuzzleResult) : Z * Z :=
  (num_placed b, total_overlap_score b).

Definition lex_lt (a b : Z * Z) : Prop :=
  fst a < fst b ∨ (fst a = fst b ∧ snd a < snd b).

Definition lex_le (a b : Z * Z) : Prop := lex_lt a b ∨ a = b.

(** A counter map of [rows] rows of [cols] counters each. *)
Definition map_shape (rows cols : nat) (m : list (list Z)) : Prop :=
  length m = rows ∧ Forall (λ line, length line = cols) m.

(** A candidate of the enumeration: a cell of the grid, one of the eight
    directions, and the overlap count of a successful feasibility check. *)
Definition feasible_candidate (rows cols : Z) (g : Grid) (w : string)
    (cand : Candidate) : Prop :=
  0 ≤ cand_r cand < rows ∧ 0 ≤ cand_c cand < cols
  ∧ (cand_dr cand, cand_dc cand) ∈ DIRECTIONS
  ∧ canPlaceWord rows cols g w (cand_r cand) (cand_c cand) (cand_dr cand)
      (cand_dc cand) = Some (true, cand_overlap cand).

(** Manhattan distance of the start cell from the grid center. *)
Definition center_distance (rows cols : Z) (cand : Candidate) : Z :=
  Z.abs (cand_r cand - rows ÷ 2) + Z.abs (cand_c cand - cols ÷ 2).

(** [a] may stand before [b] in the ranking: more overlap, or the same
    overlap and not farther from the center. *)
Definition ranked_before (rows cols : Z) (a b : Candidate) : Prop :=
  cand_overlap b < cand_overlap a
  ∨ (cand_overlap a = cand_overlap b
     ∧ center_distance rows cols a ≤ center_distance rows cols b).

(** [a] and [b] agree on both ranking keys. *)
Definition same_keys (rows cols : Z) (a b : Candidate) : Prop :=
  cand_overlap a = cand_overlap b
  ∧ center_distance rows cols a = center_distance rows cols b.

(** Candidates with equal keys stand in [cands] in the order they have in
    the enumeration [enum]. *)
Definition keeps_enumeration_order (rows cols : Z)
    (enum cands : list Candidate) : Prop :=
  ∀ i j a b, cands !! i = Some a → cands !! j = Some b → (i < j)%nat →
             same_keys rows cols a b →
             ∃ i' j', enum !! i' = Some a ∧ enum !! j' = Some b ∧ (i' < j')%nat.

(** The word has no character equal to the sentinel (normalized words are
    alphabetic). *)
Definition no_sentinel (w : string) : Prop :=
  ∀ k, String.get k w ≠ Some empty_cell.

(** Every placement lies in bounds, and the grid holds its letters. *)
Definition agrees (rows cols : Z) (g : Grid) (pls : list WordPlacement) : Prop :=
  ∀ p k ch, p ∈ pls → String.get k (word p) = Some ch →
    isInBounds rows cols (fst (placement_cell p k)) (snd (placement_cell p k))
      = true
    ∧ grid_at g (placement_cell p k) = Some ch.

(** Every cell of the grid that no placement covers holds the sentinel. *)
Definition blank_elsewhere (g : Grid) (pls : list WordPlacement) : Prop :=
  ∀ rc e, grid_at g rc = Some e → ¬ covered_by pls rc → e = empty_cell.

(** Every placement stays in bounds, and a cell shared by two placements
    receives the same letter from both. *)
Definition conflict_free (rows cols : Z) (pls : list WordPlacement) : Prop :=
  (∀ p k, p ∈ pls → (k < String.length (word p))%nat →
     isInBounds rows cols (fst (placement_cell p k)) (snd (placement_cell p k))
       = true)
  ∧ (∀ p q j k a b, p ∈ pls → q ∈ pls →
       String.get j (word p) = Some a → String.get k (word q) = Some b →
       placement_cell p j = placement_cell q k → a = b).

(** What holds of the grid and the path at every call of the search. *)
Definition placed_node (rows cols : Z) (g : Grid) (pls : list WordPlacement)
  : Prop :=
  grid_shape rows cols g
  ∧ agrees rows cols g pls
  ∧ blank_elsewhere g pls
  ∧ Forall (λ p, no_sentinel (word p)) pls.

(** What holds of the best solution throughout the search. *)
Definition placed_best (rows cols : Z) (b : PuzzleResult) : Prop :=
  agrees rows cols (grid b) (placements b)
  ∧ blank_elsewhere (grid b) (placements b).

(** The length of the word with index [i]. *)
Definition word_length (words : list string) (i : nat) : nat :=
  String.length (default EmptyString (words !! i)).

(** The word with index [i] is at least as long as the word with index [j]. *)
Definition longer_first (words : list string) (i j : nat) : Prop :=
  (word_length words j ≤ word_length words i)%nat.

(** Replaying placements in order on a grid: every placement has to pass
    the feasibility check on the grid that the earlier ones have left, and
    is then written. *)
Fixpoint replay (rows cols : Z) (g : Grid) (pls : list WordPlacement)
  : option Grid :=
  match pls with
  | [] => Some g
  | p :: pls' =>
      match canPlaceWord rows cols g (word p) (row p) (col p)
              (delta_row p) (delta_col p) with
      | Some (true, _) =>
          g' ← placeWord g (word p) (row p) (col p) (delta_row p) (delta_col p);
          replay rows cols g' pls'
      | _ => None
      end
  end.

(** The grid of a search node is the replay of its path on the blank
    grid. *)
Definition replayed_node (rows cols : Z) (g : Grid) (pls : list WordPlacement)
  : Prop :=
  grid_shape rows cols g ∧ replay rows cols (blank_grid rows cols) pls = Some g.

(** The best solution is the untouched initial record, or holds at least
    one word and the replay of its placements as its grid. *)
Definition replayed_best (rows cols : Z) (b : PuzzleResult) : Prop :=
  (grid b = [] ∧ placements b = [] ∧ num_placed b = 0
   ∧ total_overlap_score b = 0)
  ∨ (0 < num_placed b ∧ grid_shape rows cols (grid b)
     ∧ replay rows cols (blank_grid rows cols) (placements b) = Some (grid b)).

(** Every character of the word is one of ['A'] to ['Z']. *)
Definition uppercase_word (w : string) : Prop :=
  ∀ k ch, String.get k w = Some ch → (65 ≤ nat_of_ascii ch ≤ 90)%nat.

(** Every character of the string is a space or a tab. *)
Definition all_blank (s : string) : Prop :=
  ∀ k ch, String.get k s = Some ch → is_blank ch = true.

(** The string is not empty, and neither its first nor its last character
    is a space or a tab. *)
Definition trimmed (t : string) : Prop :=
  (∃ ch, String.get 0 t = Some ch ∧ is_blank ch = false)
  ∧ (∃ ch, String.get (String.length t - 1) t = Some ch ∧ is_blank ch = false).

(** The decision tree of the search: [achievable rest g pls] when the
    placements [pls] can be made, in this order, by walking the word indices
    [rest] from the grid [g], each word being either skipped or placed at a
    cell of the grid in one of the eight directions where the feasibility
    check succeeds on the grid the earlier placements have left. *)
Inductive achievable (rows cols : Z) (words : list string)
  : list nat → Grid → list WordPlacement → Prop :=
  | achievable_done g : achievable rows cols words [] g []
  | achievable_skip i rest g pls :
      achievable rows cols words rest g pls →
      achievable rows cols words (i :: rest) g pls
  | achievable_place i rest g pls w r c dr dc overlap g' :
      words !! i = Some w →
      0 ≤ r < rows → 0 ≤ c < cols → (dr, dc) ∈ DIRECTIONS →
      canPlaceWord rows cols g w r c dr dc = Some (true, overlap) →
      placeWord g w r c dr dc = Some g' →
      achievable rows cols words rest g' pls →
      achievable rows cols words (i :: rest) g
        (mkWordPlacement w r c dr dc :: pls).

(** The clock never reaches the limit. *)
Definition never_expires (limit : Z) (elapsed : nat → Z) : Prop :=
  ∀ k, elapsed k < limit.

(** The word can be placed somewhere on the blank grid. *)
Definition fits_blank (rows cols : Z) (w : string) : Prop :=
  ∃ r c dr dc overlap,
    0 ≤ r < rows ∧ 0 ≤ c < cols ∧ (dr, dc) ∈ DIRECTIONS
    ∧ canPlaceWord rows cols (blank_grid rows cols) w r c dr dc
      = Some (true, overlap).

(** The overlap score of a usage map [u] over the cells [cells]. *)
Definition score_of (u : Z * Z → Z) (cells : list (Z * Z)) : Z :=
  sum_Z (map (λ rc, Z.max 0 (u rc - 1)) cells).

(** How many of the first [n] cells from [(r, c)] in direction [(dr, dc)]
    are in use in the usage map [u]. *)
Definition used_cells (u : Z * Z → Z) (r c dr dc : Z) (n : nat) : Z :=
  Z.of_nat (length (filter (λ k, 1 ≤ u (cell_at r c dr dc k)) (seq 0 n))).

(** Within a pass of the word order: the word with index [i] is longer
    than the word with index [j], or as long and later in the input. *)
Definition later_first (words : list string) (i j : nat) : Prop :=
  (word_length words j < word_length words i)%nat
  ∨ (word_length words j = word_length words i ∧ j < i)%nat.

(** The path of first choices: walking the word indices [rest] from the
    grid [g], every word is placed at the candidate that the ranking puts
    first.  There is no such path when a word has no candidate. *)
Fixpoint first_choices (rows cols : Z)
    (srt : ∀ A : Type, (A → A → bool) → list A → list A)
    (words : list string) (rest : list nat) (g : Grid)
  : option (list WordPlacement) :=
  match rest with
  | [] => Some []
  | i :: rest' =>
      w ← words !! i;
      cands ← ranked_candidates rows cols srt g w;
      cand ← head cands;
      g' ← placeWord g w (cand_r cand) (cand_c cand) (cand_dr cand)
             (cand_dc cand);
      path ← first_choices rows cols srt words rest' g';
      Some (mkWordPlacement w (cand_r cand) (cand_c cand) (cand_dr cand)
              (cand_dc cand) :: path)
  end.

(** * Properties *)

(** One step of a computation that may be undefined: reduce the bind of a
    known result. *)
Tactic Notation "option_step" := cbn [mbind option_bind].
Tactic Notation "option_step" "in" hyp(H) := cbn [mbind option_bind] in H.

(** ** Cells of a grid *)

Lemma grid_get_Some (g : Grid) (r c : Z) (e : ascii) :
  grid_get g r c = Some e ↔
  0 ≤ r ∧ 0 ≤ c ∧ ∃ line, g !! Z.to_nat r = Some line ∧ line !! Z.to_nat c = Some e.
Proof.
  unfold grid_get. split.
  - destruct (0 <=? r) eqn:Hr; [|done]. destruct (0 <=? c) eqn:Hc; [|done].
    simpl. destruct (g !! Z.to_nat r) as [line|] eqn:Hl; [|done]. simpl.
    intros He. repeat split; [lia..|]. by exists line.
  - intros (Hr & Hc & line & Hl & He).
    rewrite (proj2 (Z.leb_le 0 r) Hr), (proj2 (Z.leb_le 0 c) Hc). simpl.
    by rewrite Hl.
Qed.

Lemma grid_get_in_shape (rows cols : Z) (g : Grid) (r c : Z) :
  grid_shape rows cols g → isInBounds rows cols r c = true →
  is_Some (grid_get g r c).
Proof.
  intros [Hlen Hall] Hb. unfold isInBounds in Hb.
  repeat (apply andb_true_iff in Hb as [Hb ?]).
  destruct (lookup_lt_is_Some_2 g (Z.to_nat r)) as [line Hl]; [lia|].
  assert (length line = Z.to_nat cols) as Hc.
  { rewrite Forall_forall in Hall. apply Hall. by eapply list_elem_of_lookup_2. }
  destruct (lookup_lt_is_Some_2 line (Z.to_nat c)) as [e He]; [lia|].
  exists e. apply grid_get_Some. repeat split; [lia..|]. by exists line.
Qed.

Lemma grid_set_is_Some (g : Grid) (r c : Z) (ch : ascii) :
  is_Some (grid_get g r c) → is_Some (grid_set g r c ch).
Proof. intros [e He]. unfold grid_set. rewrite He. eauto. Qed.

Lemma grid_set_same (g g' : Grid) (r c : Z) (ch : ascii) :
  grid_set g r c ch = Some g' → grid_get g' r c = Some ch.
Proof.
  unfold grid_set. destruct (grid_get g r c) as [e|] eqn:He; [|done].
  intros [= <-]. apply grid_get_Some in He as (Hr & Hc & line & Hl & He).
  apply grid_get_Some. repeat split; [done..|].
  exists (<[Z.to_nat c := ch]> line). split.
  - rewrite list_lookup_alter_eq, Hl. done.
  - apply list_lookup_insert_eq. by eapply lookup_lt_Some.
Qed.

Lemma grid_set_other (g g' : Grid) (r c r' c' : Z) (ch : ascii) :
  grid_set g r c ch = Some g' → (r', c') ≠ (r, c) →
  grid_get g' r' c' = grid_get g r' c'.
Proof.
  unfold grid_set. destruct (grid_get g r c) as [e|] eqn:He; [|done].
  intros [= <-] Hne. apply grid_get_Some in He as (Hr & Hc & line & Hl & He).
  unfold grid_get. destruct ((0 <=? r') && (0 <=? c')) eqn:Hb; [|done].
  apply andb_true_iff in Hb as [Hr' Hc'].
  destruct (decide (Z.to_nat r' = Z.to_nat r)) as [Heq|Hneq].
  - rewrite Heq, list_lookup_alter_eq, Hl. simpl.
    apply list_lookup_insert_ne. intros Hcc. apply Hne. f_equal; lia.
  - by rewrite list_lookup_alter_ne.
Qed.

Lemma grid_set_shape (rows cols : Z) (g g' : Grid) (r c : Z) (ch : ascii) :
  grid_set g r c ch = Some g' → grid_shape rows cols g → grid_shape rows cols g'.
Proof.
  unfold grid_set. destruct (grid_get g r c) as [e|]; [|done].
  intros [= <-] [Hlen Hall]. split.
  - by rewrite length_alter.
  - rewrite Forall_forall in Hall. apply Forall_forall. intros line Hin.
    apply list_elem_of_lookup in Hin as [i Hi].
    destruct (decide (i = Z.to_nat r)) as [->|Hneq].
    + rewrite list_lookup_alter_eq in Hi.
      destruct (g !! Z.to_nat r) as [l0|] eqn:Hl0; [|done].
      simpl in Hi. injection Hi as <-. rewrite length_insert.
      apply Hall. by eapply list_elem_of_lookup_2.
    + rewrite list_lookup_alter_ne in Hi by done.
      apply Hall. by eapply list_elem_of_lookup_2.
Qed.

(** ** Walking along a word *)

Lemma cell_at_0 (r c dr dc : Z) : cell_at r c dr dc 0 = (r, c).
Proof. unfold cell_at. f_equal; lia. Qed.

Lemma cell_at_S (r c dr dc : Z) (k : nat) :
  cell_at r c dr dc (S k) = cell_at (r + dr) (c + dc) dr dc k.
Proof. unfold cell_at. f_equal; lia. Qed.

Lemma string_get_is_Some (w : string) (k : nat) :
  (k < String.length w)%nat ↔ is_Some (String.get k w).
Proof.
  revert k. induction w as [|ch w IH]; intros k; simpl.
  - split; [lia|]. by intros [? ?].
  - destruct k as [|k]; [split; [eauto|lia]|].
    rewrite <- IH. lia.
Qed.

Lemma filter_seq_shift (P : nat → Prop) `{!∀ k, Decision (P k)} (j n : nat) :
  length (filter P (seq (S j) n)) = length (filter (λ k, P (S k)) (seq j n)).
Proof.
  revert j. induction n as [|n IH]; intros j; [done|].
  simpl seq. rewrite !filter_cons. specialize (IH (S j)). simpl in IH.
  destruct (decide (P (S j))); simpl; by rewrite IH.
Qed.

Lemma placement_fits_nil (rows cols : Z) (g : Grid) (r c dr dc : Z) :
  placement_fits rows cols g EmptyString r c dr dc.
Proof. intros k ch. by destruct k. Qed.

Lemma placement_fits_cons (rows cols : Z) (g : Grid) (ch : ascii) (w : string)
    (r c dr dc : Z) :
  placement_fits rows cols g (String ch w) r c dr dc ↔
  (isInBounds rows cols r c = true
   ∧ (grid_get g r c = Some empty_cell ∨ grid_get g r c = Some ch))
  ∧ placement_fits rows cols g w (r + dr) (c + dc) dr dc.
Proof.
  split.
  - intros Hfit. split.
    + specialize (Hfit 0%nat ch eq_refl). by rewrite cell_at_0 in Hfit.
    + intros k x Hk. specialize (Hfit (S k) x Hk). by rewrite cell_at_S in Hfit.
  - intros [H0 Hrest] [|k] x Hk.
    + simpl in Hk. injection Hk as <-. by rewrite cell_at_0.
    + rewrite cell_at_S. by apply Hrest.
Qed.

Lemma matching_cells_nil (g : Grid) (r c dr dc : Z) :
  matching_cells g EmptyString r c dr dc = 0.
Proof. done. Qed.

Lemma matching_cells_cons (g : Grid) (ch : ascii) (w : string) (r c dr dc : Z) :
  matching_cells g (String ch w) r c dr dc
  = (if decide (grid_get g r c = Some ch) then 1 else 0)
    + matching_cells g w (r + dr) (c + dc) dr dc.
Proof.
  unfold matching_cells. simpl String.length. simpl seq.
  assert (length (filter (λ k, grid_at g (cell_at r c dr dc k)
                               = String.get k (String ch w))
                    (seq 1 (String.length w)))
          = length (filter (λ k, grid_at g (cell_at (r + dr) (c + dc) dr dc k)
                                 = String.get k w)
                      (seq 0 (String.length w)))) as Hshift.
  { rewrite filter_seq_shift. f_equal. apply list_filter_iff.
    intros k. by rewrite cell_at_S. }
  rewrite filter_cons, cell_at_0. unfold grid_at at 1. cbn [fst snd].
  change (String.get 0 (String ch w)) with (Some ch).
  destruct (decide (grid_get g r c = Some ch)); cbn [length];
    rewrite Hshift; lia.
Qed.

Lemma canPlaceWord_loop_spec (rows cols : Z) (g : Grid) (w : string) :
  grid_shape rows cols g →
  ∀ r c dr dc acc, ∃ ok n,
    canPlaceWord_loop rows cols g w r c dr dc acc = Some (ok, n)
    ∧ (ok = true ↔ placement_fits rows cols g w r c dr dc)
    ∧ (ok = true → n = acc + matching_cells g w r c dr dc).
Proof.
  intros Hshape. induction w as [|ch w IH]; intros r c dr dc acc.
  - exists true, acc. simpl. split; [done|]. split.
    + split; [intros _; apply placement_fits_nil|done].
    + intros _. rewrite matching_cells_nil. lia.
  - simpl. destruct (isInBounds rows cols r c) eqn:Hb; simpl.
    2: { exists false, acc. split; [done|]. split; [|done].
         split; [done|]. intros Hfit%placement_fits_cons.
         destruct Hfit as [[Hb' _] _]. congruence. }
    destruct (grid_get_in_shape rows cols g r c Hshape Hb) as [e He].
    rewrite He.
    destruct (Ascii.eqb_spec e empty_cell) as [Hdot|Hdot];
      destruct (Ascii.eqb_spec e ch) as [Hch|Hch]; simpl.
    4: { exists false, acc. split; [done|]. split; [|done].
         split; [done|]. intros Hfit%placement_fits_cons.
         destruct Hfit as [[_ [Hc|Hc]] _]; congruence. }
    all: match goal with
         | |- context [canPlaceWord_loop _ _ _ _ _ _ _ _ ?a] =>
             destruct (IH (r + dr) (c + dc) dr dc a) as (ok & n & Hrun & Hok & Hn)
         end.
    all: exists ok, n; split; [done|]; rewrite placement_fits_cons,
           matching_cells_cons, Hb, He.
    all: split;
           [rewrite Hok; split;
              [intros ?; split; [split; [done|rewrite ?Hdot, ?Hch; auto]|done]
              |by intros [_ ?]]|].
    all: intros Hyes; specialize (Hn Hyes).
    all: destruct (decide (Some e = Some ch)) as [Heq|Hneq];
           [|try (exfalso; apply Hneq; congruence)]; try lia.
    all: injection Heq as Heq; congruence.
Qed.

Lemma canPlaceWord_fits (rows cols : Z) (g : Grid) (w : string)
    (r c dr dc n : Z) :
  grid_shape rows cols g →
  canPlaceWord rows cols g w r c dr dc = Some (true, n) →
  placement_fits rows cols g w r c dr dc ∧ n = matching_cells g w r c dr dc.
Proof.
  intros Hshape Hrun.
  destruct (canPlaceWord_loop_spec rows cols g w Hshape r c dr dc 0)
    as (ok & n' & Hrun' & Hok & Hn).
  unfold canPlaceWord in Hrun. rewrite Hrun in Hrun'. injection Hrun' as <- <-.
  split; [by apply Hok|]. rewrite Hn by done. lia.
Qed.

Lemma placement_fits_present (rows cols : Z) (g : Grid) (w : string)
    (r c dr dc : Z) :
  placement_fits rows cols g w r c dr dc →
  ∀ k, (k < String.length w)%nat → is_Some (grid_at g (cell_at r c dr dc k)).
Proof.
  intros Hfit k Hk. apply string_get_is_Some in Hk as [ch Hch].
  destruct (Hfit k ch Hch) as [_ [H|H]]; rewrite H; eauto.
Qed.

(** ** Writing a word *)

Lemma grid_set_keeps_cells (g g' : Grid) (r c r' c' : Z) (ch : ascii) :
  grid_set g r c ch = Some g' →
  is_Some (grid_get g r' c') → is_Some (grid_get g' r' c').
Proof.
  intros Hset Hsome. destruct (decide ((r', c') = (r, c))) as [Heq|Hne].
  - injection Heq as -> ->. rewrite (grid_set_same _ _ _ _ _ Hset). eauto.
  - by rewrite (grid_set_other _ _ _ _ _ _ _ Hset Hne).
Qed.

Lemma cell_at_injective (r c dr dc : Z) (j k : nat) :
  (dr, dc) ≠ (0, 0) → cell_at r c dr dc j = cell_at r c dr dc k → j = k.
Proof.
  intros Hdir Heq. unfold cell_at in Heq. injection Heq as Hr Hc.
  destruct (decide (j = k)) as [|Hjk]; [done|]. exfalso. apply Hdir.
  assert (Z.of_nat j - Z.of_nat k ≠ 0) as Hd by lia.
  f_equal; nia.
Qed.

Lemma placeWord_spec (w : string) :
  ∀ (g : Grid) (r c dr dc : Z),
    (∀ k, (k < String.length w)%nat → is_Some (grid_at g (cell_at r c dr dc k))) →
    ∃ g', placeWord g w r c dr dc = Some g'
      ∧ (∀ rc, (∀ k, (k < String.length w)%nat → cell_at r c dr dc k ≠ rc) →
               grid_at g' rc = grid_at g rc)
      ∧ ((dr, dc) ≠ (0, 0) →
         ∀ k ch, String.get k w = Some ch →
                 grid_at g' (cell_at r c dr dc k) = Some ch)
      ∧ (∀ rows cols, grid_shape rows cols g → grid_shape rows cols g').
Proof.
  induction w as [|ch w IH]; intros g r c dr dc Hpresent.
  - exists g. simpl. split; [done|]. split; [done|]. split; [|done]. intros _ k x Hk. by destruct k.
  - pose proof (Hpresent 0%nat ltac:(simpl; lia)) as H0.
    rewrite cell_at_0 in H0.
    destruct (grid_set_is_Some g r c ch H0) as [g1 Hset].
    destruct (IH g1 (r + dr) (c + dc) dr dc) as (g' & Hrun & Hframe & Hput & Hshape).
    { intros k Hk. rewrite <- cell_at_S.
      eapply grid_set_keeps_cells; [done|]. apply Hpresent. simpl. lia. }
    exists g'. simpl. rewrite Hset. simpl. split; [done|]. split; [|split].
    + intros [r' c'] Hoff. rewrite Hframe.
      * unfold grid_at. simpl. eapply grid_set_other; [done|].
        intros Heq. apply (Hoff 0%nat ltac:(simpl; lia)).
        by rewrite cell_at_0.
      * intros k Hk. rewrite <- cell_at_S. apply Hoff. simpl. lia.
    + intros Hdir [|k] x Hk.
      * simpl in Hk. injection Hk as <-. rewrite cell_at_0, Hframe.
        { unfold grid_at. simpl. by eapply grid_set_same. }
        intros k Hk Heq. rewrite <- cell_at_S, <- (cell_at_0 r c dr dc) in Heq.
        by apply cell_at_injective in Heq.
      * rewrite cell_at_S. by apply Hput.
    + intros rows cols Hs. apply Hshape. by eapply grid_set_shape.
Qed.

Lemma count_cells_S (r c dr dc : Z) (rc : Z * Z) (n : nat) :
  length (filter (λ k, cell_at r c dr dc k = rc) (seq 0 (S n)))
  = ((if decide ((r, c) = rc) then 1 else 0)
     + length (filter (λ k, cell_at (r + dr) (c + dc) dr dc k = rc) (seq 0 n)))%nat.
Proof.
  assert (length (filter (λ k, cell_at r c dr dc k = rc) (seq 1 n))
          = length (filter (λ k, cell_at (r + dr) (c + dc) dr dc k = rc)
                      (seq 0 n))) as Hshift.
  { rewrite filter_seq_shift. f_equal. apply list_filter_iff.
    intros k. by rewrite cell_at_S. }
  simpl seq. rewrite filter_cons, cell_at_0.
  destruct (decide ((r, c) = rc)); cbn [length]; rewrite Hshift; lia.
Qed.

(** ** The overlap map *)

Lemma overlap_map_incr_shape (rows cols : nat) (m : list (list Z)) (rr cc : Z) :
  map_shape rows cols m → map_shape rows cols (overlap_map_incr m rr cc).
Proof.
  intros [Hlen Hall]. unfold overlap_map_incr.
  split; [by rewrite length_alter|].
  rewrite Forall_forall in Hall. apply Forall_forall. intros line Hin.
  apply list_elem_of_lookup in Hin as [i Hi].
  destruct (decide (i = Z.to_nat rr)) as [->|Hneq].
  - rewrite list_lookup_alter_eq in Hi.
    destruct (m !! Z.to_nat rr) as [l0|] eqn:Hl0; [|done].
    simpl in Hi. injection Hi as <-. rewrite length_alter.
    apply Hall. by eapply list_elem_of_lookup_2.
  - rewrite list_lookup_alter_ne in Hi by done.
    apply Hall. by eapply list_elem_of_lookup_2.
Qed.

Lemma overlap_map_incr_at (rows cols : nat) (m : list (list Z)) (rr cc : Z)
    (r c : nat) :
  map_shape rows cols m → (r < rows)%nat → (c < cols)%nat → 0 ≤ rr → 0 ≤ cc →
  overlap_map_at (overlap_map_incr m rr cc) r c
  = overlap_map_at m r c
    + (if decide ((rr, cc) = (Z.of_nat r, Z.of_nat c)) then 1 else 0).
Proof.
  intros [Hlen Hall] Hr Hc Hrr Hcc. unfold overlap_map_at, overlap_map_incr.
  destruct (lookup_lt_is_Some_2 m r) as [line Hl]; [lia|].
  assert (length line = cols) as Hlc.
  { rewrite Forall_forall in Hall. apply Hall. by eapply list_elem_of_lookup_2. }
  destruct (lookup_lt_is_Some_2 line c) as [v Hv]; [lia|].
  destruct (decide (Z.to_nat rr = r)) as [Hrow|Hrow].
  - rewrite Hrow, list_lookup_alter_eq, Hl. simpl.
    destruct (decide (Z.to_nat cc = c)) as [Hcol|Hcol].
    + rewrite Hcol, list_lookup_alter_eq, Hv. simpl.
      rewrite decide_True by (f_equal; lia). lia.
    + rewrite list_lookup_alter_ne, Hv by done. simpl.
      rewrite decide_False; [lia|]. intros [= ? ?]. lia.
  - rewrite list_lookup_alter_ne, Hl by done. simpl. rewrite Hv. simpl.
    rewrite decide_False; [lia|]. intros [= ? ?]. lia.
Qed.

Lemma overlap_map_word_spec (rows cols : Z) (w : string) :
  ∀ (m : list (list Z)) (rr cc dr dc : Z),
    map_shape (Z.to_nat rows) (Z.to_nat cols) m →
    map_shape (Z.to_nat rows) (Z.to_nat cols)
      (overlap_map_word rows cols m w rr cc dr dc)
    ∧ ∀ r c, (r < Z.to_nat rows)%nat → (c < Z.to_nat cols)%nat →
        overlap_map_at (overlap_map_word rows cols m w rr cc dr dc) r c
        = overlap_map_at m r c
          + Z.of_nat (length (filter
              (λ k, cell_at rr cc dr dc k = (Z.of_nat r, Z.of_nat c))
              (seq 0 (String.length w)))).
Proof.
  induction w as [|ch w IH]; intros m rr cc dr dc Hshape.
  - simpl. split; [done|]. intros. lia.
  - simpl overlap_map_word. simpl String.length.
    set (m1 := if isInBounds rows cols rr cc
               then overlap_map_incr m rr cc else m).
    assert (map_shape (Z.to_nat rows) (Z.to_nat cols) m1) as Hshape1.
    { unfold m1. destruct (isInBounds rows cols rr cc); [|done].
      by apply overlap_map_incr_shape. }
    destruct (IH m1 (rr + dr) (cc + dc) dr dc Hshape1) as [Hs Hat].
    split; [done|]. intros r c Hr Hc. rewrite Hat by done.
    rewrite count_cells_S.
    assert (overlap_map_at m1 r c
            = overlap_map_at m r c
              + (if decide ((rr, cc) = (Z.of_nat r, Z.of_nat c)) then 1 else 0))
      as ->.
    { unfold m1. destruct (isInBounds rows cols rr cc) eqn:Hb.
      - unfold isInBounds in Hb.
        repeat (apply andb_true_iff in Hb as [Hb ?]).
        eapply overlap_map_incr_at; [done..|lia|lia].
      - rewrite decide_False; [lia|]. intros [= -> ->].
        unfold isInBounds in Hb.
        assert ((0 <=? Z.of_nat r) && (Z.of_nat r <? rows)
                && (0 <=? Z.of_nat c) && (Z.of_nat c <? cols) = true);
          [|congruence].
        repeat (apply andb_true_iff; split); lia. }
    destruct (decide ((rr, cc) = (Z.of_nat r, Z.of_nat c))); lia.
Qed.

Lemma visits_unfold (p : WordPlacement) (rc : Z * Z) :
  visits p rc
  = Z.of_nat (length (filter
      (λ k, cell_at (row p) (col p) (delta_row p) (delta_col p) k = rc)
      (seq 0 (String.length (word p))))).
Proof. done. Qed.

Lemma overlap_map_fold_spec (rows cols : Z) (pls : list WordPlacement) :
  ∀ m : list (list Z),
    map_shape (Z.to_nat rows) (Z.to_nat cols) m →
    ∀ r c, (r < Z.to_nat rows)%nat → (c < Z.to_nat cols)%nat →
      overlap_map_at
        (fold_left
           (λ m p, overlap_map_word rows cols m (word p) (row p) (col p)
                     (delta_row p) (delta_col p)) pls m) r c
      = overlap_map_at m r c + usage_count pls (Z.of_nat r, Z.of_nat c).
Proof.
  induction pls as [|p pls IH]; intros m Hshape r c Hr Hc.
  - unfold usage_count. simpl. lia.
  - destruct (overlap_map_word_spec rows cols (word p) m (row p) (col p)
                (delta_row p) (delta_col p) Hshape) as [Hs Hat].
    simpl fold_left. rewrite IH, Hat by done.
    unfold usage_count. simpl. rewrite visits_unfold. lia.
Qed.

Lemma zero_map_shape (rows cols : nat) :
  map_shape rows cols (replicate rows (replicate cols 0)).
Proof.
  split; [by rewrite length_replicate|].
  apply Forall_forall. intros line Hin.
  apply elem_of_replicate in Hin as [-> _]. by rewrite length_replicate.
Qed.

Lemma zero_map_at (rows cols r c : nat) :
  overlap_map_at (replicate rows (replicate cols 0)) r c = 0.
Proof.
  unfold overlap_map_at.
  destruct (replicate rows (replicate cols 0) !! r) as [line|] eqn:Hl; [|done].
  apply lookup_replicate in Hl as [-> _]. simpl.
  destruct (replicate cols 0 !! c) as [v|] eqn:Hv; [|done].
  by apply lookup_replicate in Hv as [-> _].
Qed.

Lemma overlap_map_of_at (rows cols : Z) (pls : list WordPlacement) (r c : nat) :
  (r < Z.to_nat rows)%nat → (c < Z.to_nat cols)%nat →
  overlap_map_at (overlap_map_of rows cols pls) r c
  = usage_count pls (Z.of_nat r, Z.of_nat c).
Proof.
  intros Hr Hc. unfold overlap_map_of.
  rewrite overlap_map_fold_spec by (done || apply zero_map_shape).
  rewrite zero_map_at. lia.
Qed.

(** ** Sums *)

Lemma sum_Z_app (l1 l2 : list Z) : sum_Z (l1 ++ l2) = sum_Z l1 + sum_Z l2.
Proof. induction l1 as [|x l1 IH]; simpl; [done|]. rewrite IH. lia. Qed.

Lemma sum_Z_bind {A B : Type} (f : B → Z) (h : A → list B) (l : list A) :
  sum_Z (map f (l ≫= h)) = sum_Z (map (λ x, sum_Z (map f (h x))) l).
Proof.
  induction l as [|x l IH]; [done|].
  change ((x :: l) ≫= h) with (h x ++ (l ≫= h)).
  rewrite map_app, sum_Z_app, IH. done.
Qed.

Lemma sum_Z_zero {A : Type} (l : list A) : sum_Z (map (λ _, 0) l) = 0.
Proof. induction l as [|x l IH]; simpl; lia. Qed.

Lemma seqZ_from_0 (n : Z) : seqZ 0 n = map Z.of_nat (seq 0 (Z.to_nat n)).
Proof.
  unfold seqZ. generalize (seq 0 (Z.to_nat n)). intros l.
  induction l as [|x l IH]; [done|]. simpl. rewrite <- IH. f_equal. lia.
Qed.

Lemma fold_left_overlap_row (m : list (list Z)) (r : nat) (cs : list nat) (acc : Z) :
  fold_left
    (λ overlap_score c,
       if 1 <? overlap_map_at m r c
       then overlap_score + (overlap_map_at m r c - 1) else overlap_score)
    cs acc
  = acc + sum_Z (map (λ c, Z.max 0 (overlap_map_at m r c - 1)) cs).
Proof.
  revert acc. induction cs as [|c cs IH]; intros acc; simpl; [lia|].
  rewrite IH. destruct (1 <? overlap_map_at m r c) eqn:Hv; lia.
Qed.

Lemma overlap_map_total_sum (rows cols : Z) (m : list (list Z)) :
  overlap_map_total rows cols m
  = sum_Z (map (λ r, sum_Z (map (λ c, Z.max 0 (overlap_map_at m r c - 1))
                              (seq 0 (Z.to_nat cols))))
             (seq 0 (Z.to_nat rows))).
Proof.
  unfold overlap_map_total. generalize (seq 0 (Z.to_nat rows)). intros rs.
  assert (∀ acc,
    fold_left
      (λ overlap_score r,
         fold_left
           (λ overlap_score c,
              if 1 <? overlap_map_at m r c
              then overlap_score + (overlap_map_at m r c - 1)
              else overlap_score)
           (seq 0 (Z.to_nat cols)) overlap_score) rs acc
    = acc + sum_Z (map (λ r, sum_Z (map (λ c, Z.max 0 (overlap_map_at m r c - 1))
                                      (seq 0 (Z.to_nat cols)))) rs)) as Hgen.
  { induction rs as [|r rs IH]; intros acc; simpl; [lia|].
    rewrite IH, fold_left_overlap_row. lia. }
  rewrite Hgen. lia.
Qed.

Lemma recount_sum (rows cols : Z) (pls : list WordPlacement) :
  recount rows cols pls
  = sum_Z (map (λ r, sum_Z (map
                  (λ c, Z.max 0 (usage_count pls (Z.of_nat r, Z.of_nat c) - 1))
                  (seq 0 (Z.to_nat cols))))
             (seq 0 (Z.to_nat rows))).
Proof.
  unfold recount, grid_cells.
  rewrite sum_Z_bind, (seqZ_from_0 rows), (seqZ_from_0 cols), map_map.
  f_equal. apply map_ext. intros r.
  rewrite sum_Z_bind, map_map. f_equal. apply map_ext.
  intros c. simpl. lia.
Qed.

Lemma usage_count_nil (rc : Z * Z) : usage_count [] rc = 0.
Proof. done. Qed.

Lemma calculateOverlapScore_recount (rows cols : Z) (pls : list WordPlacement) :
  calculateOverlapScore rows cols pls = recount rows cols pls.
Proof.
  rewrite recount_sum. destruct pls as [|p pls].
  - simpl. symmetry. etransitivity; [|apply (sum_Z_zero (seq 0 (Z.to_nat rows)))].
    f_equal. apply map_ext. intros r.
    etransitivity; [|apply (sum_Z_zero (seq 0 (Z.to_nat cols)))].
    f_equal.
  - unfold calculateOverlapScore. rewrite overlap_map_total_sum.
    f_equal. apply map_ext_in. intros r Hr. apply in_seq in Hr.
    f_equal. apply map_ext_in. intros c Hc. apply in_seq in Hc.
    rewrite overlap_map_of_at by lia. done.
Qed.

(** ** The search: unfolding and state *)

Lemma hasTimedOut_best (limit : Z) (elapsed : nat → Z) (st : SearchState) :
  best_result (snd (hasTimedOut limit elapsed st)) = best_result st.
Proof. done. Qed.

Lemma hasTimedOut_flags (limit : Z) (elapsed : nat → Z) (st : SearchState) :
  used_flags (snd (hasTimedOut limit elapsed st)) = used_flags st.
Proof. done. Qed.

Lemma set_used_flag_best (i : nat) (b : bool) (st st' : SearchState) :
  set_used_flag i b st = Some st' → best_result st' = best_result st.
Proof.
  unfold set_used_flag. destruct (used_flags st !! i); [|done].
  by intros [= <-].
Qed.

Lemma set_used_flag_length (i : nat) (b : bool) (st st' : SearchState) :
  set_used_flag i b st = Some st' →
  length (used_flags st') = length (used_flags st).
Proof.
  unfold set_used_flag. destruct (used_flags st !! i); [|done].
  intros [= <-]. simpl. by rewrite length_insert.
Qed.

Lemma set_used_flag_is_Some (i : nat) (b : bool) (st : SearchState) :
  (i < length (used_flags st))%nat → is_Some (set_used_flag i b st).
Proof.
  intros Hi. unfold set_used_flag.
  destruct (lookup_lt_is_Some_2 (used_flags st) i Hi) as [x ->]. eauto.
Qed.

Lemma solvePuzzleRecursively_nil (rows cols limit : Z) (elapsed : nat → Z)
    (srt : ∀ A : Type, (A → A → bool) → list A → list A)
    (words : list string) (g : Grid) (pls : list WordPlacement)
    (st : SearchState) :
  solvePuzzleRecursively rows cols limit elapsed srt words [] g pls st
  = if fst (hasTimedOut limit elapsed st)
    then Some (snd (hasTimedOut limit elapsed st))
    else Some (set_best (record_best rows cols g pls (best_result st))
                 (snd (hasTimedOut limit elapsed st))).
Proof. simpl. by destruct (limit <=? elapsed (clock_reads st)). Qed.

Lemma solvePuzzleRecursively_cons (rows cols limit : Z) (elapsed : nat → Z)
    (srt : ∀ A : Type, (A → A → bool) → list A → list A)
    (words : list string) (i : nat) (rest : list nat) (g : Grid)
    (pls : list WordPlacement) (st : SearchState) :
  solvePuzzleRecursively rows cols limit elapsed srt words (i :: rest) g pls st
  = if fst (hasTimedOut limit elapsed st)
    then Some (snd (hasTimedOut limit elapsed st))
    else
      let st1 := set_best (record_best rows cols g pls (best_result st))
                   (snd (hasTimedOut limit elapsed st)) in
      if Z.of_nat (length pls) + Z.of_nat (length (i :: rest))
         <=? num_placed (best_result st1)
      then Some st1
      else
        current_word ← words !! i;
        candidates ← ranked_candidates rows cols srt g current_word;
        '(returned, st2) ←
          try_candidates limit elapsed
            (solvePuzzleRecursively rows cols limit elapsed srt words rest)
            g current_word i pls candidates st1;
        if (returned : bool) then Some st2
        else if fst (hasTimedOut limit elapsed st2)
             then Some (snd (hasTimedOut limit elapsed st2))
             else solvePuzzleRecursively rows cols limit elapsed srt words rest
                    g pls (snd (hasTimedOut limit elapsed st2)).
Proof.
  simpl. destruct (limit <=? elapsed (clock_reads st)); [done|].
  cbv zeta.
  match goal with |- context [?a <=? num_placed ?b] =>
    destruct (a <=? num_placed b) end; [done|].
  destruct (words !! i) as [w|]; [|done]. simpl.
  destruct (ranked_candidates rows cols srt g w) as [cands|]; [|done]. simpl.
  match goal with |- context [try_candidates ?a ?b ?c ?d ?e ?f ?g ?h ?k] =>
    destruct (try_candidates a b c d e f g h k) as [[ret st2]|] end; [|done].
  simpl. destruct ret; [done|].
  by destruct (limit <=? elapsed (clock_reads st2)).
Qed.

Lemma try_candidates_nil (limit : Z) (elapsed : nat → Z)
    (recur : Grid → list WordPlacement → SearchState → option SearchState)
    (g : Grid) (w : string) (i : nat) (pls : list WordPlacement)
    (st : SearchState) :
  try_candidates limit elapsed recur g w i pls [] st = Some (false, st).
Proof. done. Qed.

Lemma try_candidates_cons (limit : Z) (elapsed : nat → Z)
    (recur : Grid → list WordPlacement → SearchState → option SearchState)
    (g : Grid) (w : string) (i : nat) (pls : list WordPlacement)
    (cand : Candidate) (cands : list Candidate) (st : SearchState) :
  try_candidates limit elapsed recur g w i pls (cand :: cands) st
  = if fst (hasTimedOut limit elapsed st)
    then Some (true, snd (hasTimedOut limit elapsed st))
    else
      new_grid ← placeWord g w (cand_r cand) (cand_c cand)
                   (cand_dr cand) (cand_dc cand);
      st1 ← set_used_flag i true (snd (hasTimedOut limit elapsed st));
      st2 ← recur new_grid
              (pls ++ [mkWordPlacement w (cand_r cand) (cand_c cand)
                         (cand_dr cand) (cand_dc cand)]) st1;
      st3 ← set_used_flag i false st2;
      try_candidates limit elapsed recur g w i pls cands st3.
Proof. simpl. by destruct (limit <=? elapsed (clock_reads st)). Qed.

(** ** The search: a rule for invariants of the best solution

    [Node g pls] describes the grid and the path of a call of
    [solvePuzzleRecursively]; [Inv b] is a property of the best-solution
    record.  If recording a node keeps [Inv], and placing a ranked candidate
    on a node gives a node, then every call started at a node keeps [Inv]. *)

Section SearchInvariant.

Context (rows cols limit : Z) (elapsed : nat → Z).
Context (srt : ∀ A : Type, (A → A → bool) → list A → list A).
Context (words : list string).
Context (Node : Grid → list WordPlacement → Prop).
Context (Inv : PuzzleResult → Prop).

Hypothesis Inv_record : ∀ g pls b,
  Node g pls → Inv b → Inv (record_best rows cols g pls b).

Hypothesis Node_place : ∀ g pls i w cands cand g',
  Node g pls → words !! i = Some w →
  ranked_candidates rows cols srt g w = Some cands → cand ∈ cands →
  placeWord g w (cand_r cand) (cand_c cand) (cand_dr cand) (cand_dc cand)
    = Some g' →
  Node g' (pls ++ [mkWordPlacement w (cand_r cand) (cand_c cand)
                     (cand_dr cand) (cand_dc cand)]).

Lemma try_candidates_invariant
    (recur : Grid → list WordPlacement → SearchState → option SearchState)
    (g : Grid) (w : string) (i : nat) (pls : list WordPlacement)
    (all : list Candidate) :
  (∀ g' pls' st st', Node g' pls' → Inv (best_result st) →
                     recur g' pls' st = Some st' → Inv (best_result st')) →
  Node g pls → words !! i = Some w →
  ranked_candidates rows cols srt g w = Some all →
  ∀ cands st ret st',
    cands ⊆ all → Inv (best_result st) →
    try_candidates limit elapsed recur g w i pls cands st = Some (ret, st') →
    Inv (best_result st').
Proof.
  intros Hrecur Hnode Hw Hall.
  induction cands as [|cand cands IH]; intros st ret st' Hsub Hinv Hrun.
  - rewrite try_candidates_nil in Hrun. by injection Hrun as _ <-.
  - rewrite try_candidates_cons in Hrun.
    destruct (fst (hasTimedOut limit elapsed st)).
    { by injection Hrun as _ <-. }
    destruct (placeWord g w (cand_r cand) (cand_c cand) (cand_dr cand)
                (cand_dc cand)) as [g'|] eqn:Hplace; [|done].
    option_step in Hrun.
    destruct (set_used_flag i true _) as [st1|] eqn:H1; [|done].
    option_step in Hrun.
    destruct (recur g' _ st1) as [st2|] eqn:H2; [|done]. option_step in Hrun.
    destruct (set_used_flag i false st2) as [st3|] eqn:H3; [|done].
    option_step in Hrun.
    apply (IH st3 ret st'); [set_solver| |done].
    rewrite (set_used_flag_best _ _ _ _ H3).
    eapply Hrecur; [|  |exact H2].
    + eapply Node_place; [done..|set_solver|done].
    + by rewrite (set_used_flag_best _ _ _ _ H1).
Qed.

Lemma solvePuzzleRecursively_invariant (rest : list nat) :
  ∀ g pls st st',
    Node g pls → Inv (best_result st) →
    solvePuzzleRecursively rows cols limit elapsed srt words rest g pls st
      = Some st' →
    Inv (best_result st').
Proof.
  induction rest as [|i rest IH]; intros g pls st st' Hnode Hinv Hrun.
  - rewrite solvePuzzleRecursively_nil in Hrun.
    destruct (fst (hasTimedOut limit elapsed st)); injection Hrun as <-;
      [done|]. simpl. by apply Inv_record.
  - rewrite solvePuzzleRecursively_cons in Hrun.
    destruct (fst (hasTimedOut limit elapsed st)).
    { by injection Hrun as <-. }
    cbv zeta in Hrun.
    set (st1 := set_best (record_best rows cols g pls (best_result st))
                  (snd (hasTimedOut limit elapsed st))) in *.
    assert (Inv (best_result st1)) as Hinv1 by (by apply Inv_record).
    destruct (_ <=? num_placed (best_result st1)).
    { by injection Hrun as <-. }
    destruct (words !! i) as [w|] eqn:Hw; [|done]. option_step in Hrun.
    destruct (ranked_candidates rows cols srt g w) as [cands|] eqn:Hc;
      [|done]. option_step in Hrun.
    destruct (try_candidates _ _ _ _ _ _ _ _ _) as [[ret st2]|] eqn:Htry;
      [|done]. option_step in Hrun.
    assert (Inv (best_result st2)) as Hinv2.
    { eapply (try_candidates_invariant _ g w i pls cands); [|done..].
      intros g' pls' s s' Hn Hi Hr. by eapply IH. }
    destruct ret; [by injection Hrun as <-|].
    destruct (fst (hasTimedOut limit elapsed st2)).
    { by injection Hrun as <-. }
    eapply IH; [exact Hnode| |exact Hrun]. done.
Qed.

End SearchInvariant.

(** ** Sorting *)

Lemma candidate_less_swo (rows cols : Z) :
  strict_weak_order (candidate_less rows cols).
Proof.
  split; unfold candidate_less.
  - intros a. rewrite Z.eqb_refl. simpl. apply Z.ltb_irrefl.
  - intros a b c.
    destruct (Z.eqb_spec (cand_overlap a) (cand_overlap b));
      destruct (Z.eqb_spec (cand_overlap b) (cand_overlap c));
      destruct (Z.eqb_spec (cand_overlap a) (cand_overlap c)); simpl;
      rewrite ?Z.ltb_lt; lia.
  - intros a b c.
    destruct (Z.eqb_spec (cand_overlap a) (cand_overlap b));
      destruct (Z.eqb_spec (cand_overlap b) (cand_overlap c));
      destruct (Z.eqb_spec (cand_overlap a) (cand_overlap c)); simpl;
      rewrite ?Z.ltb_ge; lia.
Qed.

Lemma candidate_less_false (rows cols : Z) (a b : Candidate) :
  candidate_less rows cols b a = false ↔ ranked_before rows cols a b.
Proof.
  unfold candidate_less, ranked_before, center_distance.
  destruct (Z.eqb_spec (cand_overlap b) (cand_overlap a)); simpl;
    rewrite Z.ltb_ge; lia.
Qed.

Lemma pair_greater_swo : strict_weak_order pair_greater.
Proof.
  split; unfold pair_greater.
  - intros [a1 a2]. simpl. rewrite !Nat.ltb_irrefl, andb_false_r. done.
  - intros [a1 a2] [b1 b2] [c1 c2]. simpl.
    rewrite !orb_true_iff, !andb_true_iff, !Nat.ltb_lt, !Nat.eqb_eq. lia.
  - intros [a1 a2] [b1 b2] [c1 c2]. simpl.
    rewrite !orb_false_iff, !andb_false_iff, !Nat.ltb_ge, !Nat.eqb_neq. lia.
Qed.

Lemma insert_after_smaller_perm {A : Type} (comp : A → A → bool) (x : A)
    (l : list A) :
  insert_after_smaller comp x l ≡ₚ x :: l.
Proof.
  induction l as [|y l IH]; simpl; [done|].
  destruct (comp y x); [|done]. rewrite IH. apply perm_swap.
Qed.

Lemma insert_before_larger_perm {A : Type} (comp : A → A → bool) (x : A)
    (l : list A) :
  insert_before_larger comp x l ≡ₚ x :: l.
Proof.
  induction l as [|y l IH]; simpl; [done|].
  destruct (comp x y); [done|]. rewrite IH. apply perm_swap.
Qed.

Lemma swo_asym {A : Type} (comp : A → A → bool) (a b : A) :
  strict_weak_order comp → comp a b = true → comp b a = false.
Proof.
  intros Hswo Hab. destruct (comp b a) eqn:Hba; [|done].
  rewrite <- (swo_irrefl comp Hswo a). symmetry.
  by eapply swo_trans.
Qed.

Lemma insert_after_smaller_sorted {A : Type} (comp : A → A → bool) (x : A)
    (l : list A) :
  strict_weak_order comp →
  StronglySorted (λ a b, comp b a = false) l →
  StronglySorted (λ a b, comp b a = false) (insert_after_smaller comp x l).
Proof.
  intros Hswo. induction 1 as [|y l Hsorted IH Hall]; simpl.
  - by repeat constructor.
  - destruct (comp y x) eqn:Hyx.
    + constructor; [done|].
      rewrite (insert_after_smaller_perm comp x l). constructor; [|done].
      by eapply swo_asym.
    + constructor; [by constructor|]. constructor; [done|].
      eapply Forall_impl; [exact Hall|]. intros z Hz. simpl in Hz.
      by eapply swo_incomp.
Qed.

Lemma insert_before_larger_sorted {A : Type} (comp : A → A → bool) (x : A)
    (l : list A) :
  strict_weak_order comp →
  StronglySorted (λ a b, comp b a = false) l →
  StronglySorted (λ a b, comp b a = false) (insert_before_larger comp x l).
Proof.
  intros Hswo. induction 1 as [|y l Hsorted IH Hall]; simpl.
  - by repeat constructor.
  - destruct (comp x y) eqn:Hxy.
    + constructor; [by constructor|]. constructor; [by eapply swo_asym|].
      eapply Forall_impl; [exact Hall|]. intros z Hz. simpl in Hz.
      destruct (comp z x) eqn:Hzx; [|done].
      rewrite <- Hz. symmetry. by eapply swo_trans.
    + constructor; [done|].
      rewrite (insert_before_larger_perm comp x l). by constructor.
Qed.

Lemma stable_sort_spec : std_sort_spec stable_sort.
Proof.
  split; intros A comp l Hswo; unfold stable_sort.
  - induction l as [|x l IH]; simpl; [done|].
    by rewrite insert_after_smaller_perm, IH.
  - induction l as [|x l IH]; simpl; [constructor|].
    by apply insert_after_smaller_sorted.
Qed.

Lemma reversing_sort_spec : std_sort_spec reversing_sort.
Proof.
  split; intros A comp l Hswo; unfold reversing_sort.
  - induction l as [|x l IH]; simpl; [done|].
    by rewrite insert_before_larger_perm, IH.
  - induction l as [|x l IH]; simpl; [constructor|].
    by apply insert_before_larger_sorted.
Qed.

Lemma StronglySorted_weaken {A : Type} (R1 R2 : A → A → Prop) (l : list A) :
  (∀ a b, R1 a b → R2 a b) → StronglySorted R1 l → StronglySorted R2 l.
Proof.
  intros Himp. induction 1 as [|x l Hs IH Hall]; constructor; [done|].
  eapply Forall_impl; [exact Hall|]. intros y. apply Himp.
Qed.

(** ** Candidates *)

Lemma scan_order_elem (rows cols r c dr dc : Z) :
  (r, c, (dr, dc)) ∈ scan_order rows cols ↔
  0 ≤ r < rows ∧ 0 ≤ c < cols ∧ (dr, dc) ∈ DIRECTIONS.
Proof.
  unfold scan_order. rewrite list_elem_of_bind. split.
  - intros (r' & Hin & Hr). apply elem_of_seqZ in Hr.
    apply list_elem_of_bind in Hin as (c' & Hin & Hc). apply elem_of_seqZ in Hc.
    apply list_elem_of_bind in Hin as (dir & Hin & Hd).
    apply list_elem_of_singleton in Hin. injection Hin as -> -> ->.
    repeat split; try lia. done.
  - intros (Hr & Hc & Hd). exists r. split; [|apply elem_of_seqZ; lia].
    apply list_elem_of_bind. exists c. split; [|apply elem_of_seqZ; lia].
    apply list_elem_of_bind. exists (dr, dc). split; [|done].
    by apply list_elem_of_singleton.
Qed.

Lemma DIRECTIONS_NoDup : NoDup DIRECTIONS.
Proof. apply (bool_decide_unpack (NoDup DIRECTIONS)). by vm_compute. Qed.

Lemma DIRECTIONS_nonzero (dr dc : Z) : (dr, dc) ∈ DIRECTIONS → (dr, dc) ≠ (0, 0).
Proof.
  intros Hin [= -> ->]. revert Hin.
  apply (bool_decide_unpack ((0, 0) ∉ DIRECTIONS)). by vm_compute.
Qed.

Lemma scan_order_NoDup (rows cols : Z) : NoDup (scan_order rows cols).
Proof.
  unfold scan_order. apply NoDup_bind; [| |apply NoDup_seqZ].
  - intros r1 r2 [[r c] dir] _ _ H1 H2.
    apply list_elem_of_bind in H1 as (c1 & H1 & _).
    apply list_elem_of_bind in H1 as (d1 & H1 & _).
    apply list_elem_of_singleton in H1.
    apply list_elem_of_bind in H2 as (c2 & H2 & _).
    apply list_elem_of_bind in H2 as (d2 & H2 & _).
    apply list_elem_of_singleton in H2. congruence.
  - intros r _. apply NoDup_bind; [| |apply NoDup_seqZ].
    + intros c1 c2 [[r' c] dir] _ _ H1 H2.
      apply list_elem_of_bind in H1 as (d1 & H1 & _).
      apply list_elem_of_singleton in H1.
      apply list_elem_of_bind in H2 as (d2 & H2 & _).
      apply list_elem_of_singleton in H2. congruence.
    + intros c _. apply NoDup_bind; [| |apply DIRECTIONS_NoDup].
      * intros d1 d2 y _ _ H1 H2.
        apply list_elem_of_singleton in H1.
        apply list_elem_of_singleton in H2. congruence.
      * intros d _. apply NoDup_singleton.
Qed.

Lemma collect_candidates_spec (rows cols : Z) (g : Grid) (w : string) :
  grid_shape rows cols g →
  ∀ todo, ∃ cands,
    collect_candidates rows cols g w todo = Some cands
    ∧ (∀ cand, cand ∈ cands ↔
         (cand_r cand, cand_c cand, (cand_dr cand, cand_dc cand)) ∈ todo
         ∧ canPlaceWord rows cols g w (cand_r cand) (cand_c cand)
             (cand_dr cand) (cand_dc cand) = Some (true, cand_overlap cand))
    ∧ (NoDup todo → NoDup cands).
Proof.
  intros Hshape. induction todo as [|[[r c] [dr dc]] todo IH].
  - exists []. split; [done|]. split; [|constructor].
    intros cand. split; [by intros ?%elem_of_nil|].
    by intros [?%elem_of_nil _].
  - destruct IH as (more & Hmore & Hin & Hnd).
    destruct (canPlaceWord_loop_spec rows cols g w Hshape r c dr dc 0)
      as (ok & n & Hrun & _).
    fold (canPlaceWord rows cols g w r c dr dc) in Hrun.
    simpl. rewrite Hrun, Hmore. simpl.
    destruct ok.
    + exists (mkCandidate r c dr dc n :: more). split; [done|]. split.
      * intros cand. rewrite !elem_of_cons, Hin. split.
        -- intros [->|[? ?]]; simpl; [|by auto]. split; [by left|done].
        -- intros [[Heq|?] Hcan]; [|by auto]. left.
           injection Heq as <- <- <- <-. rewrite Hrun in Hcan.
           injection Hcan as ->. by destruct cand.
      * intros [Hhead Htail]%NoDup_cons. apply NoDup_cons. split; [|by auto].
        intros [Hmem _]%Hin. by simpl in Hmem.
    + exists more. split; [done|]. split; [|intros [_ ?]%NoDup_cons; by auto].
      intros cand. rewrite elem_of_cons, Hin. split; [by intros [? ?]; auto|].
      intros [[Heq|?] Hcan]; [|done].
      injection Heq as <- <- <- <-. rewrite Hrun in Hcan. done.
Qed.

Lemma ranked_candidates_spec (rows cols : Z)
    (srt : ∀ A : Type, (A → A → bool) → list A → list A)
    (g : Grid) (w : string) :
  grid_shape rows cols g → std_sort_spec srt →
  ∃ enum cands,
    collect_candidates rows cols g w (scan_order rows cols) = Some enum
    ∧ ranked_candidates rows cols srt g w = Some cands
    ∧ cands ≡ₚ enum
    ∧ NoDup cands
    ∧ (∀ cand, cand ∈ cands ↔ feasible_candidate rows cols g w cand)
    ∧ StronglySorted (ranked_before rows cols) cands.
Proof.
  intros Hshape Hsrt.
  destruct (collect_candidates_spec rows cols g w Hshape (scan_order rows cols))
    as (enum & Henum & Hin & Hnd).
  pose proof (std_sort_perm srt Hsrt Candidate (candidate_less rows cols) enum
                (candidate_less_swo rows cols)) as Hperm.
  exists enum, (srt Candidate (candidate_less rows cols) enum).
  unfold ranked_candidates. rewrite Henum. simpl.
  split; [done|]. split; [done|]. split; [done|]. split; [|split].
  - rewrite Hperm. apply Hnd, scan_order_NoDup.
  - intros cand. rewrite Hperm, Hin, scan_order_elem.
    unfold feasible_candidate. tauto.
  - eapply StronglySorted_weaken;
      [|apply (std_sort_sorted srt Hsrt), candidate_less_swo].
    intros a b. simpl. apply candidate_less_false.
Qed.

(** ** The grid of a search node *)

Lemma blank_grid_shape (rows cols : Z) : grid_shape rows cols (blank_grid rows cols).
Proof.
  split; [apply length_replicate|].
  apply Forall_forall. intros line Hin.
  apply elem_of_replicate in Hin as [-> _]. apply length_replicate.
Qed.

Lemma blank_grid_at (rows cols : Z) (rc : Z * Z) (e : ascii) :
  grid_at (blank_grid rows cols) rc = Some e → e = empty_cell.
Proof.
  unfold grid_at. intros (_ & _ & line & Hl & He)%grid_get_Some.
  apply lookup_replicate in Hl as [-> _].
  by apply lookup_replicate in He as [-> _].
Qed.

Lemma agrees_conflict_free (rows cols : Z) (g : Grid) (pls : list WordPlacement) :
  agrees rows cols g pls → conflict_free rows cols pls.
Proof.
  intros Hagree. split.
  - intros p k Hp Hk. apply string_get_is_Some in Hk as [ch Hch].
    by destruct (Hagree p k ch Hp Hch).
  - intros p q j k a b Hp Hq Ha Hb Hcell.
    destruct (Hagree p j a Hp Ha) as [_ Hga].
    destruct (Hagree q k b Hq Hb) as [_ Hgb].
    rewrite Hcell in Hga. congruence.
Qed.

Lemma covers_dec (p : WordPlacement) (rc : Z * Z) :
  {covers p rc} + {¬ covers p rc}.
Proof.
  destruct (decide (Exists (λ k, placement_cell p k = rc)
                      (seq 0 (String.length (word p))))) as [Hex|Hnex].
  - left. apply Exists_exists in Hex as (k & Hk & Heq).
    exists k. split; [|done]. apply elem_of_seq in Hk. lia.
  - right. intros (k & Hk & Heq). apply Hnex, Exists_exists.
    exists k. split; [|done]. apply elem_of_seq. lia.
Qed.

Section PlacedNode.

Context (rows cols : Z).
Context (srt : ∀ A : Type, (A → A → bool) → list A → list A).
Context (words : list string).
Hypothesis srt_spec : std_sort_spec srt.
Hypothesis words_clean : Forall no_sentinel words.

Local Abbreviation placed_node := (placed_node rows cols).
Local Abbreviation placed_best := (placed_best rows cols).

Lemma placed_node_blank : placed_node (blank_grid rows cols) [].
Proof.
  split; [apply blank_grid_shape|]. split; [|split; [|constructor]].
  - intros p k ch Hp. by apply elem_of_nil in Hp.
  - intros rc e He _. by eapply blank_grid_at.
Qed.

Lemma placed_best_empty : placed_best empty_result.
Proof.
  split.
  - intros p k ch Hp. by apply elem_of_nil in Hp.
  - intros [r c] e He. unfold grid_at, grid_get in He. simpl in He.
    destruct ((0 <=? r) && (0 <=? c)); done.
Qed.

Lemma placed_best_record (g : Grid) (pls : list WordPlacement)
    (b : PuzzleResult) :
  placed_node g pls → placed_best b →
  placed_best (record_best rows cols g pls b).
Proof.
  intros (_ & Hagree & Hblank & _) Hb. unfold record_best.
  destruct (_ || _); [|done]. by split.
Qed.

Lemma placed_node_place (g : Grid) (pls : list WordPlacement) (i : nat)
    (w : string) (cands : list Candidate) (cand : Candidate) (g' : Grid) :
  placed_node g pls → words !! i = Some w →
  ranked_candidates rows cols srt g w = Some cands → cand ∈ cands →
  placeWord g w (cand_r cand) (cand_c cand) (cand_dr cand) (cand_dc cand)
    = Some g' →
  placed_node g' (pls ++ [mkWordPlacement w (cand_r cand) (cand_c cand)
                            (cand_dr cand) (cand_dc cand)]).
Proof.
  intros (Hshape & Hagree & Hblank & Hclean) Hw Hranked Hcand Hplace.
  assert (no_sentinel w) as Hwclean.
  { rewrite Forall_forall in words_clean. apply words_clean.
    by eapply list_elem_of_lookup_2. }
  destruct (ranked_candidates_spec rows cols srt g w Hshape srt_spec)
    as (enum & cands' & _ & Hranked' & _ & _ & Hfeas & _).
  rewrite Hranked in Hranked'. injection Hranked' as <-.
  apply Hfeas in Hcand as (_ & _ & Hdir & Hcan).
  apply DIRECTIONS_nonzero in Hdir.
  apply canPlaceWord_fits in Hcan as [Hfit _]; [|done].
  destruct (placeWord_spec w g (cand_r cand) (cand_c cand) (cand_dr cand)
              (cand_dc cand) (placement_fits_present _ _ _ _ _ _ _ _ Hfit))
    as (g'' & Hplace' & Hframe & Hput & Hshape').
  rewrite Hplace in Hplace'. injection Hplace' as <-.
  specialize (Hput Hdir).
  set (pnew := mkWordPlacement w (cand_r cand) (cand_c cand) (cand_dr cand)
                 (cand_dc cand)).
  assert (∀ rc, ¬ covers pnew rc → grid_at g' rc = grid_at g rc) as Hoff.
  { intros rc Hnot. apply Hframe. intros k Hk Heq. apply Hnot. by exists k. }
  split; [by apply Hshape'|]. split; [|split].
  - intros p k ch [Hp|Hp%list_elem_of_singleton]%elem_of_app Hch.
    + destruct (Hagree p k ch Hp Hch) as [Hb Hg]. split; [done|].
      destruct (covers_dec pnew (placement_cell p k))
        as [(j & Hj & Heq)|Hnot].
      * apply string_get_is_Some in Hj as [x Hx]. simpl in Hx.
        unfold placement_cell at 1 in Heq. simpl in Heq.
        rewrite <- Heq, (Hput j x Hx).
        destruct (Hfit j x Hx) as [_ [Hdot|Hsame]].
        -- rewrite Heq, Hg in Hdot. injection Hdot as ->.
           rewrite Forall_forall in Hclean. by destruct (Hclean p Hp k).
        -- rewrite Heq, Hg in Hsame. done.
      * by rewrite Hoff.
    + subst p. simpl in Hch. split; [by apply (Hfit k ch)|].
      by apply Hput.
  - intros rc e He Hnot. apply (Hblank rc e).
    + rewrite <- Hoff; [done|]. intros Hcov. apply Hnot. exists pnew.
      split; [|done]. apply elem_of_app. right. by apply list_elem_of_singleton.
    + intros (p & Hp & Hcov). apply Hnot. exists p. split; [|done].
      apply elem_of_app. by left.
  - apply Forall_app. split; [done|]. by repeat constructor.
Qed.

Lemma solvePuzzleRecursively_placed (limit : Z) (elapsed : nat → Z)
    (rest : list nat) (g : Grid) (pls : list WordPlacement)
    (st st' : SearchState) :
  placed_node g pls → placed_best (best_result st) →
  solvePuzzleRecursively rows cols limit elapsed srt words rest g pls st
    = Some st' →
  placed_best (best_result st').
Proof.
  apply (solvePuzzleRecursively_invariant rows cols limit elapsed srt words
           placed_node placed_best).
  - apply placed_best_record.
  - apply placed_node_place.
Qed.

End PlacedNode.

(** ** The word order *)

Lemma word_order_tmp_spec (first_pass : bool) (required_flags : list bool)
    (words : list string) (ws : list string) :
  ∀ i, (i + length ws ≤ length required_flags)%nat →
       (∀ j w, ws !! j = Some w → words !! (i + j)%nat = Some w) →
       ∃ tmp, word_order_tmp first_pass required_flags ws i = Some tmp
         ∧ map snd tmp
           = filter (λ j, required_flags !! j = Some first_pass)
               (seq i (length ws))
         ∧ Forall (λ a, fst a = word_length words (snd a)) tmp.
Proof.
  induction ws as [|w ws IH]; intros i Hlen Hsuffix.
  - exists []. by repeat split.
  - simpl in Hlen.
    destruct (lookup_lt_is_Some_2 required_flags i) as [flag Hflag]; [lia|].
    destruct (IH (S i)) as (more & Hmore & Hsnd & Hlens); [lia| |].
    { intros j x Hx. replace (S i + j)%nat with (i + S j)%nat by lia.
      by apply Hsuffix. }
    simpl. rewrite Hflag, Hmore. simpl.
    assert (words !! i = Some w) as Hw.
    { rewrite <- (Nat.add_0_r i). by apply Hsuffix. }
    rewrite filter_cons.
    destruct (decide (required_flags !! i = Some first_pass)) as [Heq|Hne].
    + rewrite Hflag in Heq. injection Heq as ->. rewrite eqb_reflx.
      eexists. split; [done|]. split; [simpl; by rewrite Hsnd|].
      constructor; [|done]. simpl. unfold word_length. by rewrite Hw.
    + destruct (Bool.eqb first_pass flag) eqn:Hb.
      { apply eqb_prop in Hb. subst flag. done. }
      by exists more.
Qed.

Lemma StronglySorted_map {A B : Type} (R : A → A → Prop) (R' : B → B → Prop)
    (f : A → B) (l : list A) :
  (∀ a b, a ∈ l → b ∈ l → R a b → R' (f a) (f b)) →
  StronglySorted R l → StronglySorted R' (map f l).
Proof.
  intros Himp Hs. induction Hs as [|x l Hs IH Hall]; simpl; [constructor|].
  constructor.
  - apply IH. intros a b Ha Hb. apply Himp; by right.
  - apply Forall_forall. intros y Hy. apply list_elem_of_In, in_map_iff in Hy.
    destruct Hy as (b & <- & Hb). apply list_elem_of_In in Hb.
    apply Himp; [by left|by right|].
    rewrite Forall_forall in Hall. by apply Hall.
Qed.

Lemma sorted_pass_spec
    (srt : ∀ A : Type, (A → A → bool) → list A → list A)
    (words : list string) (tmp : list (nat * nat)) :
  std_sort_spec srt →
  Forall (λ a, fst a = word_length words (snd a)) tmp →
  map snd (srt _ pair_greater tmp) ≡ₚ map snd tmp
  ∧ StronglySorted (longer_first words) (map snd (srt _ pair_greater tmp)).
Proof.
  intros Hsrt Hlens.
  pose proof (std_sort_perm srt Hsrt _ pair_greater tmp pair_greater_swo)
    as Hperm.
  split; [by apply Permutation_map|].
  eapply StronglySorted_map;
    [|apply (std_sort_sorted srt Hsrt), pair_greater_swo].
  intros a b Ha Hb Hab. simpl in Hab.
  rewrite Hperm in Ha, Hb. rewrite Forall_forall in Hlens.
  unfold longer_first. rewrite <- (Hlens a Ha), <- (Hlens b Hb).
  unfold pair_greater in Hab.
  apply orb_false_iff in Hab as [Hlt _]. apply Nat.ltb_ge in Hlt. done.
Qed.

Lemma word_order_of_spec
    (srt : ∀ A : Type, (A → A → bool) → list A → list A)
    (words : list string) (required_flags : list bool) :
  std_sort_spec srt → length required_flags = length words →
  ∃ req opt,
    word_order_of srt words required_flags = Some (req ++ opt)
    ∧ req ≡ₚ filter (λ i, required_flags !! i = Some true)
               (seq 0 (length words))
    ∧ opt ≡ₚ filter (λ i, required_flags !! i = Some false)
               (seq 0 (length words))
    ∧ StronglySorted (longer_first words) req
    ∧ StronglySorted (longer_first words) opt.
Proof.
  intros Hsrt Hlen.
  destruct (word_order_tmp_spec true required_flags words words 0%nat)
    as (tmp0 & Hrun0 & Hsnd0 & Hlens0); [lia|done|].
  destruct (word_order_tmp_spec false required_flags words words 0%nat)
    as (tmp1 & Hrun1 & Hsnd1 & Hlens1); [lia|done|].
  destruct (sorted_pass_spec srt words tmp0 Hsrt Hlens0) as [Hp0 Hs0].
  destruct (sorted_pass_spec srt words tmp1 Hsrt Hlens1) as [Hp1 Hs1].
  eexists _, _. unfold word_order_of. rewrite Hrun0, Hrun1. simpl.
  split; [done|]. rewrite <- Hsnd0, <- Hsnd1. by repeat split.
Qed.

Lemma word_order_of_is_Some
    (srt : ∀ A : Type, (A → A → bool) → list A → list A)
    (words : list string) (required_flags : list bool) :
  length required_flags = length words →
  is_Some (word_order_of srt words required_flags).
Proof.
  intros Hlen.
  destruct (word_order_tmp_spec true required_flags words words 0%nat)
    as (tmp0 & Hrun0 & _); [lia|done|].
  destruct (word_order_tmp_spec false required_flags words words 0%nat)
    as (tmp1 & Hrun1 & _); [lia|done|].
  unfold word_order_of. rewrite Hrun0, Hrun1. simpl. eauto.
Qed.

(** ** The order of solutions *)

Lemma lex_lt_trans (a b c : Z * Z) : lex_lt a b → lex_lt b c → lex_lt a c.
Proof. unfold lex_lt. lia. Qed.

Lemma lex_lt_irrefl (a : Z * Z) : ¬ lex_lt a a.
Proof. unfold lex_lt. lia. Qed.

Lemma record_best_test (rows cols : Z) (pls : list WordPlacement)
    (best : PuzzleResult) :
  (num_placed best <? Z.of_nat (length pls))
  || ((Z.of_nat (length pls) =? num_placed best)
      && (total_overlap_score best <? calculateOverlapScore rows cols pls))
  = true
  ↔ lex_lt (rank best)
      (Z.of_nat (length pls), calculateOverlapScore rows cols pls).
Proof.
  unfold lex_lt, rank. simpl.
  rewrite orb_true_iff, andb_true_iff, !Z.ltb_lt, Z.eqb_eq. lia.
Qed.

Lemma record_best_replaced (rows cols : Z) (g : Grid)
    (pls : list WordPlacement) (best : PuzzleResult) :
  lex_lt (rank best) (Z.of_nat (length pls), calculateOverlapScore rows cols pls) →
  record_best rows cols g pls best
  = {| grid := g; placements := pls;
       placed_words := placed_words best;
       unplaced_words := unplaced_words best;
       num_placed := Z.of_nat (length pls);
       total_overlap_score := calculateOverlapScore rows cols pls |}.
Proof.
  intros Hlt%record_best_test. unfold record_best. by rewrite Hlt.
Qed.

Lemma record_best_kept (rows cols : Z) (g : Grid)
    (pls : list WordPlacement) (best : PuzzleResult) :
  ¬ lex_lt (rank best) (Z.of_nat (length pls), calculateOverlapScore rows cols pls) →
  record_best rows cols g pls best = best.
Proof.
  intros Hnlt. unfold record_best.
  destruct (_ || _) eqn:Htest; [|done].
  by apply record_best_test in Htest.
Qed.

Lemma lex_lt_dec (a b : Z * Z) : {lex_lt a b} + {¬ lex_lt a b}.
Proof.
  destruct (decide (fst a < fst b ∨ (fst a = fst b ∧ snd a < snd b)));
    [by left|by right].
Qed.

Lemma record_best_rank (rows cols : Z) (g : Grid)
    (pls : list WordPlacement) (best : PuzzleResult) :
  record_best rows cols g pls best = best
  ∨ lex_lt (rank best) (rank (record_best rows cols g pls best)).
Proof.
  destruct (lex_lt_dec (rank best)
              (Z.of_nat (length pls), calculateOverlapScore rows cols pls))
    as [Hlt|Hnlt].
  - right. by rewrite record_best_replaced.
  - left. by apply record_best_kept.
Qed.

Lemma solvePuzzleRecursively_rank (rows cols limit : Z) (elapsed : nat → Z)
    (srt : ∀ A : Type, (A → A → bool) → list A → list A)
    (words : list string) (rest : list nat) (g : Grid)
    (pls : list WordPlacement) (st st' : SearchState) :
  solvePuzzleRecursively rows cols limit elapsed srt words rest g pls st
    = Some st' →
  best_result st' = best_result st
  ∨ lex_lt (rank (best_result st)) (rank (best_result st')).
Proof.
  intros Hrun.
  apply (solvePuzzleRecursively_invariant rows cols limit elapsed srt words
           (λ _ _, True)
           (λ b, b = best_result st ∨ lex_lt (rank (best_result st)) (rank b))
           ) with (rest := rest) (g := g) (pls := pls) (st := st);
    [| |done|by left|done].
  - intros g0 pls0 b _ Hb.
    destruct (record_best_rank rows cols g0 pls0 b) as [->|Hlt]; [done|].
    right. destruct Hb as [->|Hb]; [done|]. by eapply lex_lt_trans.
  - done.
Qed.

(** ** What the search records *)

Lemma solvePuzzleRecursively_counters (rows cols limit : Z) (elapsed : nat → Z)
    (srt : ∀ A : Type, (A → A → bool) → list A → list A)
    (words : list string) (rest : list nat) (g : Grid)
    (pls : list WordPlacement) (st st' : SearchState) :
  num_placed (best_result st) = Z.of_nat (length (placements (best_result st))) →
  total_overlap_score (best_result st)
    = calculateOverlapScore rows cols (placements (best_result st)) →
  solvePuzzleRecursively rows cols limit elapsed srt words rest g pls st
    = Some st' →
  num_placed (best_result st') = Z.of_nat (length (placements (best_result st')))
  ∧ total_overlap_score (best_result st')
    = calculateOverlapScore rows cols (placements (best_result st')).
Proof.
  intros Hn Hs Hrun.
  apply (solvePuzzleRecursively_invariant rows cols limit elapsed srt words
           (λ _ _, True)
           (λ b, num_placed b = Z.of_nat (length (placements b))
                 ∧ total_overlap_score b
                   = calculateOverlapScore rows cols (placements b)))
    with (rest := rest) (g := g) (pls := pls) (st := st);
    [| |done|done|done].
  - intros g0 pls0 b _ Hb. unfold record_best. by destruct (_ || _).
  - done.
Qed.

Lemma solvePuzzleRecursively_word_lists (rows cols limit : Z)
    (elapsed : nat → Z)
    (srt : ∀ A : Type, (A → A → bool) → list A → list A)
    (words : list string) (rest : list nat) (g : Grid)
    (pls : list WordPlacement) (st st' : SearchState) :
  solvePuzzleRecursively rows cols limit elapsed srt words rest g pls st
    = Some st' →
  placed_words (best_result st') = placed_words (best_result st)
  ∧ unplaced_words (best_result st') = unplaced_words (best_result st).
Proof.
  intros Hrun.
  apply (solvePuzzleRecursively_invariant rows cols limit elapsed srt words
           (λ _ _, True)
           (λ b, placed_words b = placed_words (best_result st)
                 ∧ unplaced_words b = unplaced_words (best_result st)))
    with (rest := rest) (g := g) (pls := pls) (st := st);
    [| |done|done|done].
  - intros g0 pls0 b _ Hb. unfold record_best. by destruct (_ || _).
  - done.
Qed.

(** ** The random fill *)

Lemma grid_cells_elem (rows cols r c : Z) :
  (r, c) ∈ grid_cells rows cols ↔ 0 ≤ r < rows ∧ 0 ≤ c < cols.
Proof.
  unfold grid_cells. rewrite list_elem_of_bind. split.
  - intros (r' & Hin & Hr). apply elem_of_seqZ in Hr.
    apply list_elem_of_bind in Hin as (c' & Hin & Hc). apply elem_of_seqZ in Hc.
    apply list_elem_of_singleton in Hin. injection Hin as -> ->. lia.
  - intros [Hr Hc]. exists r. split; [|apply elem_of_seqZ; lia].
    apply list_elem_of_bind. exists c. split; [|apply elem_of_seqZ; lia].
    by apply list_elem_of_singleton.
Qed.

Lemma fill_random_spec (rand_draw : nat → Z) (cells : list (Z * Z)) :
  ∀ (g : Grid) (k : nat) (g' : Grid),
    fill_random rand_draw g cells k = Some g' →
    (∀ rc, grid_at g' rc = grid_at g rc
           ∨ (grid_at g rc = Some empty_cell ∧ rc ∈ cells
              ∧ ∃ j, grid_at g' rc = Some (letter_of_draw (rand_draw j))))
    ∧ (∀ rc, rc ∈ cells → grid_at g rc = Some empty_cell →
             ∃ j, grid_at g' rc = Some (letter_of_draw (rand_draw j)))
    ∧ (∀ rc, rc ∈ cells → is_Some (grid_at g rc)).
Proof.
  induction cells as [|[r c] cells IH]; intros g k g' Hrun.
  - simpl in Hrun. injection Hrun as <-. split; [by left|].
    split; by intros rc ?%elem_of_nil.
  - simpl in Hrun. destruct (grid_get g r c) as [e|] eqn:He; [|done].
    option_step in Hrun.
    destruct (Ascii.eqb_spec e empty_cell) as [->|Hne].
    + destruct (grid_set g r c (letter_of_draw (rand_draw k))) as [g1|] eqn:Hset;
        [|done].
      option_step in Hrun.
      destruct (IH g1 (S k) g' Hrun) as (H1 & H2 & H3).
      assert (∀ rc, rc ≠ (r, c) → grid_at g1 rc = grid_at g rc) as Hother.
      { intros [r' c'] Hrc. by eapply grid_set_other. }
      assert (grid_at g1 (r, c) = Some (letter_of_draw (rand_draw k))) as Hsame.
      { by eapply grid_set_same. }
      assert (∀ rc, grid_at g' rc = grid_at g rc
                    ∨ (grid_at g rc = Some empty_cell ∧ rc ∈ (r, c) :: cells
                       ∧ ∃ j, grid_at g' rc
                              = Some (letter_of_draw (rand_draw j)))) as Hall.
      { intros rc. destruct (decide (rc = (r, c))) as [->|Hrc].
        - right. split; [done|]. split; [by left|].
          destruct (H1 (r, c)) as [Heq|(_ & _ & j & Hj)]; [|by eauto].
          exists k. by rewrite Heq.
        - rewrite <- (Hother rc Hrc).
          destruct (H1 rc) as [Heq|(Hd & Hin & Hj)]; [by left|].
          right. split; [done|]. split; [by right|done]. }
      split; [done|]. split.
      * intros rc Hin Hdot.
        destruct (Hall rc) as [Heq|(_ & _ & Hj)]; [|done].
        destruct (decide (rc = (r, c))) as [->|Hrc].
        -- destruct (H1 (r, c)) as [Heq1|(_ & _ & Hj)]; [|done].
           exists k. by rewrite Heq1.
        -- apply H2; [|by rewrite Hother].
           apply elem_of_cons in Hin as [?|?]; done.
      * intros rc [->|Hin]%elem_of_cons; [by change (is_Some (grid_get g r c)); rewrite He|].
        destruct (decide (rc = (r, c))) as [->|Hrc]; [by change (is_Some (grid_get g r c)); rewrite He|].
        rewrite <- (Hother rc Hrc). by apply H3.
    + destruct (IH g k g' Hrun) as (H1 & H2 & H3). split; [|split].
      * intros rc. destruct (H1 rc) as [Heq|(Hd & Hin & Hj)]; [by left|].
        right. split; [done|]. split; [by right|done].
      * intros rc [->|Hin]%elem_of_cons Hdot; [|by apply H2].
        unfold grid_at in Hdot. simpl in Hdot. congruence.
      * intros rc [->|Hin]%elem_of_cons; [by change (is_Some (grid_get g r c)); rewrite He|by apply H3].
Qed.

Lemma generateWordSearch_Some (elapsed : nat → Z) (rand_draw : nat → Z)
    (srt : ∀ A : Type, (A → A → bool) → list A → list A)
    (words : list string) (required_flags : list bool)
    (rows cols runtime_ms : Z) (res : PuzzleResult) :
  generateWordSearch elapsed rand_draw srt words required_flags
    rows cols runtime_ms = Some res →
  ∃ st filled,
    search_result elapsed srt words required_flags rows cols runtime_ms = Some st
    ∧ fill_random rand_draw (grid (best_result st)) (grid_cells rows cols) 0
      = Some filled
    ∧ res = {| grid := filled;
               placements := placements (best_result st);
               placed_words :=
                 placed_words (best_result st)
                 ++ filter (λ w, w ∈ placed_set_of (placements (best_result st)))
                      words;
               unplaced_words :=
                 unplaced_words (best_result st)
                 ++ filter (λ w, w ∉ placed_set_of (placements (best_result st)))
                      words;
               num_placed := num_placed (best_result st);
               total_overlap_score := total_overlap_score (best_result st) |}.
Proof.
  unfold generateWordSearch.
  destruct (search_result _ _ _ _ _ _ _) as [st|]; [|done].
  option_step.
  destruct (fill_random _ _ _ _) as [filled|] eqn:Hfill; [|done].
  option_step. intros [= <-]. exists st, filled.
  split; [reflexivity|]. split; [exact Hfill|reflexivity].
Qed.

Lemma search_result_Some (elapsed : nat → Z)
    (srt : ∀ A : Type, (A → A → bool) → list A → list A)
    (words : list string) (required_flags : list bool)
    (rows cols runtime_ms : Z) (st : SearchState) :
  search_result elapsed srt words required_flags rows cols runtime_ms = Some st →
  0 ≤ rows ∧ 0 ≤ cols
  ∧ ∃ word_order,
      word_order_of srt words required_flags = Some word_order
      ∧ solvePuzzleRecursively rows cols runtime_ms elapsed srt words word_order
          (blank_grid rows cols) [] (initial_state words) = Some st.
Proof.
  unfold search_result.
  destruct (rows <? 0) eqn:Hr; [done|]. destruct (cols <? 0) eqn:Hc; [done|].
  simpl. destruct (word_order_of srt words required_flags) as [order|]; [|done].
  option_step. intros Hrun.
  apply Z.ltb_ge in Hr, Hc. repeat split; [done..|]. by exists order.
Qed.

(** ** The search returns

    On a grid of the configured shape no index leaves its container, and
    the recursion ends with the word order. *)

Lemma try_candidates_total (rows cols limit : Z) (elapsed : nat → Z)
    (recur : Grid → list WordPlacement → SearchState → option SearchState)
    (g : Grid) (w : string) (i : nat) (pls : list WordPlacement) (n : nat) :
  (∀ g' pls' st, grid_shape rows cols g' → length (used_flags st) = n →
     ∃ st', recur g' pls' st = Some st' ∧ length (used_flags st') = n) →
  grid_shape rows cols g → (i < n)%nat →
  ∀ cands st,
    Forall (feasible_candidate rows cols g w) cands →
    length (used_flags st) = n →
    ∃ ret st', try_candidates limit elapsed recur g w i pls cands st
               = Some (ret, st')
               ∧ length (used_flags st') = n.
Proof.
  intros Hrecur Hshape Hi.
  induction cands as [|cand cands IH]; intros st Hfeas Hlen.
  - exists false, st. by rewrite try_candidates_nil.
  - rewrite try_candidates_cons.
    destruct (fst (hasTimedOut limit elapsed st)); [by eauto|].
    apply Forall_cons in Hfeas as [(_ & _ & _ & Hcan) Hfeas].
    apply canPlaceWord_fits in Hcan as [Hfit _]; [|done].
    destruct (placeWord_spec w g (cand_r cand) (cand_c cand) (cand_dr cand)
                (cand_dc cand) (placement_fits_present _ _ _ _ _ _ _ _ Hfit))
      as (g' & -> & _ & _ & Hshape').
    option_step.
    destruct (set_used_flag_is_Some i true (snd (hasTimedOut limit elapsed st)))
      as [st1 H1]; [by rewrite hasTimedOut_flags, Hlen|].
    rewrite H1. option_step.
    pose proof (set_used_flag_length _ _ _ _ H1) as Hlen1.
    rewrite hasTimedOut_flags, Hlen in Hlen1.
    destruct (Hrecur g'
                (pls ++ [mkWordPlacement w (cand_r cand) (cand_c cand)
                           (cand_dr cand) (cand_dc cand)]) st1)
      as (st2 & -> & Hlen2); [by apply Hshape'|done|].
    option_step.
    destruct (set_used_flag_is_Some i false st2) as [st3 H3]; [lia|].
    rewrite H3. option_step.
    apply IH; [done|]. by rewrite (set_used_flag_length _ _ _ _ H3).
Qed.

Lemma solvePuzzleRecursively_total (rows cols limit : Z) (elapsed : nat → Z)
    (srt : ∀ A : Type, (A → A → bool) → list A → list A)
    (words : list string) :
  std_sort_spec srt →
  ∀ rest g pls st,
    Forall (λ i, (i < length words)%nat) rest →
    grid_shape rows cols g →
    length (used_flags st) = length words →
    ∃ st', solvePuzzleRecursively rows cols limit elapsed srt words rest g pls st
           = Some st'
           ∧ length (used_flags st') = length words.
Proof.
  intros Hsrt. induction rest as [|i rest IH]; intros g pls st Hidx Hshape Hlen.
  - rewrite solvePuzzleRecursively_nil.
    destruct (fst (hasTimedOut limit elapsed st)); eauto.
  - rewrite solvePuzzleRecursively_cons.
    destruct (fst (hasTimedOut limit elapsed st)); [by eauto|].
    cbv zeta. destruct (_ <=? _); [by eauto|].
    apply Forall_cons in Hidx as [Hi Hidx].
    destruct (lookup_lt_is_Some_2 words i Hi) as [w ->].
    option_step.
    destruct (ranked_candidates_spec rows cols srt g w Hshape Hsrt)
      as (enum & cands & _ & -> & _ & _ & Hfeas & _).
    option_step.
    destruct (try_candidates_total rows cols limit elapsed
                (solvePuzzleRecursively rows cols limit elapsed srt words rest)
                g w i pls (length words)) with
      (cands := cands)
      (st := set_best (record_best rows cols g pls (best_result st))
               (snd (hasTimedOut limit elapsed st)))
      as (ret & st2 & -> & Hlen2); [|done|done| |done|].
    + intros g' pls' s Hs Hl. by apply IH.
    + apply Forall_forall. intros cand Hc. by apply Hfeas.
    + option_step. destruct ret; [by eauto|].
      destruct (fst (hasTimedOut limit elapsed st2)); [by eauto|].
      by apply IH.
Qed.

Lemma word_order_of_indices
    (srt : ∀ A : Type, (A → A → bool) → list A → list A)
    (words : list string) (required_flags : list bool) (order : list nat) :
  std_sort_spec srt → length required_flags = length words →
  word_order_of srt words required_flags = Some order →
  Forall (λ i, (i < length words)%nat) order.
Proof.
  intros Hsrt Hlen Horder.
  destruct (word_order_of_spec srt words required_flags Hsrt Hlen)
    as (req & opt & Hrun & Hreq & Hopt & _).
  rewrite Horder in Hrun. injection Hrun as ->.
  apply Forall_app. split; apply Forall_forall; intros i Hin.
  - rewrite Hreq in Hin. apply list_elem_of_filter in Hin as [_ Hin].
    apply elem_of_seq in Hin. lia.
  - rewrite Hopt in Hin. apply list_elem_of_filter in Hin as [_ Hin].
    apply elem_of_seq in Hin. lia.
Qed.

Lemma search_result_total (elapsed : nat → Z)
    (srt : ∀ A : Type, (A → A → bool) → list A → list A)
    (words : list string) (required_flags : list bool)
    (rows cols runtime_ms : Z) :
  std_sort_spec srt → length required_flags = length words →
  0 ≤ rows → 0 ≤ cols →
  is_Some (search_result elapsed srt words required_flags rows cols runtime_ms).
Proof.
  intros Hsrt Hlen Hr Hc. unfold search_result.
  rewrite (proj2 (Z.ltb_ge rows 0) Hr), (proj2 (Z.ltb_ge cols 0) Hc). simpl.
  destruct (word_order_of_is_Some srt words required_flags Hlen)
    as [order Horder].
  rewrite Horder. option_step.
  destruct (solvePuzzleRecursively_total rows cols runtime_ms elapsed srt words
              Hsrt order (blank_grid rows cols) [] (initial_state words))
    as (st & Hrun & _).
  - by eapply word_order_of_indices.
  - apply blank_grid_shape.
  - simpl. apply length_replicate.
  - rewrite Hrun. eauto.
Qed.

(** ** The result of the search inside [generateWordSearch] *)

Lemma search_result_placed (elapsed : nat → Z)
    (srt : ∀ A : Type, (A → A → bool) → list A → list A)
    (words : list string) (required_flags : list bool)
    (rows cols runtime_ms : Z) (st : SearchState) :
  std_sort_spec srt → Forall no_sentinel words →
  search_result elapsed srt words required_flags rows cols runtime_ms = Some st →
  placed_best rows cols (best_result st).
Proof.
  intros Hsrt Hclean (_ & _ & order & _ & Hrun)%search_result_Some.
  eapply solvePuzzleRecursively_placed; [done|done| | |exact Hrun].
  - apply placed_node_blank.
  - apply placed_best_empty.
Qed.

Lemma search_result_counters (elapsed : nat → Z)
    (srt : ∀ A : Type, (A → A → bool) → list A → list A)
    (words : list string) (required_flags : list bool)
    (rows cols runtime_ms : Z) (st : SearchState) :
  search_result elapsed srt words required_flags rows cols runtime_ms = Some st →
  num_placed (best_result st) = Z.of_nat (length (placements (best_result st)))
  ∧ total_overlap_score (best_result st)
    = calculateOverlapScore rows cols (placements (best_result st)).
Proof.
  intros (_ & _ & order & _ & Hrun)%search_result_Some.
  by eapply solvePuzzleRecursively_counters; [| |exact Hrun].
Qed.

Lemma search_result_word_lists (elapsed : nat → Z)
    (srt : ∀ A : Type, (A → A → bool) → list A → list A)
    (words : list string) (required_flags : list bool)
    (rows cols runtime_ms : Z) (st : SearchState) :
  search_result elapsed srt words required_flags rows cols runtime_ms = Some st →
  placed_words (best_result st) = [] ∧ unplaced_words (best_result st) = [].
Proof.
  intros (_ & _ & order & _ & Hrun)%search_result_Some.
  by apply solvePuzzleRecursively_word_lists in Hrun.
Qed.

Lemma replay_snoc (rows cols : Z) (pls : list WordPlacement)
    (p : WordPlacement) :
  ∀ g, replay rows cols g (pls ++ [p])
       = g1 ← replay rows cols g pls; replay rows cols g1 [p].
Proof.
  induction pls as [|q pls IH]; intros g.
  - simpl. by destruct (canPlaceWord _ _ _ _ _ _ _ _) as [[[] ?]|].
  - simpl. destruct (canPlaceWord _ _ g _ _ _ _ _) as [[[] ?]|]; [|done..].
    destruct (placeWord g _ _ _ _ _) as [g'|]; [|done]. simpl. apply IH.
Qed.

Lemma replayed_node_place (rows cols : Z)
    (srt : ∀ A : Type, (A → A → bool) → list A → list A)
    (g : Grid) (pls : list WordPlacement) (w : string)
    (cands : list Candidate) (cand : Candidate) (g' : Grid) :
  std_sort_spec srt →
  replayed_node rows cols g pls →
  ranked_candidates rows cols srt g w = Some cands → cand ∈ cands →
  placeWord g w (cand_r cand) (cand_c cand) (cand_dr cand) (cand_dc cand)
    = Some g' →
  replayed_node rows cols g'
    (pls ++ [mkWordPlacement w (cand_r cand) (cand_c cand)
               (cand_dr cand) (cand_dc cand)]).
Proof.
  intros Hsrt [Hshape Hreplay] Hranked Hcand Hplace.
  destruct (ranked_candidates_spec rows cols srt g w Hshape Hsrt)
    as (enum & cands' & _ & Hranked' & _ & _ & Hfeas & _).
  rewrite Hranked in Hranked'. injection Hranked' as <-.
  apply Hfeas in Hcand as (_ & _ & _ & Hcan).
  pose proof Hcan as [Hfit _]%canPlaceWord_fits; [|done].
  destruct (placeWord_spec w g (cand_r cand) (cand_c cand) (cand_dr cand)
              (cand_dc cand) (placement_fits_present _ _ _ _ _ _ _ _ Hfit))
    as (g'' & Hplace' & _ & _ & Hshape').
  rewrite Hplace in Hplace'. injection Hplace' as <-.
  split; [by apply Hshape'|].
  rewrite replay_snoc, Hreplay. simpl. rewrite Hcan, Hplace. done.
Qed.

Lemma replayed_best_record (rows cols : Z) (g : Grid)
    (pls : list WordPlacement) (b : PuzzleResult) :
  replayed_node rows cols g pls → replayed_best rows cols b →
  replayed_best rows cols (record_best rows cols g pls b).
Proof.
  intros [Hshape Hreplay] Hb.
  destruct (lex_lt_dec (rank b)
              (Z.of_nat (length pls), calculateOverlapScore rows cols pls))
    as [Hlt|Hnlt]; [|by rewrite record_best_kept].
  rewrite record_best_replaced by done. right. simpl.
  split; [|done]. unfold lex_lt, rank in Hlt. simpl in Hlt.
  destruct Hb as [(_ & _ & Hn & Hs)|(Hpos & _)]; [|lia].
  destruct pls as [|p pls]; [simpl in Hlt; lia|]. simpl. lia.
Qed.

Lemma search_result_replayed (elapsed : nat → Z)
    (srt : ∀ A : Type, (A → A → bool) → list A → list A)
    (words : list string) (required_flags : list bool)
    (rows cols runtime_ms : Z) (st : SearchState) :
  std_sort_spec srt →
  search_result elapsed srt words required_flags rows cols runtime_ms = Some st →
  replayed_best rows cols (best_result st).
Proof.
  intros Hsrt (_ & _ & order & _ & Hrun)%search_result_Some.
  apply (solvePuzzleRecursively_invariant rows cols runtime_ms elapsed srt words
           (replayed_node rows cols) (replayed_best rows cols))
    with (rest := order) (g := blank_grid rows cols) (pls := [])
         (st := initial_state words); [| | |by left|done].
  - apply replayed_best_record.
  - intros g pls i w cands cand g' Hnode _. by apply replayed_node_place.
  - split; [apply blank_grid_shape|done].
Qed.

(** The grid of the best solution stays the empty vector of a
    default-constructed [PuzzleResult] until a solution with at least one
    word is recorded. *)
Lemma search_result_unrecorded (elapsed : nat → Z)
    (srt : ∀ A : Type, (A → A → bool) → list A → list A)
    (words : list string) (required_flags : list bool)
    (rows cols runtime_ms : Z) (st : SearchState) :
  search_result elapsed srt words required_flags rows cols runtime_ms = Some st →
  num_placed (best_result st) = 0 → grid (best_result st) = [].
Proof.
  intros (_ & _ & order & _ & Hrun)%search_result_Some Hzero.
  assert (grid (best_result st) = [] ∧ num_placed (best_result st) = 0
          ∧ total_overlap_score (best_result st) = 0
          ∨ 0 < num_placed (best_result st)) as [[? _]|?]; [|done|lia].
  apply (solvePuzzleRecursively_invariant rows cols runtime_ms elapsed srt words
           (λ _ _, True)
           (λ b, grid b = [] ∧ num_placed b = 0 ∧ total_overlap_score b = 0
                 ∨ 0 < num_placed b))
    with (rest := order) (g := blank_grid rows cols) (pls := [])
         (st := initial_state words); [| |done|by left|done].
  - intros g pls b _ Hb.
    destruct (lex_lt_dec (rank b)
                (Z.of_nat (length pls), calculateOverlapScore rows cols pls))
      as [Hlt|Hnlt].
    + rewrite record_best_replaced by done. right. simpl.
      unfold lex_lt, rank in Hlt. simpl in Hlt.
      destruct Hb as [(_ & Hn & Hs)|Hpos]; [|lia].
      destruct pls as [|p pls]; [simpl in Hlt; lia|]. simpl. lia.
    + by rewrite record_best_kept.
  - done.
Qed.

Lemma fill_random_total (rand_draw : nat → Z) (rows cols : Z)
    (cells : list (Z * Z)) :
  ∀ g k,
    grid_shape rows cols g →
    Forall (λ rc, isInBounds rows cols (fst rc) (snd rc) = true) cells →
    is_Some (fill_random rand_draw g cells k).
Proof.
  induction cells as [|[r c] cells IH]; intros g k Hshape Hcells; [by eexists|].
  apply Forall_cons in Hcells as [Hb Hcells]. simpl in Hb.
  destruct (grid_get_in_shape rows cols g r c Hshape Hb) as [e He].
  simpl. rewrite He. option_step.
  destruct (Ascii.eqb e empty_cell); [|by apply IH].
  destruct (grid_set_is_Some g r c (letter_of_draw (rand_draw k)))
    as [g1 Hset]; [by rewrite He|].
  rewrite Hset. option_step.
  apply IH; [|done]. by eapply grid_set_shape.
Qed.

Lemma grid_cells_in_bounds (rows cols : Z) :
  Forall (λ rc, isInBounds rows cols (fst rc) (snd rc) = true)
    (grid_cells rows cols).
Proof.
  apply Forall_forall. intros [r c] Hin%grid_cells_elem. simpl.
  unfold isInBounds. repeat (apply andb_true_iff; split); lia.
Qed.

(** With at least one word placed, [generateWordSearch] returns. *)
Lemma generateWordSearch_returns (elapsed : nat → Z) (rand_draw : nat → Z)
    (srt : ∀ A : Type, (A → A → bool) → list A → list A)
    (words : list string) (required_flags : list bool)
    (rows cols runtime_ms : Z) (st : SearchState) :
  std_sort_spec srt →
  search_result elapsed srt words required_flags rows cols runtime_ms = Some st →
  0 < num_placed (best_result st) →
  is_Some (generateWordSearch elapsed rand_draw srt words required_flags
             rows cols runtime_ms).
Proof.
  intros Hsrt Hsearch Hpos. unfold generateWordSearch.
  rewrite Hsearch. option_step.
  destruct (search_result_replayed _ _ _ _ _ _ _ _ Hsrt Hsearch)
    as [(_ & _ & Hzero & _)|(_ & Hshape & _)]; [lia|].
  destruct (fill_random_total rand_draw rows cols (grid_cells rows cols)
              (grid (best_result st)) 0%nat Hshape (grid_cells_in_bounds _ _))
    as [filled ->].
  option_step. eauto.
Qed.

Lemma fill_random_empty_grid (rand_draw : nat → Z) (rows cols : Z) (k : nat) :
  0 < rows → 0 < cols →
  fill_random rand_draw [] (grid_cells rows cols) k = None.
Proof.
  intros Hr Hc.
  destruct (fill_random rand_draw [] (grid_cells rows cols) k) as [g'|] eqn:Hrun;
    [|done].
  apply fill_random_spec in Hrun as (_ & _ & Hpresent).
  destruct (Hpresent (0, 0)) as [e He]; [apply grid_cells_elem; lia|].
  done.
Qed.

Lemma generateWordSearch_nothing_placed (elapsed : nat → Z) (rand_draw : nat → Z)
    (srt : ∀ A : Type, (A → A → bool) → list A → list A)
    (words : list string) (required_flags : list bool)
    (rows cols runtime_ms : Z) (st : SearchState) :
  search_result elapsed srt words required_flags rows cols runtime_ms = Some st →
  num_placed (best_result st) = 0 → 0 < rows → 0 < cols →
  generateWordSearch elapsed rand_draw srt words required_flags
    rows cols runtime_ms = None.
Proof.
  intros Hsearch Hzero Hr Hc. unfold generateWordSearch.
  rewrite Hsearch. option_step.
  rewrite (search_result_unrecorded _ _ _ _ _ _ _ _ Hsearch Hzero).
  by rewrite fill_random_empty_grid.
Qed.

(** On a grid with at least one cell, [generateWordSearch] returns
    exactly when the search has placed at least one word. *)
Lemma generateWordSearch_returns_iff (elapsed : nat → Z) (rand_draw : nat → Z)
    (srt : ∀ A : Type, (A → A → bool) → list A → list A)
    (words : list string) (required_flags : list bool)
    (rows cols runtime_ms : Z) :
  std_sort_spec srt → 0 < rows → 0 < cols →
  is_Some (generateWordSearch elapsed rand_draw srt words required_flags
             rows cols runtime_ms)
  ↔ ∃ st, search_result elapsed srt words required_flags rows cols runtime_ms
          = Some st
          ∧ 0 < num_placed (best_result st).
Proof.
  intros Hsrt Hr Hc. split.
  - intros [res Hres].
    pose proof Hres as (st & filled & Hsearch & _ & _)%generateWordSearch_Some.
    exists st. split; [done|].
    destruct (search_result_replayed _ _ _ _ _ _ _ _ Hsrt Hsearch)
      as [(_ & _ & Hzero & _)|(Hpos & _)]; [|done].
    by rewrite (generateWordSearch_nothing_placed _ rand_draw _ _ _ _ _ _ _
                  Hsearch Hzero Hr Hc) in Hres.
  - intros (st & Hsearch & Hpos). by eapply generateWordSearch_returns.
Qed.

Lemma search_result_no_time (elapsed : nat → Z)
    (srt : ∀ A : Type, (A → A → bool) → list A → list A)
    (words : list string) (required_flags : list bool) (rows cols : Z) :
  0 ≤ elapsed 0%nat → length required_flags = length words →
  0 ≤ rows → 0 ≤ cols →
  search_result elapsed srt words required_flags rows cols 0
  = Some {| best_result := empty_result;
            used_flags := replicate (length words) false;
            clock_reads := 1 |}.
Proof.
  intros Hclock Hlen Hr Hc. unfold search_result.
  rewrite (proj2 (Z.ltb_ge rows 0) Hr), (proj2 (Z.ltb_ge cols 0) Hc). simpl.
  destruct (word_order_of_is_Some srt words required_flags Hlen)
    as [order ->]. option_step.
  assert (fst (hasTimedOut 0 elapsed (initial_state words)) = true) as Hout.
  { simpl. by apply Z.leb_le. }
  destruct order as [|i order].
  - rewrite solvePuzzleRecursively_nil, Hout. done.
  - rewrite solvePuzzleRecursively_cons, Hout. done.
Qed.

(** ** The word lists *)

Lemma placed_set_of_elem (pls : list WordPlacement) (w : string) :
  w ∈ placed_set_of pls ↔ ∃ p, p ∈ pls ∧ word p = w.
Proof.
  unfold placed_set_of. rewrite elem_of_list_to_set, list_elem_of_In, in_map_iff.
  split; intros (p & Hp & Hw); exists p.
  - by apply list_elem_of_In in Hw.
  - split; [done|]. by apply list_elem_of_In.
Qed.

(** ** Feasibility without the shape of the grid *)

Lemma canPlaceWord_loop_true (rows cols : Z) (g : Grid) (w : string) :
  ∀ r c dr dc acc n,
    canPlaceWord_loop rows cols g w r c dr dc acc = Some (true, n) ↔
    placement_fits rows cols g w r c dr dc
    ∧ n = acc + matching_cells g w r c dr dc.
Proof.
  induction w as [|ch w IH]; intros r c dr dc acc n.
  - simpl. rewrite matching_cells_nil. split.
    + intros [= <-]. split; [apply placement_fits_nil|lia].
    + intros [_ ->]. do 2 f_equal. lia.
  - rewrite placement_fits_cons, matching_cells_cons. simpl.
    destruct (isInBounds rows cols r c) eqn:Hb; simpl.
    2: { split; [done|]. by intros [[[? _] _] _]. }
    destruct (grid_get g r c) as [e|] eqn:He.
    2: { split; [done|]. by intros [[[_ [?|?]] _] _]. }
    destruct (Ascii.eqb_spec e empty_cell) as [Hdot|Hdot];
      destruct (Ascii.eqb_spec e ch) as [Hch|Hch]; simpl.
    4: { split; [done|]. intros [[[_ [?|?]] _] _]; congruence. }
    all: rewrite IH.
    all: destruct (decide (Some e = Some ch)) as [Heq|Hneq];
           [|try (exfalso; apply Hneq; congruence)];
           try (injection Heq as Heq; congruence).
    all: split; [intros [Hfit ->]|intros [[_ Hfit] ->]].
    all: try (split; [|lia]; split; [|done]; split; [done|]).
    all: try (split; [done|lia]).
    all: rewrite ?Hdot, ?Hch; auto.
Qed.

(** ** Checking concrete inputs *)

Lemma no_sentinel_check (w : string) :
  forallb (λ ch, negb (Ascii.eqb ch empty_cell)) (list_ascii_of_string w) = true →
  no_sentinel w.
Proof.
  induction w as [|ch w IH]; intros Hall k; [by destruct k|].
  simpl in Hall. apply andb_true_iff in Hall as [Hch Hall].
  destruct k as [|k]; simpl.
  - intros [= ->]. by rewrite Ascii.eqb_refl in Hch.
  - by apply IH.
Qed.

Lemma grid_shape_check (rows cols : Z) (g : Grid) :
  (length g =? Z.to_nat rows)%nat
  && forallb (λ line, (length line =? Z.to_nat cols)%nat) g = true →
  grid_shape rows cols g.
Proof.
  intros [Hlen Hall]%andb_true_iff. split; [by apply Nat.eqb_eq|].
  apply Forall_forall. intros line Hin%list_elem_of_In.
  rewrite forallb_forall in Hall. by apply Nat.eqb_eq, Hall.
Qed.

(** With the zero vector as direction a word is feasible on one empty
    cell, and [placeWord] leaves its last letter there. *)
Lemma placeWord_zero_direction :
  canPlaceWord 1 1 [chars "."] "AB" 0 0 0 0 = Some (true, 0)
  ∧ placeWord [chars "."] "AB" 0 0 0 0 = Some [chars "B"].
Proof. done. Qed.

(** * The claims *)

(** C2.  On every grid, [canPlaceWord] returns true if and only if
    every cell [start + k * (dr, dc)], [k] below the length of the word, is
    in bounds and holds the sentinel or the [k]-th letter of the word; when
    it returns true, [overlap_count] is the number of cells along the word
    whose letter in the grid is the letter of the word; and on a grid of the
    configured dimensions it always returns.  The grid is an argument and no
    part of the result: the function does not modify it. *)
Theorem canPlaceWord_correct (rows cols : Z) (g : Grid) (w : string)
    (r c dr dc : Z) :
  ((∃ n, canPlaceWord rows cols g w r c dr dc = Some (true, n))
   ↔ placement_fits rows cols g w r c dr dc)
  ∧ (∀ n, canPlaceWord rows cols g w r c dr dc = Some (true, n) →
          n = matching_cells g w r c dr dc)
  ∧ (grid_shape rows cols g →
     ∃ ok n, canPlaceWord rows cols g w r c dr dc = Some (ok, n)).
Proof.
  unfold canPlaceWord. split; [split|split].
  - intros [n Hrun]. by apply canPlaceWord_loop_true in Hrun as [Hfit _].
  - intros Hfit. exists (0 + matching_cells g w r c dr dc).
    by apply canPlaceWord_loop_true.
  - intros n Hrun. apply canPlaceWord_loop_true in Hrun as [_ ->]. lia.
  - intros Hshape.
    destruct (canPlaceWord_loop_spec rows cols g w Hshape r c dr dc 0)
      as (ok & n & Hrun & _).
    by exists ok, n.
Qed.

Lemma canPlaceWord_correct_witness :
  grid_shape 2 3 [chars ".A."; chars "..T"]
  ∧ canPlaceWord 2 3 [chars ".A."; chars "..T"] "CAT" 0 0 0 1 = Some (true, 1)
  ∧ placement_fits 2 3 [chars ".A."; chars "..T"] "CAT" 0 0 0 1
  ∧ 1 = matching_cells [chars ".A."; chars "..T"] "CAT" 0 0 0 1
  ∧ canPlaceWord 2 3 [chars ".A."; chars "..T"] "CAT" 0 1 1 0 = Some (false, 0)
  ∧ ¬ placement_fits 2 3 [chars ".A."; chars "..T"] "CAT" 0 1 1 0.
Proof.
  destruct (canPlaceWord_correct 2 3 [chars ".A."; chars "..T"] "CAT" 0 0 0 1)
    as (Hiff & Hcount & _).
  destruct (canPlaceWord_correct 2 3 [chars ".A."; chars "..T"] "CAT" 0 1 1 0)
    as (Hiff' & _ & _).
  split; [apply grid_shape_check; reflexivity|].
  split; [reflexivity|].
  split; [apply Hiff; exists 1; reflexivity|].
  split; [apply Hcount; reflexivity|].
  split; [reflexivity|].
  intros [n Hn]%Hiff'. discriminate Hn.
Defined.

(** C10.  When [canPlaceWord] returns true for a direction other than the
    zero vector (each of the eight [DIRECTIONS] is one, see
    [DIRECTIONS_nonzero]), [placeWord] sets the cell [start + k * (dr, dc)]
    to the [k]-th letter of the word for every [k] below its length, and
    leaves every other cell of the grid as it was. *)
Theorem placeWord_frame (rows cols : Z) (g : Grid) (w : string)
    (r c dr dc n : Z) :
  canPlaceWord rows cols g w r c dr dc = Some (true, n) →
  (dr, dc) ≠ (0, 0) →
  ∃ g',
    placeWord g w r c dr dc = Some g'
    ∧ (∀ k ch, String.get k w = Some ch →
               grid_at g' (cell_at r c dr dc k) = Some ch)
    ∧ (∀ rc, (∀ k, (k < String.length w)%nat → cell_at r c dr dc k ≠ rc) →
             grid_at g' rc = grid_at g rc).
Proof.
  intros Hcan Hdir. apply canPlaceWord_loop_true in Hcan as [Hcan _].
  destruct (placeWord_spec w g r c dr dc
              (placement_fits_present _ _ _ _ _ _ _ _ Hcan))
    as (g' & Hrun & Hframe & Hput & _).
  exists g'. split; [done|]. split; [by apply Hput|done].
Qed.

Lemma placeWord_frame_witness :
  canPlaceWord 2 3 [chars ".A."; chars "..T"] "CAT" 0 0 0 1 = Some (true, 1)
  ∧ (0, 1) ≠ (0, 0)
  ∧ ∃ g',
      placeWord [chars ".A."; chars "..T"] "CAT" 0 0 0 1 = Some g'
      ∧ (∀ k ch, String.get k "CAT" = Some ch →
                 grid_at g' (cell_at 0 0 0 1 k) = Some ch)
      ∧ (∀ rc, (∀ k, (k < String.length "CAT")%nat → cell_at 0 0 0 1 k ≠ rc) →
               grid_at g' rc = grid_at [chars ".A."; chars "..T"] rc).
Proof.
  split; [reflexivity|]. split; [discriminate|].
  apply (placeWord_frame 2 3 [chars ".A."; chars "..T"] "CAT" 0 0 0 1 1);
    [reflexivity|discriminate].
Defined.

(** C3.  In [calculateOverlapScore] the counter of every cell of the
    grid, started at zero, ends at the usage of the cell: the number of
    placement cells that fall on it, over all placements.  The function
    returns the sum over all cells of the grid of [max 0 (usage - 1)]; a
    cell of usage 3 contributes 2; and the score of the result that
    [generateWordSearch] returns is this recount over the placements it
    returns. *)
Theorem calculateOverlapScore_is_recount :
  (∀ rows cols pls (r c : nat),
     (r < Z.to_nat rows)%nat → (c < Z.to_nat cols)%nat →
     overlap_map_at (overlap_map_of rows cols []) r c = 0
     ∧ overlap_map_at (overlap_map_of rows cols pls) r c
       = usage_count pls (Z.of_nat r, Z.of_nat c))
  ∧ (∀ rows cols pls, calculateOverlapScore rows cols pls = recount rows cols pls)
  ∧ (∀ pls rc, usage_count pls rc = 3 → Z.max 0 (usage_count pls rc - 1) = 2)
  ∧ (∀ elapsed rand_draw srt words required_flags rows cols runtime_ms res,
       generateWordSearch elapsed rand_draw srt words required_flags
         rows cols runtime_ms = Some res →
       total_overlap_score res
       = calculateOverlapScore rows cols (placements res)
       ∧ total_overlap_score res = recount rows cols (placements res)).
Proof.
  split.
  { intros rows cols pls r c Hr Hc. split; [apply zero_map_at|].
    by apply overlap_map_of_at. }
  split; [apply calculateOverlapScore_recount|]. split; [intros; lia|].
  intros elapsed rand_draw srt words required_flags rows cols runtime_ms res
    (st & filled & Hsearch & _ & ->)%generateWordSearch_Some.
  simpl. apply search_result_counters in Hsearch as [_ Hscore].
  split; [done|]. by rewrite <- calculateOverlapScore_recount.
Qed.

Lemma calculateOverlapScore_is_recount_witness :
  ∃ res,
    generateWordSearch never_late always_A stable_sort
      ["CAT"; "CAR"; "ARC"]%string [true; true; false] 3 3 1000 = Some res
    ∧ total_overlap_score res = 2
    ∧ total_overlap_score res = recount 3 3 (placements res)
    ∧ overlap_map_at (overlap_map_of 3 3 (placements res)) 1 1 = 2
    ∧ usage_count (placements res) (1, 1) = 2.
Proof.
  eexists. split; [vm_compute; reflexivity|].
  split; [reflexivity|]. split; [|split; vm_compute; reflexivity].
  apply (proj2 (proj2 (proj2 calculateOverlapScore_is_recount))
           never_late always_A stable_sort
           ["CAT"; "CAR"; "ARC"]%string [true; true; false] 3 3 1000).
  vm_compute. reflexivity.
Defined.

(** C4.  The best-solution record is replaced exactly when the pair
    (placed count, overlap score) of the current branch is strictly greater,
    lexicographically, than the pair of the record; hence over any call of
    [solvePuzzleRecursively], nested ones included, the record either is the
    one it was or has a strictly greater pair: the pair never decreases. *)
Theorem best_result_monotone :
  (∀ rows cols g pls best,
     (lex_lt (rank best)
        (Z.of_nat (length pls), calculateOverlapScore rows cols pls) →
      record_best rows cols g pls best
      = {| grid := g; placements := pls;
           placed_words := placed_words best;
           unplaced_words := unplaced_words best;
           num_placed := Z.of_nat (length pls);
           total_overlap_score := calculateOverlapScore rows cols pls |})
     ∧ (¬ lex_lt (rank best)
          (Z.of_nat (length pls), calculateOverlapScore rows cols pls) →
        record_best rows cols g pls best = best))
  ∧ (∀ rows cols limit elapsed srt words rest g pls st st',
       solvePuzzleRecursively rows cols limit elapsed srt words rest g pls st
         = Some st' →
       (best_result st' = best_result st
        ∨ lex_lt (rank (best_result st)) (rank (best_result st')))
       ∧ lex_le (rank (best_result st)) (rank (best_result st'))).
Proof.
  split.
  - intros rows cols g pls best. split.
    + apply record_best_replaced.
    + apply record_best_kept.
  - intros rows cols limit elapsed srt words rest g pls st st' Hrun.
    apply solvePuzzleRecursively_rank in Hrun. split; [done|].
    destruct Hrun as [->|Hlt]; [by right|by left].
Qed.

Lemma best_result_monotone_witness :
  ∃ st',
    solvePuzzleRecursively 1 2 1000 never_late stable_sort ["A"%string]
      [0%nat] (blank_grid 1 2) [] (initial_state ["A"%string]) = Some st'
    ∧ rank (best_result (initial_state ["A"%string])) = (0, 0)
    ∧ rank (best_result st') = (1, 0)
    ∧ lex_le (rank (best_result (initial_state ["A"%string])))
        (rank (best_result st')).
Proof.
  eexists. split; [vm_compute; reflexivity|].
  split; [reflexivity|]. split; [reflexivity|].
  apply (proj2 best_result_monotone 1 2 1000 never_late stable_sort
           ["A"%string] [0%nat] (blank_grid 1 2) [] (initial_state ["A"%string])).
  vm_compute. reflexivity.
Defined.

(** C5.  For words without the sentinel character, the placements that
    [generateWordSearch] returns are conflict-free: every placement stays in
    bounds, and a cell shared by two placements receives the same letter
    from both; and replaying the placements in order on the blank grid of
    the same dimensions succeeds, every placement passing the feasibility
    check on what the earlier ones have written. *)
Theorem returned_placements_conflict_free
    (elapsed : nat → Z) (rand_draw : nat → Z)
    (srt : ∀ A : Type, (A → A → bool) → list A → list A)
    (words : list string) (required_flags : list bool)
    (rows cols runtime_ms : Z) (res : PuzzleResult) :
  std_sort_spec srt → Forall no_sentinel words →
  generateWordSearch elapsed rand_draw srt words required_flags
    rows cols runtime_ms = Some res →
  conflict_free rows cols (placements res)
  ∧ is_Some (replay rows cols (blank_grid rows cols) (placements res)).
Proof.
  intros Hsrt Hclean (st & filled & Hsearch & _ & ->)%generateWordSearch_Some.
  simpl. split.
  - destruct (search_result_placed _ _ _ _ _ _ _ _ Hsrt Hclean Hsearch)
      as [Hagree _].
    by eapply agrees_conflict_free.
  - destruct (search_result_replayed _ _ _ _ _ _ _ _ Hsrt Hsearch)
      as [(_ & -> & _)|(_ & _ & ->)]; by eexists.
Qed.

Lemma returned_placements_conflict_free_witness :
  ∃ res,
    std_sort_spec stable_sort
    ∧ Forall no_sentinel ["CAT"; "CAR"; "ARC"]%string
    ∧ generateWordSearch never_late always_A stable_sort
        ["CAT"; "CAR"; "ARC"]%string [true; true; false] 3 3 1000 = Some res
    ∧ length (placements res) = 3%nat
    ∧ replay 3 3 (blank_grid 3 3) (placements res)
      = Some [chars ".C."; chars "CAT"; chars "ARC"]
    ∧ conflict_free 3 3 (placements res).
Proof.
  assert (Forall no_sentinel ["CAT"; "CAR"; "ARC"]%string) as Hclean.
  { repeat constructor; apply no_sentinel_check; reflexivity. }
  eexists. split; [apply stable_sort_spec|]. split; [exact Hclean|].
  split; [vm_compute; reflexivity|]. split; [reflexivity|].
  split; [vm_compute; reflexivity|].
  apply (returned_placements_conflict_free never_late always_A stable_sort
           ["CAT"; "CAR"; "ARC"]%string [true; true; false] 3 3 1000);
    [apply stable_sort_spec|exact Hclean|vm_compute; reflexivity].
Defined.

(** C6.  The lists [placed_words] and [unplaced_words] that
    [generateWordSearch] returns partition the input words: together they
    are the input sequence up to order, a word is in [placed_words] exactly
    when it is an input word that some returned placement carries, in
    [unplaced_words] exactly when it is an input word that none carries, and
    no word is in both. *)
Theorem placed_unplaced_partition
    (elapsed : nat → Z) (rand_draw : nat → Z)
    (srt : ∀ A : Type, (A → A → bool) → list A → list A)
    (words : list string) (required_flags : list bool)
    (rows cols runtime_ms : Z) (res : PuzzleResult) :
  generateWordSearch elapsed rand_draw srt words required_flags
    rows cols runtime_ms = Some res →
  placed_words res ++ unplaced_words res ≡ₚ words
  ∧ (∀ w, w ∈ placed_words res ↔
          w ∈ words ∧ ∃ p, p ∈ placements res ∧ word p = w)
  ∧ (∀ w, w ∈ unplaced_words res ↔
          w ∈ words ∧ ¬ ∃ p, p ∈ placements res ∧ word p = w)
  ∧ (∀ w, ¬ (w ∈ placed_words res ∧ w ∈ unplaced_words res)).
Proof.
  intros (st & filled & Hsearch & _ & ->)%generateWordSearch_Some. simpl.
  apply search_result_word_lists in Hsearch as [-> ->]. simpl.
  set (pls := placements (best_result st)).
  assert (∀ w, w ∈ filter (λ w, w ∈ placed_set_of pls) words ↔
               w ∈ words ∧ ∃ p, p ∈ pls ∧ word p = w) as Hplaced.
  { intros w. rewrite list_elem_of_filter, placed_set_of_elem. tauto. }
  assert (∀ w, w ∈ filter (λ w, w ∉ placed_set_of pls) words ↔
               w ∈ words ∧ ¬ ∃ p, p ∈ pls ∧ word p = w) as Hunplaced.
  { intros w. rewrite list_elem_of_filter, placed_set_of_elem. tauto. }
  split; [apply filter_app_complement|]. split; [done|]. split; [done|].
  intros w [H1%Hplaced H2%Hunplaced]. tauto.
Qed.

Lemma placed_unplaced_partition_witness :
  ∃ res,
    generateWordSearch never_late always_A stable_sort
      ["CAT"; "ELEPHANT"; "CAT"]%string [true; true; false] 3 3 1000 = Some res
    ∧ placed_words res = ["CAT"; "CAT"]%string
    ∧ unplaced_words res = ["ELEPHANT"]%string
    ∧ placed_words res ++ unplaced_words res
      ≡ₚ ["CAT"; "ELEPHANT"; "CAT"]%string
    ∧ (∀ w, ¬ (w ∈ placed_words res ∧ w ∈ unplaced_words res)).
Proof.
  eexists. split; [vm_compute; reflexivity|].
  split; [reflexivity|]. split; [reflexivity|].
  pose proof (placed_unplaced_partition never_late always_A stable_sort
                ["CAT"; "ELEPHANT"; "CAT"]%string [true; true; false] 3 3 1000
                _ ltac:(vm_compute; reflexivity)) as (Hperm & _ & _ & Hdisj).
  split; [exact Hperm|exact Hdisj].
Defined.

(** C8.  When there is one flag per word, the word order is the indices
    of the required words followed by the indices of the optional words,
    each index once, and in each of the two parts the lengths of the words
    do not increase. *)
Theorem word_order_required_first
    (srt : ∀ A : Type, (A → A → bool) → list A → list A)
    (words : list string) (required_flags : list bool) :
  std_sort_spec srt → length required_flags = length words →
  ∃ req opt,
    word_order_of srt words required_flags = Some (req ++ opt)
    ∧ req ≡ₚ filter (λ i, required_flags !! i = Some true)
               (seq 0 (length words))
    ∧ opt ≡ₚ filter (λ i, required_flags !! i = Some false)
               (seq 0 (length words))
    ∧ StronglySorted (longer_first words) req
    ∧ StronglySorted (longer_first words) opt.
Proof. apply word_order_of_spec. Qed.

Lemma word_order_required_first_witness :
  std_sort_spec stable_sort
  ∧ length [false; true; true; false; true]
    = length ["AB"; "CDEF"; "X"; "LONGER"; "ZZ"]%string
  ∧ word_order_of stable_sort ["AB"; "CDEF"; "X"; "LONGER"; "ZZ"]%string
      [false; true; true; false; true]
    = Some ([1; 4; 2] ++ [3; 0])%nat
  ∧ ∃ req opt,
      word_order_of stable_sort ["AB"; "CDEF"; "X"; "LONGER"; "ZZ"]%string
        [false; true; true; false; true] = Some (req ++ opt)
      ∧ req ≡ₚ filter (λ i, [false; true; true; false; true] !! i = Some true)
                 (seq 0 (length ["AB"; "CDEF"; "X"; "LONGER"; "ZZ"]%string))
      ∧ opt ≡ₚ filter (λ i, [false; true; true; false; true] !! i = Some false)
                 (seq 0 (length ["AB"; "CDEF"; "X"; "LONGER"; "ZZ"]%string))
      ∧ StronglySorted
          (longer_first ["AB"; "CDEF"; "X"; "LONGER"; "ZZ"]%string) req
      ∧ StronglySorted
          (longer_first ["AB"; "CDEF"; "X"; "LONGER"; "ZZ"]%string) opt.
Proof.
  split; [apply stable_sort_spec|]. split; [reflexivity|].
  split; [reflexivity|].
  apply (word_order_required_first stable_sort
           ["AB"; "CDEF"; "X"; "LONGER"; "ZZ"]%string
           [false; true; true; false; true]);
    [apply stable_sort_spec|reflexivity].
Defined.

(** C9.  With a time limit of 0 the search returns at its first deadline
    check with the best solution untouched (no word placed, no placement)
    and one clock reading taken; but [generateWordSearch] then indexes the
    grid of that solution, which is still the empty vector, so the function
    has no defined result on a grid with at least one cell. *)
Theorem zero_time_limit_no_result
    (elapsed : nat → Z) (rand_draw : nat → Z)
    (srt : ∀ A : Type, (A → A → bool) → list A → list A)
    (words : list string) (required_flags : list bool) (rows cols : Z) :
  0 ≤ elapsed 0%nat → length required_flags = length words →
  0 < rows → 0 < cols →
  search_result elapsed srt words required_flags rows cols 0
  = Some {| best_result := empty_result;
            used_flags := replicate (length words) false;
            clock_reads := 1 |}
  ∧ generateWordSearch elapsed rand_draw srt words required_flags rows cols 0
    = None.
Proof.
  intros Hclock Hlen Hr Hc.
  pose proof (search_result_no_time elapsed srt words required_flags rows cols
                Hclock Hlen ltac:(lia) ltac:(lia)) as Hsearch.
  split; [done|].
  by eapply generateWordSearch_nothing_placed.
Qed.

Lemma zero_time_limit_no_result_witness :
  0 ≤ never_late 0%nat
  ∧ length [true] = length ["CAT"%string]
  ∧ 0 < 3
  ∧ search_result never_late stable_sort ["CAT"%string] [true] 3 3 0
    = Some {| best_result := empty_result;
              used_flags := [false];
              clock_reads := 1 |}
  ∧ generateWordSearch never_late always_A stable_sort ["CAT"%string] [true]
      3 3 0 = None.
Proof.
  split; [done|]. split; [reflexivity|]. split; [lia|].
  apply (zero_time_limit_no_result never_late always_A stable_sort
           ["CAT"%string] [true] 3 3); [done|reflexivity|lia|lia].
Defined.

(** C1, as the specification states it, fails: in the grid that
    [generateWordSearch] returns for the word "A" on a grid of one row and
    two columns, the cell (0, 0) is covered by no placement and holds a
    letter. *)
Lemma returned_grid_is_filled :
  ∃ res,
    generateWordSearch never_late always_A stable_sort ["A"%string] [true]
      1 2 1000 = Some res
    ∧ ¬ blank_elsewhere (grid res) (placements res).
Proof.
  eexists. split; [vm_compute; reflexivity|].
  intros Hblank. specialize (Hblank (0, 0) "A"%char eq_refl).
  assert ("A"%char = empty_cell) as Habs; [|discriminate].
  apply Hblank. intros (p & Hp & k & Hk & Hcell).
  apply list_elem_of_singleton in Hp. subst p. simpl in Hk.
  assert (k = 0%nat) as -> by lia. discriminate.
Qed.

(** C1, amended.  When the search inside [generateWordSearch] has
    returned, every cell of the grid of the best solution that no placement
    of that solution covers holds the sentinel.  [generateWordSearch] itself
    then fills the grid: in the grid it returns, a cell that held a letter
    keeps it, and every cell of the grid that no returned placement covers
    holds the letter of some draw of the random generator. *)
Theorem sentinel_until_fill
    (elapsed : nat → Z) (rand_draw : nat → Z)
    (srt : ∀ A : Type, (A → A → bool) → list A → list A)
    (words : list string) (required_flags : list bool)
    (rows cols runtime_ms : Z) (st : SearchState) :
  std_sort_spec srt → Forall no_sentinel words →
  search_result elapsed srt words required_flags rows cols runtime_ms = Some st →
  blank_elsewhere (grid (best_result st)) (placements (best_result st))
  ∧ ∀ res,
      generateWordSearch elapsed rand_draw srt words required_flags
        rows cols runtime_ms = Some res →
      placements res = placements (best_result st)
      ∧ (∀ rc, grid_at (grid (best_result st)) rc ≠ Some empty_cell →
               grid_at (grid res) rc = grid_at (grid (best_result st)) rc)
      ∧ (∀ r c, 0 ≤ r < rows → 0 ≤ c < cols →
                ¬ covered_by (placements res) (r, c) →
                ∃ j, grid_at (grid res) (r, c)
                     = Some (letter_of_draw (rand_draw j))).
Proof.
  intros Hsrt Hclean Hsearch.
  destruct (search_result_placed _ _ _ _ _ _ _ _ Hsrt Hclean Hsearch)
    as [_ Hblank].
  split; [done|].
  intros res (st0 & filled & Hsearch0 & Hfill & ->)%generateWordSearch_Some.
  rewrite Hsearch in Hsearch0. injection Hsearch0 as <-. simpl.
  apply fill_random_spec in Hfill as (Hcases & Hfilled & Hpresent).
  split; [done|]. split.
  - intros rc Hletter. destruct (Hcases rc) as [Heq|[Hdot _]]; done.
  - intros r c Hr Hc Hnot.
    assert ((r, c) ∈ grid_cells rows cols) as Hin by (by apply grid_cells_elem).
    apply Hfilled; [done|].
    destruct (Hpresent (r, c) Hin) as [e He].
    by rewrite He, (Hblank (r, c) e He Hnot).
Qed.

Lemma sentinel_until_fill_witness :
  ∃ st res,
    std_sort_spec stable_sort
    ∧ Forall no_sentinel ["A"%string]
    ∧ search_result never_late stable_sort ["A"%string] [true] 1 2 1000 = Some st
    ∧ generateWordSearch never_late always_A stable_sort ["A"%string] [true]
        1 2 1000 = Some res
    ∧ grid (best_result st) = [chars ".A"]
    ∧ grid res = [chars "AA"]
    ∧ blank_elsewhere (grid (best_result st)) (placements (best_result st))
    ∧ placements res = placements (best_result st).
Proof.
  assert (Forall no_sentinel ["A"%string]) as Hclean.
  { repeat constructor; apply no_sentinel_check; reflexivity. }
  eexists. eexists. split; [apply stable_sort_spec|]. split; [exact Hclean|].
  split; [vm_compute; reflexivity|]. split; [vm_compute; reflexivity|].
  split; [reflexivity|]. split; [reflexivity|].
  pose proof (sentinel_until_fill never_late always_A stable_sort
                ["A"%string] [true] 1 2 1000 _ stable_sort_spec Hclean
                ltac:(vm_compute; reflexivity)) as [Hblank Hres].
  split; [exact Hblank|].
  apply (Hres _ ltac:(vm_compute; reflexivity)).
Defined.

(** C7, as the specification states it, fails: the code ranks with
    [std::sort], which keeps no order among candidates of equal keys.  For
    the word "A" on the blank grid of 5 rows and 5 columns (the first
    ranking of [generateWordSearch] on that input) all 200 candidates have
    overlap 0, and the eight of the center cell have distance 0.  The
    enumeration lists them by direction, [(0, 1)] first and [(-1, -1)] last;
    [std::sort], as libstdc++ implements it, puts the candidate of direction
    [(-1, -1)] first and that of direction [(0, 1)] second, so that the word
    is placed at the center in direction [(-1, -1)]. *)
Lemma ties_leave_enumeration_order :
  ∃ enum cands,
    collect_candidates 5 5 (blank_grid 5 5) "A" (scan_order 5 5) = Some enum
    ∧ libstdcxx_sort (candidate_less 5 5) enum = Some cands
    ∧ ranked_candidates 5 5 std_sort_libstdcxx (blank_grid 5 5) "A" = Some cands
    ∧ enum !! 96%nat = Some (mkCandidate 2 2 0 1 0)
    ∧ enum !! 103%nat = Some (mkCandidate 2 2 (-1) (-1) 0)
    ∧ cands !! 0%nat = Some (mkCandidate 2 2 (-1) (-1) 0)
    ∧ cands !! 1%nat = Some (mkCandidate 2 2 0 1 0)
    ∧ same_keys 5 5 (mkCandidate 2 2 (-1) (-1) 0) (mkCandidate 2 2 0 1 0)
    ∧ placements <$> generateWordSearch never_late always_A std_sort_libstdcxx
                       ["A"%string] [false] 5 5 1000
      = Some [mkWordPlacement "A" 2 2 (-1) (-1)]
    ∧ ¬ keeps_enumeration_order 5 5 enum cands.
Proof.
  destruct (collect_candidates_spec 5 5 (blank_grid 5 5) "A"
              (blank_grid_shape 5 5) (scan_order 5 5))
    as (enum & Henum & _ & Hnd).
  specialize (Hnd (scan_order_NoDup 5 5)).
  exists enum. eexists.
  assert (enum !! 96%nat = Some (mkCandidate 2 2 0 1 0)) as H96.
  { vm_compute in Henum. injection Henum as <-. reflexivity. }
  assert (enum !! 103%nat = Some (mkCandidate 2 2 (-1) (-1) 0)) as H103.
  { vm_compute in Henum. injection Henum as <-. reflexivity. }
  split; [exact Henum|].
  split; [vm_compute in Henum; injection Henum as <-; vm_compute; reflexivity|].
  split; [vm_compute; reflexivity|].
  split; [exact H96|]. split; [exact H103|].
  split; [reflexivity|]. split; [reflexivity|]. split; [by split|].
  split; [vm_compute; reflexivity|].
  intros Hkeeps.
  destruct (Hkeeps 0%nat 1%nat _ _ eq_refl eq_refl ltac:(lia)
              ltac:(split; reflexivity)) as (i & j & Hi & Hj & Hlt).
  pose proof (NoDup_lookup _ _ _ _ Hnd Hi H103).
  pose proof (NoDup_lookup _ _ _ _ Hnd Hj H96).
  lia.
Qed.

(** On the grid of one empty cell the eight candidates of "A" are fewer
    than the 16 elements up to which [std::sort] of libstdc++ is an
    insertion sort: there the ranking is the enumeration. *)
Lemma ranking_of_one_cell :
  collect_candidates 1 1 [chars "."] "A" (scan_order 1 1)
  = ranked_candidates 1 1 std_sort_libstdcxx [chars "."] "A"
  ∧ libstdcxx_sort (candidate_less 1 1)
      (default [] (collect_candidates 1 1 [chars "."] "A" (scan_order 1 1)))
    = collect_candidates 1 1 [chars "."] "A" (scan_order 1 1).
Proof. split; vm_compute; reflexivity. Qed.

(** C7, amended.  On a grid of the configured dimensions and with a
    sorting function within the contract of [std::sort], the candidate list
    is a permutation of the enumeration; it holds, each once, exactly the
    candidates made of a cell of the grid, one of the eight directions and
    the overlap count of a successful feasibility check; and it is ordered
    by overlap count descending, then by Manhattan distance from the grid
    center ascending.  Nothing is said of the order of candidates that agree
    on both keys. *)
Theorem ranked_candidates_sorted (rows cols : Z)
    (srt : ∀ A : Type, (A → A → bool) → list A → list A)
    (g : Grid) (w : string) :
  grid_shape rows cols g → std_sort_spec srt →
  ∃ enum cands,
    collect_candidates rows cols g w (scan_order rows cols) = Some enum
    ∧ ranked_candidates rows cols srt g w = Some cands
    ∧ cands ≡ₚ enum
    ∧ NoDup cands
    ∧ (∀ cand, cand ∈ cands ↔ feasible_candidate rows cols g w cand)
    ∧ StronglySorted (ranked_before rows cols) cands.
Proof. apply ranked_candidates_spec. Qed.

Lemma ranked_candidates_sorted_witness :
  grid_shape 2 3 [chars ".A."; chars "..T"]
  ∧ std_sort_spec reversing_sort
  ∧ ∃ enum cands,
      collect_candidates 2 3 [chars ".A."; chars "..T"] "CAT" (scan_order 2 3)
        = Some enum
      ∧ ranked_candidates 2 3 reversing_sort [chars ".A."; chars "..T"] "CAT"
        = Some cands
      ∧ cands ≡ₚ enum
      ∧ NoDup cands
      ∧ (∀ cand, cand ∈ cands ↔
                 feasible_candidate 2 3 [chars ".A."; chars "..T"] "CAT" cand)
      ∧ StronglySorted (ranked_before 2 3) cands.
Proof.
  split; [apply grid_shape_check; reflexivity|].
  split; [apply reversing_sort_spec|].
  apply (ranked_candidates_sorted 2 3 reversing_sort
           [chars ".A."; chars "..T"] "CAT");
    [apply grid_shape_check; reflexivity|apply reversing_sort_spec].
Defined.


(** * Further properties *)

(** ** Normalized words *)

Lemma toupper_of_letter (ch : ascii) :
  isalpha ch = true → (65 ≤ nat_of_ascii (toupper ch) ≤ 90)%nat.
Proof.
  unfold isalpha, toupper. cbv zeta. intros Halpha.
  destruct ((97 <=? nat_of_ascii ch) && (nat_of_ascii ch <=? 122))%nat eqn:Hlow.
  - apply andb_true_iff in Hlow as [H1%Nat.leb_le H2%Nat.leb_le].
    rewrite nat_ascii_embedding by lia. lia.
  - rewrite orb_false_r in Halpha.
    apply andb_true_iff in Halpha as [H1%Nat.leb_le H2%Nat.leb_le]. lia.
Qed.

Lemma upper_letter_fixed (ch : ascii) :
  (65 ≤ nat_of_ascii ch ≤ 90)%nat → isalpha ch = true ∧ toupper ch = ch.
Proof.
  intros [H1 H2]. unfold isalpha, toupper. cbv zeta.
  rewrite (proj2 (Nat.leb_le 65 _) H1), (proj2 (Nat.leb_le _ 90) H2).
  split; [done|].
  destruct (Nat.leb_spec 97 (nat_of_ascii ch)); [lia|done].
Qed.

Lemma uppercase_word_cons (ch : ascii) (w : string) :
  uppercase_word (String ch w) ↔
  (65 ≤ nat_of_ascii ch ≤ 90)%nat ∧ uppercase_word w.
Proof.
  split.
  - intros Hup. split; [by apply (Hup 0%nat)|].
    intros k x Hk. by apply (Hup (S k)).
  - intros [Hch Hw] [|k] x Hk; simpl in Hk; [by injection Hk as <-|].
    by eapply Hw.
Qed.

Lemma normalizeWord_uppercase (input : string) :
  uppercase_word (normalizeWord input).
Proof.
  induction input as [|ch input IH]; simpl; [by intros [|k] x|].
  destruct (isalpha ch) eqn:Halpha; [|done].
  apply uppercase_word_cons. split; [by apply toupper_of_letter|done].
Qed.

Lemma normalizeWord_fixes_uppercase (w : string) :
  uppercase_word w → normalizeWord w = w.
Proof.
  induction w as [|ch w IH]; [done|].
  intros [Hch Hw]%uppercase_word_cons. simpl.
  destruct (upper_letter_fixed ch Hch) as [-> ->]. by rewrite IH.
Qed.

Lemma normalizeWord_length (input : string) :
  (String.length (normalizeWord input) ≤ String.length input)%nat.
Proof.
  induction input as [|ch input IH]; simpl; [done|].
  destruct (isalpha ch); simpl; lia.
Qed.

Lemma uppercase_no_sentinel (w : string) : uppercase_word w → no_sentinel w.
Proof. intros Hup k Hk. apply Hup in Hk. vm_compute in Hk. lia. Qed.

(** X1.  [normalizeWord] returns only letters from ['A'] to ['Z'], never
    more characters than it was given, and leaves unchanged a word that is
    already of this form: normalizing twice is normalizing once. *)
Theorem normalizeWord_normal (input : string) :
  uppercase_word (normalizeWord input)
  ∧ (String.length (normalizeWord input) ≤ String.length input)%nat
  ∧ normalizeWord (normalizeWord input) = normalizeWord input
  ∧ (uppercase_word input → normalizeWord input = input).
Proof.
  split; [apply normalizeWord_uppercase|].
  split; [apply normalizeWord_length|].
  split; [apply normalizeWord_fixes_uppercase, normalizeWord_uppercase|].
  apply normalizeWord_fixes_uppercase.
Qed.

Lemma normalizeWord_normal_witness :
  normalizeWord "ap-Ple 7" = "APPLE"%string
  ∧ uppercase_word "APPLE"
  ∧ normalizeWord "APPLE" = "APPLE"%string.
Proof.
  split; [reflexivity|].
  destruct (normalizeWord_normal "ap-Ple 7") as (Hupper & _ & _ & _).
  destruct (normalizeWord_normal "APPLE") as (_ & _ & _ & Hfixed).
  split; [exact Hupper|]. apply Hfixed. exact Hupper.
Defined.

(** ** Reading the input lines *)

Lemma all_blank_cons (ch : ascii) (s : string) :
  all_blank (String ch s) ↔ is_blank ch = true ∧ all_blank s.
Proof.
  split.
  - intros Hall. split; [by apply (Hall 0%nat)|].
    intros k x Hk. by apply (Hall (S k)).
  - intros [Hch Hs] [|k] x Hk; simpl in Hk; [by injection Hk as <-|].
    by eapply Hs.
Qed.

Lemma all_blank_nil : all_blank EmptyString.
Proof. by intros [|k] x. Qed.

Lemma find_last_not_blank_spec (s : string) :
  match find_last_not_blank s with
  | None => all_blank s
  | Some j =>
      ∃ post ch,
        s = substring 0 (S j) s +:+ post
        ∧ all_blank post
        ∧ String.length (substring 0 (S j) s) = S j
        ∧ String.get j (substring 0 (S j) s) = Some ch
        ∧ is_blank ch = false
  end.
Proof.
  induction s as [|c s IH]; [apply all_blank_nil|].
  simpl find_last_not_blank.
  destruct (find_last_not_blank s) as [j|].
  - destruct IH as (post & ch & Heq & Hpost & Hlen & Hget & Hch).
    exists post, ch. change (substring 0 (S (S j)) (String c s))
      with (String c (substring 0 (S j) s)).
    split; [|split; [done|split; [|by split]]].
    + change (String c s = String c (substring 0 (S j) s +:+ post)).
      by rewrite <- Heq.
    + change (S (String.length (substring 0 (S j) s)) = S (S j)).
      by rewrite Hlen.
  - destruct (is_blank c) eqn:Hc; [by apply all_blank_cons|].
    exists s, c. change (substring 0 1 (String c s))
      with (String c (substring 0 0 s)).
    assert (substring 0 0 s = EmptyString) as -> by (by destruct s).
    by repeat split.
Qed.

Lemma find_first_not_blank_None (s : string) :
  find_first_not_blank s = None ↔ all_blank s.
Proof.
  induction s as [|c s IH]; [split; [intros; apply all_blank_nil|done]|].
  simpl. rewrite all_blank_cons. destruct (is_blank c).
  - rewrite fmap_None, IH. tauto.
  - split; [done|]. by intros [? _].
Qed.

Lemma find_last_not_blank_None (s : string) :
  find_last_not_blank s = None ↔ all_blank s.
Proof.
  induction s as [|c s IH]; [split; [intros; apply all_blank_nil|done]|].
  simpl. rewrite all_blank_cons.
  destruct (find_last_not_blank s) as [j|].
  - split; [done|]. intros [_ Hs]. by apply IH in Hs.
  - destruct (is_blank c); [|split; [done|by intros [? _]]].
    split; [|done]. intros _. split; [done|]. by apply IH.
Qed.

Lemma trim_line_blank_head (ch : ascii) (line : string) :
  is_blank ch = true → trim_line (String ch line) = trim_line line.
Proof.
  intros Hch. unfold trim_line. simpl. rewrite Hch.
  destruct (find_first_not_blank line) as [a|] eqn:Hfirst; [|done]. simpl.
  destruct (find_last_not_blank line) as [j|] eqn:Hlast; [done|].
  apply find_last_not_blank_None, find_first_not_blank_None in Hlast.
  congruence.
Qed.

Lemma trim_line_spec (line t : string) :
  trim_line line = Some t →
  ∃ pre post,
    line = pre +:+ t +:+ post ∧ all_blank pre ∧ all_blank post ∧ trimmed t.
Proof.
  induction line as [|c line IH]; [done|].
  destruct (is_blank c) eqn:Hc.
  - rewrite trim_line_blank_head by done. intros Htrim.
    destruct (IH Htrim) as (pre & post & -> & Hpre & Hpost & Ht).
    exists (String c pre), post. split; [done|].
    split; [by apply all_blank_cons|done].
  - unfold trim_line. simpl find_first_not_blank. rewrite Hc.
    pose proof (find_last_not_blank_spec (String c line)) as Hlast.
    destruct (find_last_not_blank (String c line)) as [j|] eqn:Hj.
    2: { apply all_blank_cons in Hlast as [? _]. congruence. }
    simpl default. rewrite Nat.sub_0_r, Nat.add_1_r. intros [= <-].
    destruct Hlast as (post & ch & Heq & Hpost & Hlen & Hget & Hch).
    exists EmptyString, post. split; [exact Heq|].
    split; [apply all_blank_nil|]. split; [done|]. split.
    + exists c. by split.
    + exists ch.
      change (String c (substring 0 j line))
        with (substring 0 (S j) (String c line)).
      rewrite Hlen. replace (S j - 1)%nat with j by lia. by split.
Qed.

Lemma trim_line_None (line : string) : trim_line line = None ↔ all_blank line.
Proof.
  unfold trim_line. rewrite <- find_first_not_blank_None.
  by destruct (find_first_not_blank line).
Qed.

Lemma trimmed_first_not_blank (t : string) :
  trimmed t → find_first_not_blank t = Some 0%nat.
Proof.
  intros [(ch & Hget & Hch) _]. destruct t as [|c t]; [done|].
  simpl in Hget. injection Hget as ->. simpl. by rewrite Hch.
Qed.

Lemma get_app_last (s post : string) (c : ascii) :
  String.get (String.length (s +:+ String c post) - 1) (s +:+ String c post)
  = String.get (String.length post) (String c post).
Proof.
  induction s as [|x s IH].
  - simpl. by rewrite Nat.sub_0_r.
  - change (String x s +:+ String c post) with (String x (s +:+ String c post)).
    rewrite <- IH. cbn [String.length]. rewrite Nat.sub_succ, Nat.sub_0_r.
    destruct (String.length (s +:+ String c post)) as [|n] eqn:Hlen.
    { destruct s; discriminate Hlen. }
    by rewrite Nat.sub_succ, Nat.sub_0_r.
Qed.

Lemma all_blank_last (post : string) (c : ascii) :
  all_blank (String c post) →
  ∃ ch, String.get (String.length post) (String c post) = Some ch
        ∧ is_blank ch = true.
Proof.
  revert c. induction post as [|x post IH]; intros c Hall.
  - exists c. split; [done|]. by apply (Hall 0%nat).
  - apply all_blank_cons in Hall as [_ Hall].
    destruct (IH x Hall) as (ch & Hget & Hch). by exists ch.
Qed.

Lemma append_empty_r (s : string) : s +:+ EmptyString = s.
Proof.
  induction s as [|c s IH]; [done|].
  change (String c (s +:+ EmptyString) = String c s). by rewrite IH.
Qed.

Lemma trim_line_trimmed (t : string) : trimmed t → trim_line t = Some t.
Proof.
  intros Ht. pose proof Ht as [_ (last & Hlast & Hnb)].
  unfold trim_line. rewrite (trimmed_first_not_blank t Ht).
  pose proof (find_last_not_blank_spec t) as Hspec.
  destruct (find_last_not_blank t) as [j|].
  2: { destruct Ht as [(ch & Hget & Hch) _].
       apply Hspec in Hget. congruence. }
  destruct Hspec as (post & ch & Heq & Hpost & _).
  simpl default. rewrite Nat.sub_0_r, Nat.add_1_r.
  destruct post as [|c post]; [by rewrite append_empty_r in Heq; rewrite <- Heq|].
  exfalso. rewrite Heq, get_app_last in Hlast.
  destruct (all_blank_last post c Hpost) as (x & Hx & Hxb). congruence.
Qed.

Lemma read_lines_trimmed (stdin_lines : list string) :
  Forall trimmed (read_lines stdin_lines).
Proof.
  apply Forall_forall. intros t (line & _ & Htrim)%list_elem_of_omap.
  by destruct (trim_line_spec line t Htrim) as (_ & _ & _ & _ & _ & ?).
Qed.

Lemma omap_id_on {A : Type} (f : A → option A) (l : list A) :
  Forall (λ x, f x = Some x) l → omap f l = l.
Proof.
  induction 1 as [|x l Hx _ IH]; [done|]. simpl. rewrite Hx.
  f_equal. exact IH.
Qed.

Lemma read_lines_nil (stdin_lines : list string) :
  read_lines stdin_lines = [] ↔ Forall all_blank stdin_lines.
Proof.
  unfold read_lines. induction stdin_lines as [|line l IH]; [done|].
  simpl. rewrite Forall_cons, <- IH, <- trim_line_None.
  destruct (trim_line line); split; try done; by intros [? ?].
Qed.

(** X2.  The loop that reads standard input skips exactly the lines made
    of spaces and tabs only; every line it keeps is the input line without
    its leading and trailing spaces and tabs, hence not empty; and reading
    the kept lines again keeps them all unchanged. *)
Theorem read_lines_strips_blanks (stdin_lines : list string) :
  (∀ line, trim_line line = None ↔ all_blank line)
  ∧ (∀ t, t ∈ read_lines stdin_lines →
          trimmed t
          ∧ ∃ line pre post,
              line ∈ stdin_lines ∧ line = pre +:+ t +:+ post
              ∧ all_blank pre ∧ all_blank post)
  ∧ (read_lines stdin_lines = [] ↔ Forall all_blank stdin_lines)
  ∧ read_lines (read_lines stdin_lines) = read_lines stdin_lines.
Proof.
  split; [apply trim_line_None|]. split; [|split; [apply read_lines_nil|]].
  - intros t (line & Hin & Htrim)%list_elem_of_omap.
    destruct (trim_line_spec line t Htrim) as (pre & post & Heq & Hpre & Hpost & Ht).
    split; [done|]. by exists line, pre, post.
  - apply omap_id_on. eapply Forall_impl; [apply read_lines_trimmed|].
    apply trim_line_trimmed.
Qed.

Lemma read_lines_strips_blanks_witness :
  read_lines ["  *apple "; "   "; "pear"]%string = ["*apple"; "pear"]%string
  ∧ trimmed "*apple"
  ∧ read_lines (read_lines ["  *apple "; "   "; "pear"]%string)
    = ["*apple"; "pear"]%string.
Proof.
  destruct (read_lines_strips_blanks ["  *apple "; "   "; "pear"]%string)
    as (_ & Hkept & _ & Hagain).
  split; [reflexivity|]. split; [|exact Hagain].
  apply (Hkept "*apple"%string). vm_compute. by left.
Defined.

(** ** Parsing the words and choosing the grid *)

Lemma normalizeWord_app (a b : string) :
  normalizeWord (a +:+ b) = normalizeWord a +:+ normalizeWord b.
Proof.
  induction a as [|c a IH]; [done|].
  change (String c a +:+ b) with (String c (a +:+ b)).
  cbn [normalizeWord]. rewrite IH. by destruct (isalpha c).
Qed.

Lemma normalizeWord_blank (s : string) :
  all_blank s → normalizeWord s = EmptyString.
Proof.
  induction s as [|c s IH]; [done|].
  intros [Hc Hs]%all_blank_cons. cbn [normalizeWord]. rewrite (IH Hs).
  unfold is_blank in Hc. apply orb_true_iff in Hc as [Hc|Hc];
    apply Ascii.eqb_eq in Hc; by subst c.
Qed.

Lemma parse_entry_spec (raw : string) :
  match parse_entry raw with
  | None => normalizeWord raw = EmptyString
  | Some (w, required) =>
      w = normalizeWord raw ∧ w ≠ EmptyString
      ∧ (required = true ↔ String.get 0 raw = Some "*"%char)
  end.
Proof.
  unfold parse_entry. destruct raw as [|ch s]; [done|].
  destruct (Ascii.eqb_spec ch "*"%char) as [->|Hne].
  - change (normalizeWord (String "*" s)) with (normalizeWord s).
    destruct (normalizeWord s); [done|]. by repeat split.
  - destruct (normalizeWord (String ch s)); [done|].
    repeat split; [done|done|]. simpl. intros [= ?]. done.
Qed.

Lemma parse_entries_spec (input_lines : list string) :
  map fst (omap parse_entry input_lines)
  = filter (λ w, w ≠ EmptyString) (map normalizeWord input_lines)
  ∧ length (map snd (omap parse_entry input_lines))
    = length (map fst (omap parse_entry input_lines)).
Proof.
  split; [|by rewrite !length_map].
  induction input_lines as [|raw l IH]; [done|].
  pose proof (parse_entry_spec raw) as Hraw.
  cbn [omap list_omap map]. rewrite filter_cons.
  destruct (parse_entry raw) as [[w req]|].
  - destruct Hraw as (-> & Hne & _). rewrite decide_True by done.
    cbn [map fst]. f_equal. exact IH.
  - rewrite Hraw, decide_False by (by intros ?). exact IH.
Qed.

Lemma foldl_max_bound (words : list string) :
  ∀ m, m ≤ foldl (λ m w, Z.max m (Z.of_nat (String.length w))) m words
       ∧ Forall (λ w, Z.of_nat (String.length w)
                      ≤ foldl (λ m w, Z.max m (Z.of_nat (String.length w)))
                          m words) words.
Proof.
  induction words as [|w words IH]; intros m; [by split|].
  cbn [foldl]. destruct (IH (Z.max m (Z.of_nat (String.length w)))) as [Hm Hall].
  split; [lia|]. constructor; [lia|done].
Qed.

Lemma main_plan_Solve (ceil_sqrt : Z → Z) (cli_rows cli_cols runtime_ms : Z)
    (stdin_lines : list string) (words : list string)
    (required_flags : list bool) (rows cols limit : Z) :
  main_plan ceil_sqrt cli_rows cli_cols runtime_ms stdin_lines
    = Solve words required_flags rows cols limit →
  limit = runtime_ms
  ∧ words = filter (λ w, w ≠ EmptyString)
              (map normalizeWord (read_lines stdin_lines))
  ∧ words ≠ []
  ∧ length required_flags = length words
  ∧ (0 < cli_rows ∧ 0 < cli_cols → rows = cli_rows ∧ cols = cli_cols)
  ∧ (cli_rows ≤ 0 ∨ cli_cols ≤ 0 →
     rows = cols ∧ 10 ≤ rows
     ∧ Forall (λ w, Z.of_nat (String.length w) ≤ rows) words).
Proof.
  unfold main_plan. destruct (read_lines stdin_lines) as [|l0 ls] eqn:Hlines;
    [done|].
  destruct (parse_entries_spec (l0 :: ls)) as [Hwords Hlen].
  set (entries := omap parse_entry (l0 :: ls)) in *.
  destruct (map fst entries) as [|w0 ws] eqn:Hfst; [done|].
  pose proof (foldl_max_bound (w0 :: ws) 0) as [_ Hbound].
  destruct ((cli_rows <=? 0) || (cli_cols <=? 0)) eqn:Hcli;
    intros [= <- <- <- <- <-].
  - apply orb_true_iff in Hcli. rewrite !Z.leb_le in Hcli.
    repeat split; [done|done|done|lia|lia|lia|].
    eapply Forall_impl; [exact Hbound|]. intros w Hw. simpl in Hw. lia.
  - apply orb_false_iff in Hcli as [H1%Z.leb_gt H2%Z.leb_gt].
    repeat split; (done || lia).
Qed.

Lemma normalized_words_clean (lines : list string) :
  Forall (λ w, uppercase_word w ∧ w ≠ EmptyString)
    (filter (λ w, w ≠ EmptyString) (map normalizeWord lines)).
Proof.
  apply Forall_forall. intros w [Hne Hin]%list_elem_of_filter.
  split; [|done]. apply list_elem_of_In, in_map_iff in Hin as (line & <- & _).
  apply normalizeWord_uppercase.
Qed.

(** X3.  A line of input gives a word exactly when it has a letter; the
    word is the line with every non-letter dropped and every letter in upper
    case, whether or not the line begins with a star; and the word is
    required exactly when the first character of the line is a star. *)
Theorem parse_entry_word_and_flag (raw : string) :
  (parse_entry raw = None ↔ normalizeWord raw = EmptyString)
  ∧ (∀ w required, parse_entry raw = Some (w, required) →
       w = normalizeWord raw ∧ w ≠ EmptyString ∧ uppercase_word w
       ∧ (required = true ↔ String.get 0 raw = Some "*"%char)).
Proof.
  pose proof (parse_entry_spec raw) as Hspec. split.
  - destruct (parse_entry raw) as [[w req]|]; [|done].
    destruct Hspec as (-> & Hne & _). split; [done|]. by intros ?.
  - intros w required Heq. rewrite Heq in Hspec.
    destruct Hspec as (-> & Hne & Hreq).
    split; [done|]. split; [done|].
    split; [apply normalizeWord_uppercase|done].
Qed.

Lemma parse_entry_word_and_flag_witness :
  parse_entry "*ice-cream" = Some ("ICECREAM"%string, true)
  ∧ parse_entry "a*b" = Some ("AB"%string, false)
  ∧ parse_entry "*42" = None
  ∧ "ICECREAM"%string = normalizeWord "*ice-cream"
  ∧ uppercase_word "ICECREAM".
Proof.
  split; [reflexivity|]. split; [reflexivity|]. split; [reflexivity|].
  destruct (proj2 (parse_entry_word_and_flag "*ice-cream")
              "ICECREAM"%string true eq_refl) as (Hword & _ & Hupper & _).
  split; [exact Hword|exact Hupper].
Defined.

(** X4.  When [main] calls [generateWordSearch], there is one flag per
    word and at least one word, every word is a non-empty string of the
    letters ['A'] to ['Z'], and the grid has at least one row and one
    column: the dimensions of the command line when both are positive,
    otherwise a square grid at least 10 wide and at least as wide as the
    longest word. *)
Theorem main_calls_with_valid_input
    (ceil_sqrt : Z → Z) (cli_rows cli_cols runtime_ms : Z)
    (stdin_lines : list string) (words : list string)
    (required_flags : list bool) (rows cols limit : Z) :
  main_plan ceil_sqrt cli_rows cli_cols runtime_ms stdin_lines
    = Solve words required_flags rows cols limit →
  limit = runtime_ms
  ∧ length required_flags = length words
  ∧ words ≠ []
  ∧ Forall (λ w, uppercase_word w ∧ w ≠ EmptyString) words
  ∧ 0 < rows ∧ 0 < cols
  ∧ (0 < cli_rows ∧ 0 < cli_cols → rows = cli_rows ∧ cols = cli_cols)
  ∧ (cli_rows ≤ 0 ∨ cli_cols ≤ 0 →
     rows = cols ∧ 10 ≤ rows
     ∧ Forall (λ w, Z.of_nat (String.length w) ≤ rows) words).
Proof.
  intros (Hlimit & Hwords & Hne & Hlen & Hcli & Hdefault)%main_plan_Solve.
  split; [done|]. split; [done|]. split; [done|].
  split; [rewrite Hwords; apply normalized_words_clean|].
  split; [|split; [|by split]].
  - destruct (decide (0 < cli_rows ∧ 0 < cli_cols)) as [Hpos|Hnot].
    + destruct (Hcli Hpos) as [-> _]. lia.
    + destruct Hdefault as (_ & ? & _); lia.
  - destruct (decide (0 < cli_rows ∧ 0 < cli_cols)) as [Hpos|Hnot].
    + destruct (Hcli Hpos) as [_ ->]. lia.
    + destruct Hdefault as (<- & ? & _); lia.
Qed.

Lemma main_calls_with_valid_input_witness :
  main_plan (λ _, 4) 0 0 2000
    ["*APPLE"; "ORANGE"; ""; "*banana split"]%string
  = Solve ["APPLE"; "ORANGE"; "BANANASPLIT"]%string [true; false; true]
      11 11 2000
  ∧ length [true; false; true]
    = length ["APPLE"; "ORANGE"; "BANANASPLIT"]%string
  ∧ Forall (λ w, Z.of_nat (String.length w) ≤ 11)
      ["APPLE"; "ORANGE"; "BANANASPLIT"]%string.
Proof.
  split; [reflexivity|].
  destruct (main_calls_with_valid_input (λ _, 4) 0 0 2000
              ["*APPLE"; "ORANGE"; ""; "*banana split"]%string
              ["APPLE"; "ORANGE"; "BANANASPLIT"]%string [true; false; true]
              11 11 2000 eq_refl)
    as (_ & Hlen & _ & _ & _ & _ & _ & Hdefault).
  split; [exact Hlen|]. apply Hdefault. left. lia.
Defined.

(** X5.  [main] leaves with status 1, without calling
    [generateWordSearch], exactly when no line of the input has a letter. *)
Theorem main_exits_without_words
    (ceil_sqrt : Z → Z) (cli_rows cli_cols runtime_ms : Z)
    (stdin_lines : list string) :
  (∃ message,
     main_plan ceil_sqrt cli_rows cli_cols runtime_ms stdin_lines
     = Exit 1 message)
  ↔ Forall (λ line, normalizeWord line = EmptyString) stdin_lines.
Proof.
  assert (filter (λ w, w ≠ EmptyString)
            (map normalizeWord (read_lines stdin_lines)) = []
          ↔ Forall (λ line, normalizeWord line = EmptyString) stdin_lines)
    as Hnone.
  { unfold read_lines.
    induction stdin_lines as [|line l IH]; [done|].
    rewrite Forall_cons, <- IH. cbn [omap list_omap].
    destruct (trim_line line) as [t|] eqn:Htrim.
    - destruct (trim_line_spec line t Htrim)
        as (pre & post & -> & Hpre & Hpost & _).
      rewrite !normalizeWord_app, (normalizeWord_blank pre Hpre),
        (normalizeWord_blank post Hpost), append_empty_r.
      cbn [map String.append]. rewrite filter_cons.
      destruct (decide (normalizeWord t ≠ EmptyString)) as [Hne|Heq].
      + split; [done|]. by intros [? _].
      + apply dec_stable in Heq. rewrite Heq. tauto.
    - apply trim_line_None, normalizeWord_blank in Htrim. tauto. }
  rewrite <- Hnone. unfold main_plan.
  destruct (read_lines stdin_lines) as [|l0 ls] eqn:Hlines.
  { split; [done|]. intros _. by eexists. }
  destruct (parse_entries_spec (l0 :: ls)) as [-> _].
  destruct (filter _ (map normalizeWord (l0 :: ls))) as [|w0 ws].
  { split; [done|]. intros _. by eexists. }
  split; [|done]. intros [message Hexit].
  by destruct ((cli_rows <=? 0) || (cli_cols <=? 0)).
Qed.


(** ** The search: invariants that depend on the remaining words *)

Section SearchInvariantRest.

Context (rows cols limit : Z) (elapsed : nat → Z).
Context (srt : ∀ A : Type, (A → A → bool) → list A → list A).
Context (words : list string).
Context (Node : list nat → Grid → list WordPlacement → Prop).
Context (Inv : PuzzleResult → Prop).

Hypothesis Inv_record : ∀ rest g pls b,
  Node rest g pls → Inv b → Inv (record_best rows cols g pls b).

Hypothesis Node_skip : ∀ i rest g pls, Node (i :: rest) g pls → Node rest g pls.

Hypothesis Node_place : ∀ i rest g pls w cands cand g',
  Node (i :: rest) g pls → words !! i = Some w →
  ranked_candidates rows cols srt g w = Some cands → cand ∈ cands →
  placeWord g w (cand_r cand) (cand_c cand) (cand_dr cand) (cand_dc cand)
    = Some g' →
  Node rest g' (pls ++ [mkWordPlacement w (cand_r cand) (cand_c cand)
                          (cand_dr cand) (cand_dc cand)]).

Lemma try_candidates_invariant_rest
    (recur : Grid → list WordPlacement → SearchState → option SearchState)
    (i : nat) (rest : list nat) (g : Grid) (w : string)
    (pls : list WordPlacement) (all : list Candidate) :
  (∀ g' pls' st st', Node rest g' pls' → Inv (best_result st) →
                     recur g' pls' st = Some st' → Inv (best_result st')) →
  Node (i :: rest) g pls → words !! i = Some w →
  ranked_candidates rows cols srt g w = Some all →
  ∀ cands st ret st',
    cands ⊆ all → Inv (best_result st) →
    try_candidates limit elapsed recur g w i pls cands st = Some (ret, st') →
    Inv (best_result st').
Proof.
  intros Hrecur Hnode Hw Hall.
  induction cands as [|cand cands IH]; intros st ret st' Hsub Hinv Hrun.
  - rewrite try_candidates_nil in Hrun. by injection Hrun as _ <-.
  - rewrite try_candidates_cons in Hrun.
    destruct (fst (hasTimedOut limit elapsed st)).
    { by injection Hrun as _ <-. }
    destruct (placeWord g w (cand_r cand) (cand_c cand) (cand_dr cand)
                (cand_dc cand)) as [g'|] eqn:Hplace; [|done].
    option_step in Hrun.
    destruct (set_used_flag i true _) as [st1|] eqn:H1; [|done].
    option_step in Hrun.
    destruct (recur g' _ st1) as [st2|] eqn:H2; [|done]. option_step in Hrun.
    destruct (set_used_flag i false st2) as [st3|] eqn:H3; [|done].
    option_step in Hrun.
    apply (IH st3 ret st'); [set_solver| |done].
    rewrite (set_used_flag_best _ _ _ _ H3).
    eapply Hrecur; [|  |exact H2].
    + eapply Node_place; [done..|set_solver|done].
    + by rewrite (set_used_flag_best _ _ _ _ H1).
Qed.

Lemma solvePuzzleRecursively_invariant_rest (rest : list nat) :
  ∀ g pls st st',
    Node rest g pls → Inv (best_result st) →
    solvePuzzleRecursively rows cols limit elapsed srt words rest g pls st
      = Some st' →
    Inv (best_result st').
Proof.
  induction rest as [|i rest IH]; intros g pls st st' Hnode Hinv Hrun.
  - rewrite solvePuzzleRecursively_nil in Hrun.
    destruct (fst (hasTimedOut limit elapsed st)); injection Hrun as <-;
      [done|]. simpl. by eapply Inv_record.
  - rewrite solvePuzzleRecursively_cons in Hrun.
    destruct (fst (hasTimedOut limit elapsed st)).
    { by injection Hrun as <-. }
    cbv zeta in Hrun.
    set (st1 := set_best (record_best rows cols g pls (best_result st))
                  (snd (hasTimedOut limit elapsed st))) in *.
    assert (Inv (best_result st1)) as Hinv1 by (by eapply Inv_record).
    destruct (_ <=? num_placed (best_result st1)).
    { by injection Hrun as <-. }
    destruct (words !! i) as [w|] eqn:Hw; [|done]. option_step in Hrun.
    destruct (ranked_candidates rows cols srt g w) as [cands|] eqn:Hc;
      [|done]. option_step in Hrun.
    destruct (try_candidates _ _ _ _ _ _ _ _ _) as [[ret st2]|] eqn:Htry;
      [|done]. option_step in Hrun.
    assert (Inv (best_result st2)) as Hinv2.
    { eapply (try_candidates_invariant_rest _ i rest g w pls cands); [|done..].
      intros g' pls' s s' Hn Hi Hr. by eapply IH. }
    destruct ret; [by injection Hrun as <-|].
    destruct (fst (hasTimedOut limit elapsed st2)).
    { by injection Hrun as <-. }
    eapply IH; [by eapply Node_skip| |exact Hrun]. done.
Qed.

End SearchInvariantRest.

(** ** Every solution comes from the decision tree *)

Lemma achievable_skip_all (rows cols : Z) (words : list string)
    (rest : list nat) (g : Grid) :
  achievable rows cols words rest g [].
Proof. induction rest; by constructor. Qed.

Lemma achievable_length (rows cols : Z) (words : list string)
    (rest : list nat) (g : Grid) (pls : list WordPlacement) :
  achievable rows cols words rest g pls → (length pls ≤ length rest)%nat.
Proof. induction 1; simpl; lia. Qed.

Lemma search_result_achievable (elapsed : nat → Z)
    (srt : ∀ A : Type, (A → A → bool) → list A → list A)
    (words : list string) (required_flags : list bool)
    (rows cols runtime_ms : Z) (st : SearchState) :
  std_sort_spec srt →
  search_result elapsed srt words required_flags rows cols runtime_ms = Some st →
  ∃ word_order,
    word_order_of srt words required_flags = Some word_order
    ∧ achievable rows cols words word_order (blank_grid rows cols)
        (placements (best_result st)).
Proof.
  intros Hsrt (_ & _ & order & Horder & Hrun)%search_result_Some.
  exists order. split; [done|].
  apply (solvePuzzleRecursively_invariant_rest rows cols runtime_ms elapsed srt
           words
           (λ rest g pls,
              grid_shape rows cols g
              ∧ ∀ tail, achievable rows cols words rest g tail →
                        achievable rows cols words order (blank_grid rows cols)
                          (pls ++ tail))
           (λ b, achievable rows cols words order (blank_grid rows cols)
                   (placements b)))
    with (rest := order) (g := blank_grid rows cols) (pls := [])
         (st := initial_state words); [| | | |apply achievable_skip_all|done].
  - intros rest g pls b [_ Hnode] Hb. unfold record_best.
    destruct (_ || _); [|done]. simpl.
    rewrite <- (app_nil_r pls). apply Hnode, achievable_skip_all.
  - intros i rest g pls [Hshape Hnode]. split; [done|].
    intros tail Htail. by apply Hnode, achievable_skip.
  - intros i rest g pls w cands cand g' [Hshape Hnode] Hw Hranked Hcand Hplace.
    destruct (ranked_candidates_spec rows cols srt g w Hshape Hsrt)
      as (enum & cands' & _ & Hranked' & _ & _ & Hfeas & _).
    rewrite Hranked in Hranked'. injection Hranked' as <-.
    apply Hfeas in Hcand as (Hr & Hc & Hdir & Hcan).
    pose proof Hcan as [Hfit _]%canPlaceWord_fits; [|done].
    destruct (placeWord_spec w g (cand_r cand) (cand_c cand) (cand_dr cand)
                (cand_dc cand) (placement_fits_present _ _ _ _ _ _ _ _ Hfit))
      as (g'' & Hplace' & _ & _ & Hshape').
    rewrite Hplace in Hplace'. injection Hplace' as <-.
    split; [by apply Hshape'|]. intros tail Htail.
    rewrite <- app_assoc. apply Hnode. simpl. by econstructor.
  - split; [apply blank_grid_shape|]. by intros tail.
Qed.

Lemma achievable_shape (rows cols : Z) (words : list string)
    (rest : list nat) (g : Grid) (pls : list WordPlacement) :
  achievable rows cols words rest g pls →
  Forall (λ p, (delta_row p, delta_col p) ∈ DIRECTIONS
               ∧ 0 ≤ row p < rows ∧ 0 ≤ col p < cols) pls
  ∧ sublist (map word pls) (omap (λ i, words !! i) rest).
Proof.
  induction 1 as [g|i rest g pls _ [IH1 IH2]
                 |i rest g pls w r c dr dc ov g' Hw Hr Hc Hd _ _ _ [IH1 IH2]].
  - split; [constructor|]. simpl. constructor.
  - split; [done|]. cbn [omap list_omap].
    destruct (words !! i); [by constructor|done].
  - split; [by constructor|]. cbn [omap list_omap map]. rewrite Hw.
    by constructor.
Qed.

Lemma generateWordSearch_fields (elapsed : nat → Z) (rand_draw : nat → Z)
    (srt : ∀ A : Type, (A → A → bool) → list A → list A)
    (words : list string) (required_flags : list bool)
    (rows cols runtime_ms : Z) (st : SearchState) (res : PuzzleResult) :
  search_result elapsed srt words required_flags rows cols runtime_ms = Some st →
  generateWordSearch elapsed rand_draw srt words required_flags
    rows cols runtime_ms = Some res →
  placements res = placements (best_result st)
  ∧ num_placed res = num_placed (best_result st)
  ∧ total_overlap_score res = total_overlap_score (best_result st).
Proof.
  intros Hsearch (st0 & filled & Hsearch0 & _ & ->)%generateWordSearch_Some.
  rewrite Hsearch in Hsearch0. by injection Hsearch0 as <-.
Qed.

Lemma filter_disjoint_length {A : Type} (P Q : A → Prop)
    `{!∀ x, Decision (P x)} `{!∀ x, Decision (Q x)} (l : list A) :
  (∀ x, P x → Q x → False) →
  (length (filter P l) + length (filter Q l) ≤ length l)%nat.
Proof.
  intros Hdisj. induction l as [|x l IH]; [done|].
  rewrite !filter_cons.
  destruct (decide (P x)) as [HP|]; destruct (decide (Q x)) as [HQ|];
    simpl; try lia.
  destruct (Hdisj x HP HQ).
Qed.

Lemma word_order_of_length
    (srt : ∀ A : Type, (A → A → bool) → list A → list A)
    (words : list string) (required_flags : list bool) (order : list nat) :
  std_sort_spec srt → length required_flags = length words →
  word_order_of srt words required_flags = Some order →
  (length order ≤ length words)%nat.
Proof.
  intros Hsrt Hlen Horder.
  destruct (word_order_of_spec srt words required_flags Hsrt Hlen)
    as (req & opt & Hrun & Hreq & Hopt & _).
  rewrite Horder in Hrun. injection Hrun as ->.
  rewrite length_app, Hreq, Hopt.
  etransitivity; [apply filter_disjoint_length; congruence|].
  by rewrite length_seq.
Qed.

(** X6.  Whatever the clock does, the placements of the best solution are
    a path of the decision tree of the search: walking the word order from
    the blank grid, every word is skipped or placed where the feasibility
    check succeeds on what the earlier placements have written.  So every
    placement starts at a cell of the grid and runs in one of the eight
    directions, the placed words are, in order, a subsequence of the words
    in attempt order, and no more words are placed than were given. *)
Theorem result_is_a_search_path (elapsed : nat → Z)
    (srt : ∀ A : Type, (A → A → bool) → list A → list A)
    (words : list string) (required_flags : list bool)
    (rows cols runtime_ms : Z) (st : SearchState) :
  std_sort_spec srt → length required_flags = length words →
  search_result elapsed srt words required_flags rows cols runtime_ms = Some st →
  ∃ word_order,
    word_order_of srt words required_flags = Some word_order
    ∧ achievable rows cols words word_order (blank_grid rows cols)
        (placements (best_result st))
    ∧ Forall (λ p, (delta_row p, delta_col p) ∈ DIRECTIONS
                   ∧ 0 ≤ row p < rows ∧ 0 ≤ col p < cols)
        (placements (best_result st))
    ∧ sublist (map word (placements (best_result st)))
        (omap (λ i, words !! i) word_order)
    ∧ num_placed (best_result st) ≤ Z.of_nat (length words).
Proof.
  intros Hsrt Hlen Hsearch.
  destruct (search_result_achievable _ _ _ _ _ _ _ _ Hsrt Hsearch)
    as (order & Horder & Hpath).
  exists order. split; [done|]. split; [done|].
  destruct (achievable_shape _ _ _ _ _ _ Hpath) as [Hdirs Hsub].
  split; [done|]. split; [done|].
  destruct (search_result_counters _ _ _ _ _ _ _ _ Hsearch) as [-> _].
  apply achievable_length in Hpath.
  pose proof (word_order_of_length srt words required_flags order Hsrt Hlen
                Horder).
  lia.
Qed.

Lemma result_is_a_search_path_witness :
  ∃ st,
    std_sort_spec stable_sort
    ∧ length [true; true; false] = length ["CAT"; "CAR"; "ARC"]%string
    ∧ search_result never_late stable_sort ["CAT"; "CAR"; "ARC"]%string
        [true; true; false] 3 3 1000 = Some st
    ∧ map word (placements (best_result st)) = ["CAR"; "CAT"; "ARC"]%string
    ∧ ∃ word_order,
        word_order_of stable_sort ["CAT"; "CAR"; "ARC"]%string
          [true; true; false] = Some word_order
        ∧ achievable 3 3 ["CAT"; "CAR"; "ARC"]%string word_order
            (blank_grid 3 3) (placements (best_result st))
        ∧ Forall (λ p, (delta_row p, delta_col p) ∈ DIRECTIONS
                       ∧ 0 ≤ row p < 3 ∧ 0 ≤ col p < 3)
            (placements (best_result st))
        ∧ sublist (map word (placements (best_result st)))
            (omap (λ i, ["CAT"; "CAR"; "ARC"]%string !! i) word_order)
        ∧ num_placed (best_result st)
          ≤ Z.of_nat (length ["CAT"; "CAR"; "ARC"]%string).
Proof.
  eexists. split; [apply stable_sort_spec|]. split; [reflexivity|].
  split; [vm_compute; reflexivity|]. split; [reflexivity|].
  apply (result_is_a_search_path never_late stable_sort
           ["CAT"; "CAR"; "ARC"]%string [true; true; false] 3 3 1000);
    [apply stable_sort_spec|reflexivity|vm_compute; reflexivity].
Defined.

(** ** With enough time the search places as many words as can be placed *)

Lemma hasTimedOut_never (limit : Z) (elapsed : nat → Z) (st : SearchState) :
  never_expires limit elapsed → fst (hasTimedOut limit elapsed st) = false.
Proof. intros Hnever. simpl. apply Z.leb_gt, Hnever. Qed.

Lemma record_best_count (rows cols : Z) (g : Grid) (pls : list WordPlacement)
    (b : PuzzleResult) :
  Z.of_nat (length pls) ≤ num_placed (record_best rows cols g pls b)
  ∧ num_placed b ≤ num_placed (record_best rows cols g pls b).
Proof.
  destruct (lex_lt_dec (rank b)
              (Z.of_nat (length pls), calculateOverlapScore rows cols pls))
    as [Hlt|Hnlt].
  - rewrite record_best_replaced by done. simpl.
    unfold lex_lt, rank in Hlt. simpl in Hlt. lia.
  - rewrite record_best_kept by done.
    unfold lex_lt, rank in Hnlt. simpl in Hnlt. lia.
Qed.

Lemma solvePuzzleRecursively_count (rows cols limit : Z) (elapsed : nat → Z)
    (srt : ∀ A : Type, (A → A → bool) → list A → list A)
    (words : list string) (rest : list nat) (g : Grid)
    (pls : list WordPlacement) (st st' : SearchState) :
  solvePuzzleRecursively rows cols limit elapsed srt words rest g pls st
    = Some st' →
  num_placed (best_result st) ≤ num_placed (best_result st').
Proof.
  intros [->|Hlt]%solvePuzzleRecursively_rank; [done|].
  unfold lex_lt, rank in Hlt. simpl in Hlt. lia.
Qed.

Lemma placeWord_shape (rows cols : Z) (w : string) :
  ∀ g r c dr dc g',
    placeWord g w r c dr dc = Some g' →
    grid_shape rows cols g → grid_shape rows cols g'.
Proof.
  induction w as [|ch w IH]; intros g r c dr dc g' Hrun Hshape.
  - simpl in Hrun. by injection Hrun as <-.
  - simpl in Hrun. destruct (grid_set g r c ch) as [g1|] eqn:Hset; [|done].
    option_step in Hrun. eapply IH; [exact Hrun|]. by eapply grid_set_shape.
Qed.

Lemma try_candidates_complete (rows cols limit : Z) (elapsed : nat → Z)
    (words : list string)
    (recur : Grid → list WordPlacement → SearchState → option SearchState)
    (rest : list nat) (g : Grid) (w : string) (i : nat)
    (pls : list WordPlacement) :
  never_expires limit elapsed →
  (∀ g' pls' st st', recur g' pls' st = Some st' →
     num_placed (best_result st) ≤ num_placed (best_result st')
     ∧ (grid_shape rows cols g' →
        ∀ tail, achievable rows cols words rest g' tail →
                Z.of_nat (length pls' + length tail)
                ≤ num_placed (best_result st'))) →
  ∀ cands st ret st',
    try_candidates limit elapsed recur g w i pls cands st = Some (ret, st') →
    ret = false
    ∧ num_placed (best_result st) ≤ num_placed (best_result st')
    ∧ ∀ cand g' tail,
        cand ∈ cands →
        placeWord g w (cand_r cand) (cand_c cand) (cand_dr cand) (cand_dc cand)
          = Some g' →
        grid_shape rows cols g' →
        achievable rows cols words rest g' tail →
        Z.of_nat (length pls + 1 + length tail) ≤ num_placed (best_result st').
Proof.
  intros Hnever Hrecur.
  induction cands as [|cand cands IH]; intros st ret st' Hrun.
  - rewrite try_candidates_nil in Hrun. injection Hrun as <- <-.
    split; [done|]. split; [done|]. by intros cand g' tail ?%elem_of_nil.
  - rewrite try_candidates_cons, hasTimedOut_never in Hrun by done.
    destruct (placeWord g w (cand_r cand) (cand_c cand) (cand_dr cand)
                (cand_dc cand)) as [g1|] eqn:Hplace; [|done].
    option_step in Hrun.
    destruct (set_used_flag i true _) as [st1|] eqn:H1; [|done].
    option_step in Hrun.
    destruct (recur g1 _ st1) as [st2|] eqn:H2; [|done]. option_step in Hrun.
    destruct (set_used_flag i false st2) as [st3|] eqn:H3; [|done].
    option_step in Hrun.
    destruct (IH st3 ret st' Hrun) as (Hret & Hmono & Hrest).
    destruct (Hrecur _ _ _ _ H2) as [Hmono2 Hfull].
    rewrite (set_used_flag_best _ _ _ _ H1), hasTimedOut_best in Hmono2.
    rewrite (set_used_flag_best _ _ _ _ H3) in Hmono.
    split; [done|]. split; [lia|].
    intros cand' g' tail [->|Hin]%elem_of_cons Hplace' Hshape Htail.
    + rewrite Hplace in Hplace'. injection Hplace' as <-.
      specialize (Hfull Hshape tail Htail).
      rewrite length_app in Hfull. simpl in Hfull. lia.
    + by eapply Hrest.
Qed.

Lemma solvePuzzleRecursively_complete (rows cols limit : Z) (elapsed : nat → Z)
    (srt : ∀ A : Type, (A → A → bool) → list A → list A)
    (words : list string) :
  std_sort_spec srt → never_expires limit elapsed →
  ∀ rest g pls st st',
    grid_shape rows cols g →
    solvePuzzleRecursively rows cols limit elapsed srt words rest g pls st
      = Some st' →
    ∀ tail, achievable rows cols words rest g tail →
            Z.of_nat (length pls + length tail) ≤ num_placed (best_result st').
Proof.
  intros Hsrt Hnever.
  induction rest as [|i rest IH]; intros g pls st st' Hshape Hrun tail Htail.
  - rewrite solvePuzzleRecursively_nil, hasTimedOut_never in Hrun by done.
    injection Hrun as <-. inversion Htail; subst. simpl.
    destruct (record_best_count rows cols g pls (best_result st)) as [Hc _].
    lia.
  - rewrite solvePuzzleRecursively_cons, hasTimedOut_never in Hrun by done.
    cbv zeta in Hrun.
    set (st1 := set_best (record_best rows cols g pls (best_result st))
                  (snd (hasTimedOut limit elapsed st))) in *.
    destruct (Z.leb_spec (Z.of_nat (length pls) + Z.of_nat (length (i :: rest)))
                (num_placed (best_result st1))) as [Hprune|Hgo].
    { injection Hrun as <-. apply achievable_length in Htail. lia. }
    destruct (words !! i) as [w|] eqn:Hw; [|done]. option_step in Hrun.
    destruct (ranked_candidates rows cols srt g w) as [cands|] eqn:Hc;
      [|done]. option_step in Hrun.
    destruct (try_candidates _ _ _ _ _ _ _ _ _) as [[ret st2]|] eqn:Htry;
      [|done]. option_step in Hrun.
    apply (try_candidates_complete rows cols limit elapsed words _ rest g w i
             pls Hnever) in Htry as (-> & Hmono & Hcands).
    2: { intros g' pls' s s' Hs. split.
         - by eapply solvePuzzleRecursively_count.
         - intros Hg' tl Htl. by eapply IH. }
    rewrite hasTimedOut_never in Hrun by done.
    inversion Htail as [|i' rest' g0 pls0 Hskip
                       |i' rest' g0 pls0 w' r c dr dc ov g' Hw' Hr Hcc Hd Hcan
                          Hplace Hrest]; subst.
    + by eapply IH.
    + rewrite Hw in Hw'. injection Hw' as <-.
      apply solvePuzzleRecursively_count in Hrun.
      rewrite hasTimedOut_best in Hrun.
      destruct (ranked_candidates_spec rows cols srt g w Hshape Hsrt)
        as (enum & cands' & _ & Hranked' & _ & _ & Hfeas & _).
      rewrite Hc in Hranked'. injection Hranked' as <-.
      specialize (Hcands (mkCandidate r c dr dc ov) g' pls0).
      simpl in Hcands.
      assert (Z.of_nat (length pls + 1 + length pls0)
              ≤ num_placed (best_result st2)) as Hfound.
      { apply Hcands; [|done| |done].
        - apply Hfeas. unfold feasible_candidate. simpl. tauto.
        - by eapply placeWord_shape. }
      simpl. lia.
Qed.

Lemma search_places_most_words_aux (elapsed : nat → Z)
    (srt : ∀ A : Type, (A → A → bool) → list A → list A)
    (words : list string) (required_flags : list bool)
    (rows cols runtime_ms : Z) (st : SearchState) :
  std_sort_spec srt → never_expires runtime_ms elapsed →
  search_result elapsed srt words required_flags rows cols runtime_ms = Some st →
  ∃ word_order,
    word_order_of srt words required_flags = Some word_order
    ∧ achievable rows cols words word_order (blank_grid rows cols)
        (placements (best_result st))
    ∧ num_placed (best_result st)
      = Z.of_nat (length (placements (best_result st)))
    ∧ ∀ pls, achievable rows cols words word_order (blank_grid rows cols) pls →
             (length pls ≤ length (placements (best_result st)))%nat.
Proof.
  intros Hsrt Hnever Hsearch.
  destruct (search_result_achievable _ _ _ _ _ _ _ _ Hsrt Hsearch)
    as (order & Horder & Hpath).
  destruct (search_result_counters _ _ _ _ _ _ _ _ Hsearch) as [Hcount _].
  exists order. split; [done|]. split; [done|]. split; [done|].
  intros pls Hpls.
  apply search_result_Some in Hsearch as (_ & _ & order' & Horder' & Hrun).
  rewrite Horder in Horder'. injection Horder' as <-.
  pose proof (solvePuzzleRecursively_complete rows cols runtime_ms elapsed srt
                words Hsrt Hnever order (blank_grid rows cols) [] _ _
                (blank_grid_shape rows cols) Hrun pls Hpls) as Hmost.
  simpl in Hmost. lia.
Qed.

(** X7.  When the clock never reaches the limit, no path of the decision
    tree places more words than the best solution of the search: the number
    of placed words is the largest that skipping or placing each word of the
    word order in turn can reach.  The prune of branches that cannot exceed
    the recorded count loses none of them. *)
Theorem search_places_most_words (elapsed : nat → Z)
    (srt : ∀ A : Type, (A → A → bool) → list A → list A)
    (words : list string) (required_flags : list bool)
    (rows cols runtime_ms : Z) (st : SearchState) :
  std_sort_spec srt → never_expires runtime_ms elapsed →
  search_result elapsed srt words required_flags rows cols runtime_ms = Some st →
  ∃ word_order,
    word_order_of srt words required_flags = Some word_order
    ∧ achievable rows cols words word_order (blank_grid rows cols)
        (placements (best_result st))
    ∧ num_placed (best_result st)
      = Z.of_nat (length (placements (best_result st)))
    ∧ ∀ pls, achievable rows cols words word_order (blank_grid rows cols) pls →
             (length pls ≤ length (placements (best_result st)))%nat.
Proof. apply search_places_most_words_aux. Qed.

Lemma never_late_never_expires : never_expires 1000 never_late.
Proof. intros k. unfold never_late. lia. Qed.

Lemma search_places_most_words_witness :
  ∃ st,
    std_sort_spec stable_sort
    ∧ never_expires 1000 never_late
    ∧ search_result never_late stable_sort ["CAT"; "ELEPHANT"]%string
        [false; true] 3 3 1000 = Some st
    ∧ length (placements (best_result st)) = 1%nat
    ∧ ∃ word_order,
        word_order_of stable_sort ["CAT"; "ELEPHANT"]%string [false; true]
          = Some word_order
        ∧ achievable 3 3 ["CAT"; "ELEPHANT"]%string word_order (blank_grid 3 3)
            (placements (best_result st))
        ∧ num_placed (best_result st)
          = Z.of_nat (length (placements (best_result st)))
        ∧ ∀ pls,
            achievable 3 3 ["CAT"; "ELEPHANT"]%string word_order
              (blank_grid 3 3) pls →
            (length pls ≤ length (placements (best_result st)))%nat.
Proof.
  eexists. split; [apply stable_sort_spec|].
  split; [apply never_late_never_expires|].
  split; [vm_compute; reflexivity|]. split; [reflexivity|].
  apply (search_places_most_words never_late stable_sort
           ["CAT"; "ELEPHANT"]%string [false; true] 3 3 1000);
    [apply stable_sort_spec|apply never_late_never_expires
    |vm_compute; reflexivity].
Defined.

(** ** When [generateWordSearch] returns *)

(** X8.  With one flag per word and dimensions that are not negative,
    the search returns, whatever the clock and whichever sorting function
    within the contract of [std::sort]: no index leaves [words],
    [required_flags], [used_flags] or a grid, and [used_flags] keeps one
    entry per word. *)
Theorem search_stays_in_range (elapsed : nat → Z)
    (srt : ∀ A : Type, (A → A → bool) → list A → list A)
    (words : list string) (required_flags : list bool)
    (rows cols runtime_ms : Z) :
  std_sort_spec srt → length required_flags = length words →
  0 ≤ rows → 0 ≤ cols →
  ∃ st,
    search_result elapsed srt words required_flags rows cols runtime_ms = Some st
    ∧ length (used_flags st) = length words.
Proof.
  intros Hsrt Hlen Hr Hc. unfold search_result.
  rewrite (proj2 (Z.ltb_ge rows 0) Hr), (proj2 (Z.ltb_ge cols 0) Hc). simpl.
  destruct (word_order_of_is_Some srt words required_flags Hlen)
    as [order Horder].
  rewrite Horder. option_step.
  apply (solvePuzzleRecursively_total rows cols runtime_ms elapsed srt words
           Hsrt order (blank_grid rows cols) [] (initial_state words)).
  - by eapply word_order_of_indices.
  - apply blank_grid_shape.
  - simpl. apply length_replicate.
Qed.

Lemma search_stays_in_range_witness :
  std_sort_spec reversing_sort
  ∧ length [true; false] = length ["CAT"; "ELEPHANT"]%string
  ∧ ∃ st,
      search_result (λ k, Z.of_nat k) reversing_sort
        ["CAT"; "ELEPHANT"]%string [true; false] 3 3 40 = Some st
      ∧ length (used_flags st) = length ["CAT"; "ELEPHANT"]%string.
Proof.
  split; [apply reversing_sort_spec|]. split; [reflexivity|].
  apply (search_stays_in_range (λ k, Z.of_nat k) reversing_sort
           ["CAT"; "ELEPHANT"]%string [true; false] 3 3 40);
    [apply reversing_sort_spec|reflexivity|lia|lia].
Defined.

(** X9.  On a grid with at least one cell, [generateWordSearch] has a
    result exactly when the search has recorded a solution with at least one
    word: otherwise the grid of the best solution is still the empty vector
    when the fill loop indexes it. *)
Theorem result_needs_a_placed_word (elapsed : nat → Z) (rand_draw : nat → Z)
    (srt : ∀ A : Type, (A → A → bool) → list A → list A)
    (words : list string) (required_flags : list bool)
    (rows cols runtime_ms : Z) :
  std_sort_spec srt → 0 < rows → 0 < cols →
  (is_Some (generateWordSearch elapsed rand_draw srt words required_flags
              rows cols runtime_ms)
   ↔ ∃ st, search_result elapsed srt words required_flags rows cols runtime_ms
           = Some st
           ∧ 0 < num_placed (best_result st))
  ∧ (∀ res, generateWordSearch elapsed rand_draw srt words required_flags
              rows cols runtime_ms = Some res →
            0 < num_placed res ∧ placements res ≠ []).
Proof.
  intros Hsrt Hr Hc. split.
  - split.
    + intros [res Hres].
      pose proof Hres as (st & filled & Hsearch & _ & _)%generateWordSearch_Some.
      exists st. split; [done|].
      destruct (search_result_replayed _ _ _ _ _ _ _ _ Hsrt Hsearch)
        as [(_ & _ & Hzero & _)|(Hpos & _)]; [|done].
      by rewrite (generateWordSearch_nothing_placed _ rand_draw _ _ _ _ _ _ _
                    Hsearch Hzero Hr Hc) in Hres.
    + intros (st & Hsearch & Hpos). by eapply generateWordSearch_returns.
  - intros res Hres.
    pose proof Hres as (st & filled & Hsearch & _ & _)%generateWordSearch_Some.
    destruct (generateWordSearch_fields _ _ _ _ _ _ _ _ _ _ Hsearch Hres)
      as (Hpls & Hnum & _).
    destruct (search_result_counters _ _ _ _ _ _ _ _ Hsearch) as [Hcount _].
    assert (0 < num_placed (best_result st)) as Hpos.
    { destruct (search_result_replayed _ _ _ _ _ _ _ _ Hsrt Hsearch)
        as [(_ & _ & Hzero & _)|(Hpos & _)]; [|done].
      by rewrite (generateWordSearch_nothing_placed _ rand_draw _ _ _ _ _ _ _
                    Hsearch Hzero Hr Hc) in Hres. }
    split; [lia|]. rewrite Hpls. intros Hnil. rewrite Hnil in Hcount.
    simpl in Hcount. lia.
Qed.

Lemma result_needs_a_placed_word_witness :
  std_sort_spec stable_sort
  ∧ generateWordSearch never_late always_A stable_sort ["ELEPHANT"%string]
      [true] 3 3 1000 = None
  ∧ ∃ res,
      generateWordSearch never_late always_A stable_sort
        ["CAT"; "ELEPHANT"]%string [false; true] 3 3 1000 = Some res
      ∧ 0 < num_placed res ∧ placements res ≠ [].
Proof.
  split; [apply stable_sort_spec|]. split; [reflexivity|].
  eexists. split; [vm_compute; reflexivity|].
  apply (proj2 (result_needs_a_placed_word never_late always_A stable_sort
                  ["CAT"; "ELEPHANT"]%string [false; true] 3 3 1000
                  stable_sort_spec ltac:(lia) ltac:(lia))).
  vm_compute. reflexivity.
Defined.

(** ** With enough time: a word that fits is placed *)

Lemma achievable_first (rows cols : Z) (words : list string)
    (rest : list nat) (g : Grid) (p : WordPlacement)
    (tail : list WordPlacement) :
  achievable rows cols words rest g (p :: tail) →
  word p ∈ words
  ∧ ∃ overlap,
      0 ≤ row p < rows ∧ 0 ≤ col p < cols
      ∧ (delta_row p, delta_col p) ∈ DIRECTIONS
      ∧ canPlaceWord rows cols g (word p) (row p) (col p)
          (delta_row p) (delta_col p) = Some (true, overlap).
Proof.
  remember (p :: tail) as pls eqn:Hpls.
  induction 1 as [g|i rest g pls _ IH
                 |i rest g pls w r c dr dc ov g' Hw Hr Hc Hd Hcan _ _ _];
    [done|by apply IH|].
  injection Hpls as <- <-. simpl.
  split; [by eapply list_elem_of_lookup_2|]. by exists ov.
Qed.

Lemma achievable_one (rows cols : Z) (words : list string)
    (rest : list nat) (g : Grid) (i : nat) (w : string)
    (r c dr dc overlap : Z) :
  i ∈ rest → words !! i = Some w →
  0 ≤ r < rows → 0 ≤ c < cols → (dr, dc) ∈ DIRECTIONS →
  canPlaceWord rows cols g w r c dr dc = Some (true, overlap) →
  achievable rows cols words rest g [mkWordPlacement w r c dr dc].
Proof.
  intros Hin Hw Hr Hc Hd Hcan.
  pose proof Hcan as [Hfit _]%canPlaceWord_loop_true.
  destruct (placeWord_spec w g r c dr dc
              (placement_fits_present _ _ _ _ _ _ _ _ Hfit))
    as (g' & Hplace & _).
  induction rest as [|j rest IH]; [by apply elem_of_nil in Hin|].
  apply elem_of_cons in Hin as [<-|Hin].
  - eapply achievable_place; [done..|apply achievable_skip_all].
  - by apply achievable_skip, IH.
Qed.

Lemma word_order_of_complete
    (srt : ∀ A : Type, (A → A → bool) → list A → list A)
    (words : list string) (required_flags : list bool) (order : list nat)
    (i : nat) :
  std_sort_spec srt → length required_flags = length words →
  word_order_of srt words required_flags = Some order →
  (i < length words)%nat → i ∈ order.
Proof.
  intros Hsrt Hlen Horder Hi.
  destruct (word_order_of_spec srt words required_flags Hsrt Hlen)
    as (req & opt & Hrun & Hreq & Hopt & _).
  rewrite Horder in Hrun. injection Hrun as ->.
  destruct (lookup_lt_is_Some_2 required_flags i) as [flag Hflag]; [lia|].
  apply elem_of_app. destruct flag; [left; rewrite Hreq|right; rewrite Hopt];
    apply list_elem_of_filter; (split; [done|apply elem_of_seq; lia]).
Qed.

Lemma enough_time_places_a_fitting_word_aux
    (elapsed : nat → Z) (rand_draw : nat → Z)
    (srt : ∀ A : Type, (A → A → bool) → list A → list A)
    (words : list string) (required_flags : list bool)
    (rows cols runtime_ms : Z) :
  std_sort_spec srt → never_expires runtime_ms elapsed →
  length required_flags = length words → 0 < rows → 0 < cols →
  (∃ res, generateWordSearch elapsed rand_draw srt words required_flags
            rows cols runtime_ms = Some res
          ∧ 0 < num_placed res)
  ↔ ∃ w, w ∈ words ∧ fits_blank rows cols w.
Proof.
  intros Hsrt Hnever Hlen Hr Hc.
  destruct (search_result_total elapsed srt words required_flags rows cols
              runtime_ms Hsrt Hlen ltac:(lia) ltac:(lia)) as [st Hsearch].
  destruct (search_places_most_words_aux elapsed srt words required_flags
              rows cols runtime_ms st Hsrt Hnever Hsearch)
    as (order & Horder & Hpath & Hcount & Hmost).
  split.
  - intros (res & Hres & Hpos).
    destruct (generateWordSearch_fields _ _ _ _ _ _ _ _ _ _ Hsearch Hres)
      as (_ & Hnum & _).
    destruct (placements (best_result st)) as [|p tail] eqn:Hpls;
      [simpl in Hcount; lia|].
    destruct (achievable_first _ _ _ _ _ _ _ Hpath) as (Hin & ov & ? & ? & ? & ?).
    exists (word p). split; [done|].
    by exists (row p), (col p), (delta_row p), (delta_col p), ov.
  - intros (w & Hin & r & c & dr & dc & ov & Hrr & Hcc & Hd & Hcan).
    apply list_elem_of_lookup in Hin as [i Hi].
    assert (i ∈ order) as Hio.
    { eapply word_order_of_complete; [done..|]. by eapply lookup_lt_Some. }
    pose proof (Hmost _ (achievable_one rows cols words order _ i w r c dr dc ov
                           Hio Hi Hrr Hcc Hd Hcan)) as Hone.
    simpl in Hone.
    destruct (generateWordSearch_returns elapsed rand_draw srt words
                required_flags rows cols runtime_ms st Hsrt Hsearch)
      as [res Hres]; [lia|].
    exists res. split; [done|].
    destruct (generateWordSearch_fields _ _ _ _ _ _ _ _ _ _ Hsearch Hres)
      as (_ & -> & _). lia.
Qed.

(** X10.  When the clock never reaches the limit, [generateWordSearch]
    has a result on a grid with at least one cell exactly when some word can
    be placed on the blank grid; the result then holds at least one word. *)
Theorem enough_time_places_a_fitting_word
    (elapsed : nat → Z) (rand_draw : nat → Z)
    (srt : ∀ A : Type, (A → A → bool) → list A → list A)
    (words : list string) (required_flags : list bool)
    (rows cols runtime_ms : Z) :
  std_sort_spec srt → never_expires runtime_ms elapsed →
  length required_flags = length words → 0 < rows → 0 < cols →
  (∃ res, generateWordSearch elapsed rand_draw srt words required_flags
            rows cols runtime_ms = Some res
          ∧ 0 < num_placed res)
  ↔ ∃ w, w ∈ words ∧ fits_blank rows cols w.
Proof. apply enough_time_places_a_fitting_word_aux. Qed.

Lemma enough_time_places_a_fitting_word_witness :
  std_sort_spec stable_sort
  ∧ never_expires 1000 never_late
  ∧ fits_blank 3 3 "CAT"
  ∧ ∃ res,
      generateWordSearch never_late always_A stable_sort
        ["ELEPHANT"; "CAT"]%string [true; false] 3 3 1000 = Some res
      ∧ 0 < num_placed res.
Proof.
  assert (fits_blank 3 3 "CAT") as Hfits.
  { exists 0, 0, 0, 1, 0. split; [lia|]. split; [lia|].
    split; [by left|reflexivity]. }
  split; [apply stable_sort_spec|].
  split; [apply never_late_never_expires|]. split; [exact Hfits|].
  apply (enough_time_places_a_fitting_word never_late always_A stable_sort
           ["ELEPHANT"; "CAT"]%string [true; false] 3 3 1000
           stable_sort_spec never_late_never_expires eq_refl
           ltac:(lia) ltac:(lia)).
  exists "CAT"%string. split; [|exact Hfits]. right. by left.
Defined.

Lemma blank_row_fits (rows cols : Z) (w : string) :
  0 < rows → Z.of_nat (String.length w) ≤ cols →
  ∃ overlap,
    canPlaceWord rows cols (blank_grid rows cols) w 0 0 0 1
    = Some (true, overlap).
Proof.
  intros Hr Hc. eexists. apply canPlaceWord_loop_true. split; [|reflexivity].
  intros k ch Hk.
  assert (k < String.length w)%nat as Hlt.
  { apply string_get_is_Some. by eexists. }
  assert (isInBounds rows cols (fst (cell_at 0 0 0 1 k))
            (snd (cell_at 0 0 0 1 k)) = true) as Hb.
  { unfold cell_at, isInBounds. simpl.
    repeat (apply andb_true_iff; split); lia. }
  split; [done|]. left.
  destruct (grid_get_in_shape rows cols (blank_grid rows cols) _ _
              (blank_grid_shape rows cols) Hb) as [e He].
  unfold grid_at. rewrite He. f_equal. by eapply (blank_grid_at rows cols (_, _)).
Qed.

(** X11.  When [main] chooses the grid itself (no positive [--rows] and
    [--cols]) and the clock never reaches the limit, [generateWordSearch]
    returns a puzzle with at least one word: the grid is wide enough for
    every word, so the first attempted word already fits on the blank
    grid. *)
Theorem main_default_grid_gives_a_puzzle
    (ceil_sqrt : Z → Z) (cli_rows cli_cols runtime_ms : Z)
    (stdin_lines : list string) (words : list string)
    (required_flags : list bool) (rows cols limit : Z)
    (elapsed : nat → Z) (rand_draw : nat → Z)
    (srt : ∀ A : Type, (A → A → bool) → list A → list A) :
  main_plan ceil_sqrt cli_rows cli_cols runtime_ms stdin_lines
    = Solve words required_flags rows cols limit →
  cli_rows ≤ 0 ∨ cli_cols ≤ 0 →
  std_sort_spec srt → never_expires limit elapsed →
  ∃ res,
    generateWordSearch elapsed rand_draw srt words required_flags
      rows cols limit = Some res
    ∧ 0 < num_placed res.
Proof.
  intros (_ & _ & Hne & Hlen & _ & Hdefault)%main_plan_Solve Hcli Hsrt Hnever.
  destruct (Hdefault Hcli) as (<- & Hten & Hwide).
  apply (enough_time_places_a_fitting_word_aux elapsed rand_draw srt words
           required_flags rows rows limit Hsrt Hnever Hlen); [lia|lia|].
  destruct words as [|w ws]; [done|].
  apply Forall_cons in Hwide as [Hw _].
  exists w. split; [by left|].
  destruct (blank_row_fits rows rows w ltac:(lia) Hw) as [ov Hcan].
  exists 0, 0, 0, 1, ov. split; [lia|]. split; [lia|].
  split; [by left|done].
Qed.

Lemma main_default_grid_gives_a_puzzle_witness :
  main_plan (λ _, 4) 0 0 1000 ["*ox"; " yak "]%string
  = Solve ["OX"; "YAK"]%string [true; false] 10 10 1000
  ∧ std_sort_spec stable_sort
  ∧ never_expires 1000 never_late
  ∧ ∃ res,
      generateWordSearch never_late always_A stable_sort ["OX"; "YAK"]%string
        [true; false] 10 10 1000 = Some res
      ∧ 0 < num_placed res.
Proof.
  split; [reflexivity|]. split; [apply stable_sort_spec|].
  split; [apply never_late_never_expires|].
  apply (main_default_grid_gives_a_puzzle (λ _, 4) 0 0 1000
           ["*ox"; " yak "]%string ["OX"; "YAK"]%string [true; false]
           10 10 1000 never_late always_A stable_sort eq_refl);
    [left; lia|apply stable_sort_spec|apply never_late_never_expires].
Defined.

(** ** The returned grid *)

Lemma achievable_words (rows cols : Z) (words : list string)
    (rest : list nat) (g : Grid) (pls : list WordPlacement) :
  achievable rows cols words rest g pls → Forall (λ p, word p ∈ words) pls.
Proof.
  induction 1 as [g|i rest g pls _ IH
                 |i rest g pls w r c dr dc ov g' Hw _ _ _ _ _ _ IH];
    [constructor|done|].
  constructor; [|done]. simpl. by eapply list_elem_of_lookup_2.
Qed.

Lemma search_result_words (elapsed : nat → Z)
    (srt : ∀ A : Type, (A → A → bool) → list A → list A)
    (words : list string) (required_flags : list bool)
    (rows cols runtime_ms : Z) (st : SearchState) :
  std_sort_spec srt →
  search_result elapsed srt words required_flags rows cols runtime_ms = Some st →
  Forall (λ p, word p ∈ words) (placements (best_result st)).
Proof.
  intros Hsrt Hsearch.
  destruct (search_result_achievable _ _ _ _ _ _ _ _ Hsrt Hsearch)
    as (order & _ & Hpath).
  by eapply achievable_words.
Qed.

(** X12.  For words without the sentinel character, every placement that
    [generateWordSearch] returns can be read in the grid it returns: the
    cell [start + k * direction] holds the [k]-th letter of the word.  The
    random fill overwrites no letter of a placed word. *)
Theorem returned_grid_spells_words
    (elapsed : nat → Z) (rand_draw : nat → Z)
    (srt : ∀ A : Type, (A → A → bool) → list A → list A)
    (words : list string) (required_flags : list bool)
    (rows cols runtime_ms : Z) (res : PuzzleResult) :
  std_sort_spec srt → Forall no_sentinel words →
  generateWordSearch elapsed rand_draw srt words required_flags
    rows cols runtime_ms = Some res →
  ∀ p k ch, p ∈ placements res → String.get k (word p) = Some ch →
            grid_at (grid res) (placement_cell p k) = Some ch.
Proof.
  intros Hsrt Hclean (st & filled & Hsearch & Hfill & ->)%generateWordSearch_Some.
  simpl. intros p k ch Hp Hk.
  destruct (search_result_placed _ _ _ _ _ _ _ _ Hsrt Hclean Hsearch)
    as [Hagree _].
  destruct (Hagree p k ch Hp Hk) as [_ Hcell].
  apply fill_random_spec in Hfill as (Hcases & _ & _).
  destruct (Hcases (placement_cell p k)) as [->|(Hdot & _)]; [done|].
  rewrite Hcell in Hdot. injection Hdot as ->.
  pose proof (search_result_words _ _ _ _ _ _ _ _ Hsrt Hsearch) as Hwords.
  rewrite Forall_forall in Hwords. rewrite Forall_forall in Hclean.
  by destruct (Hclean _ (Hwords p Hp) k).
Qed.

Lemma returned_grid_spells_words_witness :
  ∃ res,
    std_sort_spec stable_sort
    ∧ Forall no_sentinel ["CAT"; "CAR"; "ARC"]%string
    ∧ generateWordSearch never_late always_A stable_sort
        ["CAT"; "CAR"; "ARC"]%string [true; true; false] 3 3 1000 = Some res
    ∧ grid res = [chars "ACA"; chars "CAT"; chars "ARC"]
    ∧ mkWordPlacement "CAT" 1 0 0 1 ∈ placements res
    ∧ grid_at (grid res) (placement_cell (mkWordPlacement "CAT" 1 0 0 1) 2)
      = Some "T"%char.
Proof.
  assert (Forall no_sentinel ["CAT"; "CAR"; "ARC"]%string) as Hclean.
  { repeat constructor; apply no_sentinel_check; reflexivity. }
  eexists. split; [apply stable_sort_spec|]. split; [exact Hclean|].
  split; [vm_compute; reflexivity|]. split; [reflexivity|].
  assert (mkWordPlacement "CAT" 1 0 0 1
          ∈ [mkWordPlacement "CAR" 0 1 1 0; mkWordPlacement "CAT" 1 0 0 1;
             mkWordPlacement "ARC" 2 0 0 1]) as Hin by (right; left).
  split; [exact Hin|].
  apply (returned_grid_spells_words never_late always_A stable_sort
           ["CAT"; "CAR"; "ARC"]%string [true; true; false] 3 3 1000 _
           stable_sort_spec Hclean ltac:(vm_compute; reflexivity)
           (mkWordPlacement "CAT" 1 0 0 1) 2%nat "T"%char Hin eq_refl).
Defined.

Lemma letter_of_draw_upper (d : Z) :
  0 ≤ d ≤ 25 → (65 ≤ nat_of_ascii (letter_of_draw d) ≤ 90)%nat.
Proof.
  intros Hd. unfold letter_of_draw.
  rewrite Z.mod_small by lia. rewrite nat_ascii_embedding by lia. lia.
Qed.

Lemma grid_get_shape_bounds (rows cols : Z) (g : Grid) (r c : Z) (e : ascii) :
  grid_shape rows cols g → grid_get g r c = Some e →
  0 ≤ r < rows ∧ 0 ≤ c < cols.
Proof.
  intros [Hlen Hall] (Hr & Hc & line & Hl & He)%grid_get_Some.
  assert (length line = Z.to_nat cols) as Hlc.
  { rewrite Forall_forall in Hall. apply Hall. by eapply list_elem_of_lookup_2. }
  apply lookup_lt_Some in Hl, He. lia.
Qed.

Lemma fill_random_shape (rand_draw : nat → Z) (rows cols : Z)
    (cells : list (Z * Z)) :
  ∀ g k g', fill_random rand_draw g cells k = Some g' →
            grid_shape rows cols g → grid_shape rows cols g'.
Proof.
  induction cells as [|[r c] cells IH]; intros g k g' Hrun Hshape.
  - simpl in Hrun. by injection Hrun as <-.
  - simpl in Hrun. destruct (grid_get g r c) as [e|]; [|done].
    option_step in Hrun. destruct (Ascii.eqb e empty_cell).
    + destruct (grid_set g r c _) as [g1|] eqn:Hset; [|done].
      option_step in Hrun. eapply IH; [exact Hrun|]. by eapply grid_set_shape.
    + by eapply IH.
Qed.

Lemma covered_by_dec (pls : list WordPlacement) (rc : Z * Z) :
  {covered_by pls rc} + {¬ covered_by pls rc}.
Proof.
  induction pls as [|p pls IH].
  - right. by intros (p & Hp%elem_of_nil & _).
  - destruct (covers_dec p rc) as [Hp|Hnp].
    + left. exists p. split; [by left|done].
    + destruct IH as [Hc|Hnc].
      * left. destruct Hc as (q & Hq & Hcov). exists q. split; [by right|done].
      * right. intros (q & [->|Hq]%elem_of_cons & Hcov); [done|].
        apply Hnc. by exists q.
Qed.

Lemma returned_grid_is_full_aux
    (elapsed : nat → Z) (rand_draw : nat → Z)
    (srt : ∀ A : Type, (A → A → bool) → list A → list A)
    (words : list string) (required_flags : list bool)
    (rows cols runtime_ms : Z) (res : PuzzleResult) :
  std_sort_spec srt → Forall uppercase_word words →
  (∀ k, 0 ≤ rand_draw k ≤ 25) → 0 < rows → 0 < cols →
  generateWordSearch elapsed rand_draw srt words required_flags
    rows cols runtime_ms = Some res →
  grid_shape rows cols (grid res)
  ∧ ∀ rc e, grid_at (grid res) rc = Some e →
            (65 ≤ nat_of_ascii e ≤ 90)%nat.
Proof.
  intros Hsrt Hupper Hdraws Hr Hc Hres.
  pose proof Hres as (st & filled & Hsearch & Hfill & ->)%generateWordSearch_Some.
  simpl.
  assert (Forall no_sentinel words) as Hclean.
  { eapply Forall_impl; [exact Hupper|]. apply uppercase_no_sentinel. }
  destruct (search_result_placed _ _ _ _ _ _ _ _ Hsrt Hclean Hsearch)
    as [Hagree Hblank].
  assert (grid_shape rows cols (grid (best_result st))) as Hshape.
  { destruct (search_result_replayed _ _ _ _ _ _ _ _ Hsrt Hsearch)
      as [(_ & _ & Hzero & _)|(_ & Hshape & _)]; [|done].
    by rewrite (generateWordSearch_nothing_placed _ rand_draw _ _ _ _ _ _ _
                  Hsearch Hzero Hr Hc) in Hres. }
  split; [by eapply fill_random_shape|].
  pose proof (fill_random_shape _ rows cols _ _ _ _ Hfill Hshape) as Hshape'.
  apply fill_random_spec in Hfill as (Hcases & Hfilled & _).
  intros [r c] e He.
  destruct (Hcases (r, c)) as [Hsame|(_ & _ & j & Hj)].
  2: { rewrite He in Hj. injection Hj as ->. by apply letter_of_draw_upper. }
  rewrite He in Hsame. symmetry in Hsame.
  destruct (Ascii.eqb_spec e empty_cell) as [->|Hletter].
  - destruct (Hfilled (r, c)) as [j Hj]; [|done|].
    + apply grid_cells_elem. by eapply grid_get_shape_bounds.
    + rewrite He in Hj. injection Hj as Hj.
      pose proof (letter_of_draw_upper (rand_draw j) (Hdraws j)) as Hup.
      rewrite <- Hj in Hup. vm_compute in Hup. lia.
  - destruct (covered_by_dec (placements (best_result st)) (r, c))
      as [(p & Hp & k & Hk & Hcell)|Hnot].
    2: { by destruct (Hletter (Hblank (r, c) e Hsame Hnot)). }
    apply string_get_is_Some in Hk as [ch Hch].
    destruct (Hagree p k ch Hp Hch) as [_ Hgrid].
    rewrite Hcell, Hsame in Hgrid. injection Hgrid as ->.
    pose proof (search_result_words _ _ _ _ _ _ _ _ Hsrt Hsearch) as Hwords.
    rewrite Forall_forall in Hwords. rewrite Forall_forall in Hupper.
    by apply (Hupper _ (Hwords p Hp) k).
Qed.

(** X13.  For words made of the letters ['A'] to ['Z'] and draws between
    0 and 25, the grid that [generateWordSearch] returns for positive
    dimensions has [rows] rows of [cols] characters, and every character is
    one of the letters ['A'] to ['Z']: no cell is left at the sentinel. *)
Theorem returned_grid_is_full
    (elapsed : nat → Z) (rand_draw : nat → Z)
    (srt : ∀ A : Type, (A → A → bool) → list A → list A)
    (words : list string) (required_flags : list bool)
    (rows cols runtime_ms : Z) (res : PuzzleResult) :
  std_sort_spec srt → Forall uppercase_word words →
  (∀ k, 0 ≤ rand_draw k ≤ 25) → 0 < rows → 0 < cols →
  generateWordSearch elapsed rand_draw srt words required_flags
    rows cols runtime_ms = Some res →
  grid_shape rows cols (grid res)
  ∧ ∀ rc e, grid_at (grid res) rc = Some e →
            (65 ≤ nat_of_ascii e ≤ 90)%nat.
Proof. apply returned_grid_is_full_aux. Qed.

Lemma uppercase_word_check (w : string) :
  forallb (λ ch, (65 <=? nat_of_ascii ch)%nat && (nat_of_ascii ch <=? 90)%nat)
    (list_ascii_of_string w) = true →
  uppercase_word w.
Proof.
  induction w as [|ch w IH]; intros Hall; [by intros [|k] x|].
  cbn [forallb list_ascii_of_string] in Hall.
  apply andb_true_iff in Hall as [Hch Hall].
  apply uppercase_word_cons. split; [|by apply IH].
  apply andb_true_iff in Hch as [H1%Nat.leb_le H2%Nat.leb_le]. lia.
Qed.

Lemma returned_grid_is_full_witness :
  ∃ res,
    std_sort_spec stable_sort
    ∧ Forall uppercase_word ["CAT"; "ELEPHANT"]%string
    ∧ (∀ k, 0 ≤ always_A k ≤ 25)
    ∧ generateWordSearch never_late always_A stable_sort
        ["CAT"; "ELEPHANT"]%string [false; true] 3 3 1000 = Some res
    ∧ grid res = [chars "ACA"; chars "AAA"; chars "ATA"]
    ∧ grid_shape 3 3 (grid res)
    ∧ ∀ rc e, grid_at (grid res) rc = Some e → (65 ≤ nat_of_ascii e ≤ 90)%nat.
Proof.
  assert (Forall uppercase_word ["CAT"; "ELEPHANT"]%string) as Hupper.
  { apply Forall_cons. split; [by apply uppercase_word_check|].
    apply Forall_cons. split; [by apply uppercase_word_check|].
    by apply Forall_nil. }
  assert (∀ k, 0 ≤ always_A k ≤ 25) as Hdraws.
  { intros k. unfold always_A. lia. }
  eexists. split; [apply stable_sort_spec|]. split; [exact Hupper|].
  split; [exact Hdraws|]. split; [vm_compute; reflexivity|].
  split; [reflexivity|].
  apply (returned_grid_is_full never_late always_A stable_sort
           ["CAT"; "ELEPHANT"]%string [false; true] 3 3 1000 _
           stable_sort_spec Hupper Hdraws ltac:(lia) ltac:(lia)).
  vm_compute. reflexivity.
Defined.

(** ** The overlap count of a candidate and the overlap score *)

Lemma placed_node_extend (rows cols : Z) (g : Grid) (pls : list WordPlacement)
    (w : string) (r c dr dc overlap : Z) (g' : Grid) :
  placed_node rows cols g pls → no_sentinel w → (dr, dc) ≠ (0, 0) →
  canPlaceWord rows cols g w r c dr dc = Some (true, overlap) →
  placeWord g w r c dr dc = Some g' →
  placed_node rows cols g' (pls ++ [mkWordPlacement w r c dr dc]).
Proof.
  intros (Hshape & Hagree & Hblank & Hclean) Hwclean Hdir Hcan Hplace.
  apply canPlaceWord_loop_true in Hcan as [Hfit _].
  destruct (placeWord_spec w g r c dr dc
              (placement_fits_present _ _ _ _ _ _ _ _ Hfit))
    as (g'' & Hplace' & Hframe & Hput & Hshape').
  rewrite Hplace in Hplace'. injection Hplace' as <-.
  specialize (Hput Hdir).
  set (pnew := mkWordPlacement w r c dr dc).
  assert (∀ rc, ¬ covers pnew rc → grid_at g' rc = grid_at g rc) as Hoff.
  { intros rc Hnot. apply Hframe. intros k Hk Heq. apply Hnot. by exists k. }
  split; [by apply Hshape'|]. split; [|split].
  - intros p k ch [Hp|Hp%list_elem_of_singleton]%elem_of_app Hch.
    + destruct (Hagree p k ch Hp Hch) as [Hb Hg]. split; [done|].
      destruct (covers_dec pnew (placement_cell p k))
        as [(j & Hj & Heq)|Hnot]; [|by rewrite Hoff].
      apply string_get_is_Some in Hj as [x Hx]. simpl in Hx.
      unfold placement_cell at 1 in Heq. simpl in Heq.
      rewrite <- Heq, (Hput j x Hx).
      destruct (Hfit j x Hx) as [_ [Hdot|Hsame]].
      * rewrite Heq, Hg in Hdot. injection Hdot as ->.
        rewrite Forall_forall in Hclean. by destruct (Hclean p Hp k).
      * rewrite Heq, Hg in Hsame. done.
    + subst p. simpl in Hch. split; [by apply (Hfit k ch)|]. by apply Hput.
  - intros rc e He Hnot. apply (Hblank rc e).
    + rewrite <- Hoff; [done|]. intros Hcov. apply Hnot. exists pnew.
      split; [|done]. apply elem_of_app. right. by apply list_elem_of_singleton.
    + intros (p & Hp & Hcov). apply Hnot. exists p. split; [|done].
      apply elem_of_app. by left.
  - apply Forall_app. split; [done|]. by repeat constructor.
Qed.

Lemma replay_placed_node (rows cols : Z) (pls : list WordPlacement) :
  ∀ pls0 g0 g,
    placed_node rows cols g0 pls0 →
    Forall (λ p, no_sentinel (word p) ∧ (delta_row p, delta_col p) ≠ (0, 0))
      pls →
    replay rows cols g0 pls = Some g →
    placed_node rows cols g (pls0 ++ pls).
Proof.
  induction pls as [|p pls IH]; intros pls0 g0 g Hnode Hall Hrun.
  - simpl in Hrun. injection Hrun as <-. by rewrite app_nil_r.
  - apply Forall_cons in Hall as [[Hclean Hdir] Hall]. simpl in Hrun.
    destruct (canPlaceWord rows cols g0 _ _ _ _ _) as [[[] ov]|] eqn:Hcan;
      [|done..].
    destruct (placeWord g0 _ _ _ _ _) as [g1|] eqn:Hplace; [|done].
    option_step in Hrun.
    replace (pls0 ++ p :: pls) with ((pls0 ++ [p]) ++ pls)
      by (by rewrite <- app_assoc).
    eapply IH; [|done|done].
    destruct p as [w r c dr dc]. by eapply placed_node_extend.
Qed.

Lemma usage_count_app (pls1 pls2 : list WordPlacement) (rc : Z * Z) :
  usage_count (pls1 ++ pls2) rc = usage_count pls1 rc + usage_count pls2 rc.
Proof. unfold usage_count. by rewrite map_app, sum_Z_app. Qed.

Lemma usage_count_one (p : WordPlacement) (rc : Z * Z) :
  usage_count [p] rc = visits p rc.
Proof. unfold usage_count. simpl. lia. Qed.

Lemma visits_nonneg (p : WordPlacement) (rc : Z * Z) : 0 ≤ visits p rc.
Proof. unfold visits. lia. Qed.

Lemma usage_count_nonneg (pls : list WordPlacement) (rc : Z * Z) :
  0 ≤ usage_count pls rc.
Proof.
  induction pls as [|p pls IH]; [done|].
  change (p :: pls) with ([p] ++ pls).
  rewrite usage_count_app, usage_count_one.
  pose proof (visits_nonneg p rc). lia.
Qed.

Lemma visits_pos (p : WordPlacement) (rc : Z * Z) :
  1 ≤ visits p rc ↔ covers p rc.
Proof.
  unfold visits, covers. split.
  - intros Hpos.
    destruct (filter (λ k, placement_cell p k = rc)
                (seq 0 (String.length (word p)))) as [|k l] eqn:Hf;
      [simpl in Hpos; lia|].
    assert (k ∈ k :: l) as Hin by (by left).
    rewrite <- Hf in Hin. apply list_elem_of_filter in Hin as [Hk Hin].
    exists k. split; [|done]. apply elem_of_seq in Hin. lia.
  - intros (k & Hk & Hcell).
    assert (k ∈ filter (λ k, placement_cell p k = rc)
                  (seq 0 (String.length (word p)))) as Hin.
    { apply list_elem_of_filter. split; [done|]. apply elem_of_seq. lia. }
    destruct (filter _ _); [by apply elem_of_nil in Hin|]. simpl. lia.
Qed.

Lemma usage_count_pos (pls : list WordPlacement) (rc : Z * Z) :
  1 ≤ usage_count pls rc ↔ covered_by pls rc.
Proof.
  induction pls as [|p pls IH].
  - rewrite usage_count_nil. split; [lia|]. by intros (p & Hp%elem_of_nil & _).
  - change (p :: pls) with ([p] ++ pls).
    rewrite usage_count_app, usage_count_one.
    pose proof (visits_nonneg p rc). pose proof (usage_count_nonneg pls rc).
    split.
    + intros Hpos. destruct (decide (1 ≤ visits p rc)) as [Hv|Hv].
      * exists p. split; [by left|]. by apply visits_pos.
      * destruct (proj1 IH ltac:(lia)) as (q & Hq & Hcov).
        exists q. split; [by right|done].
    + intros (q & [->|Hq]%elem_of_cons & Hcov).
      * apply visits_pos in Hcov. lia.
      * assert (1 ≤ usage_count pls rc) by (apply IH; by exists q). lia.
Qed.

Lemma grid_cells_NoDup (rows cols : Z) : NoDup (grid_cells rows cols).
Proof.
  unfold grid_cells. apply NoDup_bind; [| |apply NoDup_seqZ].
  - intros r1 r2 [r c] _ _ H1 H2.
    apply list_elem_of_bind in H1 as (c1 & H1 & _).
    apply list_elem_of_singleton in H1.
    apply list_elem_of_bind in H2 as (c2 & H2 & _).
    apply list_elem_of_singleton in H2. congruence.
  - intros r _. apply NoDup_bind; [| |apply NoDup_seqZ].
    + intros c1 c2 y _ _ H1 H2.
      apply list_elem_of_singleton in H1.
      apply list_elem_of_singleton in H2. congruence.
    + intros c _. apply NoDup_singleton.
Qed.

Lemma score_of_ext (u v : Z * Z → Z) (cells : list (Z * Z)) :
  (∀ rc, rc ∈ cells → u rc = v rc) → score_of u cells = score_of v cells.
Proof.
  intros Heq. unfold score_of. f_equal. apply map_ext_in.
  intros rc Hin%list_elem_of_In. by rewrite Heq.
Qed.

Lemma score_of_cons (u : Z * Z → Z) (rc : Z * Z) (cells : list (Z * Z)) :
  score_of u (rc :: cells) = Z.max 0 (u rc - 1) + score_of u cells.
Proof. done. Qed.

(** One more visit of the cell [x] raises the score by one when the cell
    was in use, and leaves it otherwise. *)
Lemma score_of_incr (u : Z * Z → Z) (x : Z * Z) (cells : list (Z * Z)) :
  NoDup cells → x ∈ cells →
  score_of (λ rc, u rc + (if decide (x = rc) then 1 else 0)) cells
  = score_of u cells + (if decide (1 ≤ u x) then 1 else 0).
Proof.
  induction cells as [|y cells IH]; intros Hnd Hin;
    [by apply elem_of_nil in Hin|].
  apply NoDup_cons in Hnd as [Hy Hnd]. rewrite !score_of_cons.
  destruct (decide (x = y)) as [<-|Hxy].
  - rewrite (score_of_ext _ u cells).
    + destruct (decide (1 ≤ u x)); lia.
    + intros rc Hrc. destruct (decide (x = rc)) as [<-|]; [done|lia].
  - apply elem_of_cons in Hin as [?|Hin]; [done|].
    rewrite (IH Hnd Hin). lia.
Qed.

Lemma filter_length_ext_in {A : Type} (P Q : A → Prop)
    `{!∀ x, Decision (P x)} `{!∀ x, Decision (Q x)} (l : list A) :
  (∀ x, x ∈ l → P x ↔ Q x) → length (filter P l) = length (filter Q l).
Proof.
  induction l as [|x l IH]; intros Hiff; [done|].
  rewrite !filter_cons.
  assert (P x ↔ Q x) as Hx by (apply Hiff; by left).
  assert (length (filter P l) = length (filter Q l)) as Hl.
  { apply IH. intros y Hy. apply Hiff. by right. }
  destruct (decide (P x)), (decide (Q x)); cbn [length]; tauto || lia.
Qed.

Lemma used_cells_S (u : Z * Z → Z) (r c dr dc : Z) (n : nat) :
  used_cells u r c dr dc (S n)
  = (if decide (1 ≤ u (r, c)) then 1 else 0)
    + used_cells u (r + dr) (c + dc) dr dc n.
Proof.
  unfold used_cells.
  assert (length (filter (λ k, 1 ≤ u (cell_at r c dr dc k)) (seq 1 n))
          = length (filter (λ k, 1 ≤ u (cell_at (r + dr) (c + dc) dr dc k))
                      (seq 0 n))) as Hshift.
  { rewrite (filter_seq_shift (λ k, 1 ≤ u (cell_at r c dr dc k))).
    f_equal. apply list_filter_iff. intros k. by rewrite cell_at_S. }
  simpl seq. rewrite filter_cons, cell_at_0.
  destruct (decide (1 ≤ u (r, c))); cbn [length]; rewrite Hshift; lia.
Qed.

(** Adding the cells of one word to a usage map raises the score by the
    number of those cells that were in use. *)
Lemma score_of_word (cells : list (Z * Z)) (dr dc : Z) (n : nat) :
  NoDup cells → (dr, dc) ≠ (0, 0) →
  ∀ (u : Z * Z → Z) (r c : Z),
    (∀ k, (k < n)%nat → cell_at r c dr dc k ∈ cells) →
    score_of (λ rc, u rc + Z.of_nat (length
                (filter (λ k, cell_at r c dr dc k = rc) (seq 0 n)))) cells
    = score_of u cells + used_cells u r c dr dc n.
Proof.
  intros Hnd Hdir. induction n as [|n IH]; intros u r c Hin.
  - unfold used_cells. simpl. rewrite Z.add_0_r. apply score_of_ext.
    intros rc _. lia.
  - rewrite used_cells_S.
    rewrite (score_of_ext _
      (λ rc, (u rc + (if decide ((r, c) = rc) then 1 else 0))
             + Z.of_nat (length (filter
                 (λ k, cell_at (r + dr) (c + dc) dr dc k = rc) (seq 0 n))))).
    2: { intros rc _. rewrite count_cells_S.
         destruct (decide ((r, c) = rc)); lia. }
    rewrite (IH (λ rc, u rc + (if decide ((r, c) = rc) then 1 else 0))).
    2: { intros k Hk. rewrite <- cell_at_S. apply Hin. lia. }
    rewrite score_of_incr; [|done|].
    2: { rewrite <- (cell_at_0 r c dr dc). apply Hin. lia. }
    assert (used_cells (λ rc, u rc + (if decide ((r, c) = rc) then 1 else 0))
              (r + dr) (c + dc) dr dc n
            = used_cells u (r + dr) (c + dc) dr dc n) as ->; [|lia].
    unfold used_cells. f_equal. apply filter_length_ext_in.
    intros k _. destruct (decide _) as [Heq|]; [|by rewrite Z.add_0_r].
    rewrite <- cell_at_S, <- (cell_at_0 r c dr dc) in Heq.
    by apply cell_at_injective in Heq.
Qed.

Lemma overlap_count_is_score_gain_aux (rows cols : Z) (g : Grid)
    (pls : list WordPlacement) (w : string) (r c dr dc overlap : Z) :
  placed_node rows cols g pls → no_sentinel w → (dr, dc) ≠ (0, 0) →
  canPlaceWord rows cols g w r c dr dc = Some (true, overlap) →
  calculateOverlapScore rows cols (pls ++ [mkWordPlacement w r c dr dc])
  = calculateOverlapScore rows cols pls + overlap.
Proof.
  intros (Hshape & Hagree & Hblank & Hclean) Hwclean Hdir Hcan.
  apply canPlaceWord_loop_true in Hcan as [Hfit ->].
  rewrite !calculateOverlapScore_recount.
  change (recount rows cols ?l)
    with (score_of (usage_count l) (grid_cells rows cols)).
  rewrite (score_of_ext _
    (λ rc, usage_count pls rc + Z.of_nat (length
       (filter (λ k, cell_at r c dr dc k = rc) (seq 0 (String.length w)))))).
  2: { intros rc _. by rewrite usage_count_app, usage_count_one. }
  rewrite score_of_word; [|apply grid_cells_NoDup|done|].
  2: { intros k Hk. apply string_get_is_Some in Hk as [ch Hch].
       destruct (Hfit k ch Hch) as [Hb _].
       destruct (cell_at r c dr dc k) as [r' c']. apply grid_cells_elem.
       unfold isInBounds in Hb. simpl in Hb.
       apply andb_true_iff in Hb as [Hb ?]. apply andb_true_iff in Hb as [Hb ?].
       apply andb_true_iff in Hb as [? ?]. lia. }
  f_equal. unfold used_cells, matching_cells. rewrite Z.add_0_l. f_equal.
  apply filter_length_ext_in. intros k Hk. apply elem_of_seq in Hk.
  assert (k < String.length w)%nat as Hlt by lia.
  apply string_get_is_Some in Hlt as [ch Hch].
  destruct (Hfit k ch Hch) as [_ Hcell]. rewrite Hch.
  assert (ch ≠ empty_cell) as Hne.
  { intros ->. by apply (Hwclean k). }
  rewrite usage_count_pos. split.
  - intros (p & Hp & j & Hj & Hpj).
    apply string_get_is_Some in Hj as [x Hx].
    destruct (Hagree p j x Hp Hx) as [_ Hg]. rewrite Hpj in Hg.
    destruct Hcell as [Hdot|Hsame]; [|done].
    rewrite Hg in Hdot. injection Hdot as ->.
    rewrite Forall_forall in Hclean. by destruct (Hclean p Hp j).
  - intros Hg. destruct (covered_by_dec pls (cell_at r c dr dc k)) as [|Hnot];
      [done|].
    by specialize (Hblank _ _ Hg Hnot).
Qed.

(** X14.  The overlap count that [canPlaceWord] reports for a candidate is
    the gain in [calculateOverlapScore]: on the grid reached by placing the
    words of [pls] one after the other from the blank grid, adding the
    candidate to [pls] raises the overlap score by exactly the reported
    count. *)
Theorem overlap_count_is_score_gain (rows cols : Z) (g : Grid)
    (pls : list WordPlacement) (w : string) (r c dr dc overlap : Z) :
  Forall (λ p, no_sentinel (word p) ∧ (delta_row p, delta_col p) ≠ (0, 0))
    pls →
  replay rows cols (blank_grid rows cols) pls = Some g →
  no_sentinel w → (dr, dc) ≠ (0, 0) →
  canPlaceWord rows cols g w r c dr dc = Some (true, overlap) →
  calculateOverlapScore rows cols (pls ++ [mkWordPlacement w r c dr dc])
  = calculateOverlapScore rows cols pls + overlap.
Proof.
  intros Hall Hrun Hclean Hdir Hcan.
  eapply overlap_count_is_score_gain_aux; [|done..].
  apply (replay_placed_node rows cols pls [] (blank_grid rows cols) g);
    [apply placed_node_blank|done..].
Qed.

Lemma overlap_count_is_score_gain_witness :
  Forall (λ p, no_sentinel (word p) ∧ (delta_row p, delta_col p) ≠ (0, 0))
    [mkWordPlacement "CAT" 1 0 0 1]
  ∧ replay 3 3 (blank_grid 3 3) [mkWordPlacement "CAT" 1 0 0 1]
    = Some [chars "..."; chars "CAT"; chars "..."]
  ∧ canPlaceWord 3 3 [chars "..."; chars "CAT"; chars "..."] "WAX" 0 1 1 0
    = Some (true, 1)
  ∧ calculateOverlapScore 3 3 [mkWordPlacement "CAT" 1 0 0 1] = 0
  ∧ calculateOverlapScore 3 3
      ([mkWordPlacement "CAT" 1 0 0 1] ++ [mkWordPlacement "WAX" 0 1 1 0])
    = calculateOverlapScore 3 3 [mkWordPlacement "CAT" 1 0 0 1] + 1.
Proof.
  assert (Forall (λ p, no_sentinel (word p)
                       ∧ (delta_row p, delta_col p) ≠ (0, 0))
            [mkWordPlacement "CAT" 1 0 0 1]) as Hall.
  { repeat constructor; [by apply no_sentinel_check|done]. }
  split; [exact Hall|]. split; [reflexivity|]. split; [reflexivity|].
  split; [reflexivity|].
  apply (overlap_count_is_score_gain 3 3
           [chars "..."; chars "CAT"; chars "..."]
           [mkWordPlacement "CAT" 1 0 0 1] "WAX" 0 1 1 0 1 Hall eq_refl
           ltac:(by apply no_sentinel_check) ltac:(done) eq_refl).
Defined.

(** ** The word order does not depend on the sorting function *)

Lemma pair_greater_antisym (a b : nat * nat) :
  pair_greater a b = false → pair_greater b a = false → a = b.
Proof.
  destruct a as [a1 a2], b as [b1 b2]. unfold pair_greater. simpl.
  intros [H1 H2]%orb_false_iff [H3 H4]%orb_false_iff.
  apply Nat.ltb_ge in H1, H3.
  assert (a1 = b1) as -> by lia. rewrite Nat.eqb_refl in H2, H4.
  simpl in H2, H4. apply Nat.ltb_ge in H2, H4. f_equal. lia.
Qed.

Lemma sorted_perm_unique {A : Type} (comp : A → A → bool) :
  (∀ a b, comp a b = false → comp b a = false → a = b) →
  ∀ l1 l2, l1 ≡ₚ l2 →
    StronglySorted (λ a b, comp b a = false) l1 →
    StronglySorted (λ a b, comp b a = false) l2 →
    l1 = l2.
Proof.
  intros Hanti. induction l1 as [|x l1 IH]; intros l2 Hperm Hs1 Hs2.
  - by apply Permutation_nil in Hperm.
  - destruct l2 as [|y l2]; [by apply Permutation_nil_r in Hperm|].
    apply StronglySorted_inv in Hs1 as [Hs1 Hx].
    apply StronglySorted_inv in Hs2 as [Hs2 Hy].
    rewrite Forall_forall in Hx. rewrite Forall_forall in Hy.
    assert (x = y) as ->.
    { assert (x ∈ y :: l2) as Hin by (rewrite <- Hperm; by left).
      apply elem_of_cons in Hin as [|Hin]; [done|].
      assert (y ∈ x :: l1) as Hin' by (rewrite Hperm; by left).
      apply elem_of_cons in Hin' as [|Hin']; [done|].
      apply Hanti; [by apply Hy|by apply Hx]. }
    f_equal. apply IH; [by eapply Permutation_cons_inv|done..].
Qed.

Lemma sorted_pass_unique
    (srt1 srt2 : ∀ A : Type, (A → A → bool) → list A → list A)
    (tmp : list (nat * nat)) :
  std_sort_spec srt1 → std_sort_spec srt2 →
  srt1 _ pair_greater tmp = srt2 _ pair_greater tmp.
Proof.
  intros H1 H2. apply (sorted_perm_unique pair_greater).
  - intros a b Hab Hba. by apply pair_greater_antisym.
  - rewrite (std_sort_perm srt1 H1 _ pair_greater tmp pair_greater_swo).
    by rewrite (std_sort_perm srt2 H2 _ pair_greater tmp pair_greater_swo).
  - apply (std_sort_sorted srt1 H1), pair_greater_swo.
  - apply (std_sort_sorted srt2 H2), pair_greater_swo.
Qed.

(** X15.  The word order does not depend on which sorting function within
    the contract of [std::sort] is used: the pairs of a length and an index
    that are sorted are all different, so the contract leaves one order
    only.  (The ranking of candidates is different: see C7.) *)
Theorem word_order_independent_of_sort
    (srt1 srt2 : ∀ A : Type, (A → A → bool) → list A → list A)
    (words : list string) (required_flags : list bool) :
  std_sort_spec srt1 → std_sort_spec srt2 →
  word_order_of srt1 words required_flags
  = word_order_of srt2 words required_flags.
Proof.
  intros H1 H2. unfold word_order_of.
  destruct (word_order_tmp true required_flags words 0) as [tmp0|]; [|done].
  destruct (word_order_tmp false required_flags words 0) as [tmp1|]; [|done].
  option_step.
  by rewrite (sorted_pass_unique srt1 srt2 tmp0 H1 H2),
             (sorted_pass_unique srt1 srt2 tmp1 H1 H2).
Qed.

Lemma word_order_independent_of_sort_witness :
  std_sort_spec stable_sort ∧ std_sort_spec reversing_sort
  ∧ word_order_of stable_sort ["CAT"; "ELEPHANT"; "DOG"; "OWL"]%string
      [false; true; false; true] = Some [1; 3; 2; 0]%nat
  ∧ word_order_of stable_sort ["CAT"; "ELEPHANT"; "DOG"; "OWL"]%string
      [false; true; false; true]
    = word_order_of reversing_sort ["CAT"; "ELEPHANT"; "DOG"; "OWL"]%string
        [false; true; false; true].
Proof.
  split; [apply stable_sort_spec|]. split; [apply reversing_sort_spec|].
  split; [reflexivity|].
  apply (word_order_independent_of_sort stable_sort reversing_sort
           ["CAT"; "ELEPHANT"; "DOG"; "OWL"]%string [false; true; false; true]
           stable_sort_spec reversing_sort_spec).
Defined.

Lemma StronglySorted_NoDup_strict {A : Type} (R : A → A → Prop) (l : list A) :
  NoDup l → StronglySorted R l → StronglySorted (λ a b, R a b ∧ a ≠ b) l.
Proof.
  intros Hnd Hs. induction Hs as [|x l Hs IH Hall]; [constructor|].
  apply NoDup_cons in Hnd as [Hx Hnd]. constructor; [by apply IH|].
  rewrite Forall_forall in Hall. apply Forall_forall. intros y Hy.
  split; [by apply Hall|]. by intros ->.
Qed.

Lemma sorted_pass_ties
    (srt : ∀ A : Type, (A → A → bool) → list A → list A)
    (words : list string) (tmp : list (nat * nat)) :
  std_sort_spec srt →
  Forall (λ a, fst a = word_length words (snd a)) tmp →
  NoDup (map snd tmp) →
  StronglySorted (later_first words) (map snd (srt _ pair_greater tmp)).
Proof.
  intros Hsrt Hlens Hnd.
  pose proof (std_sort_perm srt Hsrt _ pair_greater tmp pair_greater_swo)
    as Hperm.
  assert (StronglySorted
            (λ i j, (word_length words j ≤ word_length words i)%nat
                    ∧ (word_length words j = word_length words i → j ≤ i)%nat)
            (map snd (srt _ pair_greater tmp))) as Hsorted.
  { eapply StronglySorted_map;
      [|apply (std_sort_sorted srt Hsrt), pair_greater_swo].
    intros a b Ha Hb Hab. simpl in Hab.
    rewrite Hperm in Ha, Hb. rewrite Forall_forall in Hlens.
    rewrite <- (Hlens a Ha), <- (Hlens b Hb).
    unfold pair_greater in Hab.
    apply orb_false_iff in Hab as [Hlt Htie]. apply Nat.ltb_ge in Hlt.
    split; [done|]. intros Heq. rewrite Heq, Nat.eqb_refl in Htie.
    simpl in Htie. by apply Nat.ltb_ge in Htie. }
  apply StronglySorted_NoDup_strict in Hsorted.
  2: { eapply NoDup_Permutation_proper; [|exact Hnd]. by apply Permutation_map. }
  eapply StronglySorted_weaken; [|exact Hsorted].
  intros i j [[Hle Htie] Hne]. unfold later_first.
  destruct (decide (word_length words j = word_length words i)) as [Heq|];
    [|lia].
  right. split; [done|]. specialize (Htie Heq). lia.
Qed.

(** X16.  Within the required words, and within the optional ones, the
    word order is strict: a longer word comes first, and of two words of
    the same length the one later in the input comes first. *)
Theorem word_order_ties_later_first
    (srt : ∀ A : Type, (A → A → bool) → list A → list A)
    (words : list string) (required_flags : list bool) :
  std_sort_spec srt → length required_flags = length words →
  ∃ req opt,
    word_order_of srt words required_flags = Some (req ++ opt)
    ∧ req ≡ₚ filter (λ i, required_flags !! i = Some true)
               (seq 0 (length words))
    ∧ opt ≡ₚ filter (λ i, required_flags !! i = Some false)
               (seq 0 (length words))
    ∧ StronglySorted (later_first words) req
    ∧ StronglySorted (later_first words) opt.
Proof.
  intros Hsrt Hlen.
  destruct (word_order_tmp_spec true required_flags words words 0%nat)
    as (tmp0 & Hrun0 & Hsnd0 & Hlens0); [lia|done|].
  destruct (word_order_tmp_spec false required_flags words words 0%nat)
    as (tmp1 & Hrun1 & Hsnd1 & Hlens1); [lia|done|].
  destruct (sorted_pass_spec srt words tmp0 Hsrt Hlens0) as [Hp0 _].
  destruct (sorted_pass_spec srt words tmp1 Hsrt Hlens1) as [Hp1 _].
  eexists _, _. unfold word_order_of. rewrite Hrun0, Hrun1. option_step.
  split; [done|]. rewrite <- Hsnd0, <- Hsnd1. split; [done|]. split; [done|].
  split; apply sorted_pass_ties; try done.
  - rewrite Hsnd0. apply NoDup_filter, NoDup_seq.
  - rewrite Hsnd1. apply NoDup_filter, NoDup_seq.
Qed.

Lemma word_order_ties_later_first_witness :
  std_sort_spec reversing_sort
  ∧ word_order_of reversing_sort ["CAT"; "ELEPHANT"; "DOG"; "OWL"; "BAT"]%string
      [false; true; false; true; false] = Some ([1; 3] ++ [4; 2; 0])%nat
  ∧ ∃ req opt,
      word_order_of reversing_sort
        ["CAT"; "ELEPHANT"; "DOG"; "OWL"; "BAT"]%string
        [false; true; false; true; false] = Some (req ++ opt)
      ∧ req ≡ₚ filter (λ i, [false; true; false; true; false] !! i = Some true)
                 (seq 0 (length ["CAT"; "ELEPHANT"; "DOG"; "OWL"; "BAT"]%string))
      ∧ opt ≡ₚ filter (λ i, [false; true; false; true; false] !! i = Some false)
                 (seq 0 (length ["CAT"; "ELEPHANT"; "DOG"; "OWL"; "BAT"]%string))
      ∧ StronglySorted
          (later_first ["CAT"; "ELEPHANT"; "DOG"; "OWL"; "BAT"]%string) req
      ∧ StronglySorted
          (later_first ["CAT"; "ELEPHANT"; "DOG"; "OWL"; "BAT"]%string) opt.
Proof.
  split; [apply reversing_sort_spec|]. split; [reflexivity|].
  apply (word_order_ties_later_first reversing_sort
           ["CAT"; "ELEPHANT"; "DOG"; "OWL"; "BAT"]%string
           [false; true; false; true; false]);
    [apply reversing_sort_spec|reflexivity].
Defined.

(** ** A word on top of itself *)

Lemma filter_length_all {A : Type} (P : A → Prop) `{!∀ x, Decision (P x)}
    (l : list A) :
  (∀ x, x ∈ l → P x) → length (filter P l) = length l.
Proof.
  induction l as [|x l IH]; intros Hall; [done|].
  rewrite filter_cons. destruct (decide (P x)) as [|Hno].
  - cbn [length]. f_equal. apply IH. intros y Hy. apply Hall. by right.
  - destruct Hno. apply Hall. by left.
Qed.

(** X17.  The overlap count of a feasible candidate lies between 0 and the
    length of the word, and a word that has just been written can be placed
    again at the same cells with the largest count there is, its length:
    a word that is given twice ranks its own cells first. *)
Theorem placed_word_fits_on_itself (rows cols : Z) (g : Grid) (w : string)
    (r c dr dc overlap : Z) (g' : Grid) :
  (dr, dc) ≠ (0, 0) →
  canPlaceWord rows cols g w r c dr dc = Some (true, overlap) →
  placeWord g w r c dr dc = Some g' →
  0 ≤ overlap ≤ Z.of_nat (String.length w)
  ∧ canPlaceWord rows cols g' w r c dr dc
    = Some (true, Z.of_nat (String.length w)).
Proof.
  intros Hdir Hcan Hplace.
  apply canPlaceWord_loop_true in Hcan as [Hfit ->].
  destruct (placeWord_spec w g r c dr dc
              (placement_fits_present _ _ _ _ _ _ _ _ Hfit))
    as (g'' & Hplace' & _ & Hput & _).
  rewrite Hplace in Hplace'. injection Hplace' as <-.
  specialize (Hput Hdir). split.
  - unfold matching_cells.
    pose proof (length_filter
                  (λ k, grid_at g (cell_at r c dr dc k) = String.get k w)
                  (seq 0 (String.length w))) as Hle.
    rewrite length_seq in Hle. lia.
  - apply canPlaceWord_loop_true. split.
    + intros k ch Hch. split; [by apply (Hfit k ch)|]. right. by apply Hput.
    + rewrite Z.add_0_l. unfold matching_cells. f_equal.
      rewrite filter_length_all; [by rewrite length_seq|].
      intros k Hk%elem_of_seq.
      assert (k < String.length w)%nat as Hlt by lia.
      apply string_get_is_Some in Hlt as [ch Hch]. rewrite Hch.
      by apply Hput.
Qed.

Lemma placed_word_fits_on_itself_witness :
  canPlaceWord 3 3 [chars "..."; chars "CAT"; chars "..."] "WAX" 0 1 1 0
    = Some (true, 1)
  ∧ placeWord [chars "..."; chars "CAT"; chars "..."] "WAX" 0 1 1 0
    = Some [chars ".W."; chars "CAT"; chars ".X."]
  ∧ 0 ≤ 1 ≤ Z.of_nat (String.length "WAX")
  ∧ canPlaceWord 3 3 [chars ".W."; chars "CAT"; chars ".X."] "WAX" 0 1 1 0
    = Some (true, Z.of_nat (String.length "WAX")).
Proof.
  split; [reflexivity|]. split; [reflexivity|].
  apply (placed_word_fits_on_itself 3 3
           [chars "..."; chars "CAT"; chars "..."] "WAX" 0 1 1 0 1
           [chars ".W."; chars "CAT"; chars ".X."]
           ltac:(done) eq_refl eq_refl).
Defined.

(** ** Words that are longer than the grid *)

Lemma achievable_in_bounds (rows cols : Z) (words : list string)
    (rest : list nat) (g : Grid) (pls : list WordPlacement) :
  achievable rows cols words rest g pls →
  Forall (λ p, (delta_row p, delta_col p) ∈ DIRECTIONS
               ∧ 0 ≤ row p < rows ∧ 0 ≤ col p < cols
               ∧ ∀ k, (k < String.length (word p))%nat →
                      isInBounds rows cols (fst (placement_cell p k))
                        (snd (placement_cell p k)) = true) pls.
Proof.
  induction 1 as [g|i rest g pls _ IH
                 |i rest g pls w r c dr dc ov g' Hw Hr Hc Hd Hcan _ _ IH];
    [constructor|done|].
  constructor; [|done]. simpl. split; [done|]. split; [done|]. split; [done|].
  apply canPlaceWord_loop_true in Hcan as [Hfit _].
  intros k Hk. apply string_get_is_Some in Hk as [ch Hch].
  by apply (Hfit k ch).
Qed.

Lemma in_bounds_length (rows cols r c dr dc : Z) (n : nat) :
  (dr, dc) ∈ DIRECTIONS → 0 ≤ r < rows → 0 ≤ c < cols →
  (∀ k, (k < n)%nat →
        isInBounds rows cols (fst (cell_at r c dr dc k))
          (snd (cell_at r c dr dc k)) = true) →
  Z.of_nat n ≤ rows ∨ Z.of_nat n ≤ cols.
Proof.
  intros Hd Hr Hc Hin. destruct n as [|n]; [lia|].
  specialize (Hin n ltac:(lia)). unfold isInBounds, cell_at in Hin.
  cbn [fst snd] in Hin.
  apply andb_true_iff in Hin as [Hin H4]. apply andb_true_iff in Hin as [Hin H3].
  apply andb_true_iff in Hin as [H1 H2].
  apply Z.leb_le in H1, H3. apply Z.ltb_lt in H2, H4.
  unfold DIRECTIONS in Hd.
  repeat (apply elem_of_cons in Hd as [[= -> ->]|Hd]; [lia|]).
  by apply elem_of_nil in Hd.
Qed.

(** X18.  A word with more letters than the grid has rows and more letters
    than it has columns is never placed, whether it is required or not:
    in every result of [generateWordSearch] it is among the unplaced words
    and no placement carries it. *)
Theorem word_longer_than_grid_is_unplaced
    (elapsed : nat → Z) (rand_draw : nat → Z)
    (srt : ∀ A : Type, (A → A → bool) → list A → list A)
    (words : list string) (required_flags : list bool)
    (rows cols runtime_ms : Z) (res : PuzzleResult) (w : string) :
  std_sort_spec srt →
  generateWordSearch elapsed rand_draw srt words required_flags
    rows cols runtime_ms = Some res →
  w ∈ words →
  rows < Z.of_nat (String.length w) → cols < Z.of_nat (String.length w) →
  w ∈ unplaced_words res
  ∧ (w ∉ placed_words res)
  ∧ ∀ p, p ∈ placements res → word p ≠ w.
Proof.
  intros Hsrt Hres Hw Hrows Hcols.
  pose proof Hres as (st & filled & Hsearch & _ & ->)%generateWordSearch_Some.
  cbn [unplaced_words placed_words placements].
  destruct (search_result_word_lists _ _ _ _ _ _ _ _ Hsearch) as [-> ->].
  destruct (search_result_achievable _ _ _ _ _ _ _ _ Hsrt Hsearch)
    as (order & _ & Hpath).
  apply achievable_in_bounds in Hpath. rewrite Forall_forall in Hpath.
  assert (∀ p, p ∈ placements (best_result st) → word p ≠ w) as Hnone.
  { intros p Hp <-. destruct (Hpath p Hp) as (Hd & Hr & Hc & Hin).
    destruct (in_bounds_length rows cols _ _ _ _ _ Hd Hr Hc Hin); lia. }
  assert (w ∉ placed_set_of (placements (best_result st))) as Hout.
  { rewrite placed_set_of_elem. intros (p & Hp & Heq). by apply (Hnone p). }
  simpl. split; [by apply list_elem_of_filter|]. split; [|done].
  rewrite list_elem_of_filter. tauto.
Qed.

Lemma word_longer_than_grid_is_unplaced_witness :
  ∃ res,
    std_sort_spec stable_sort
    ∧ generateWordSearch never_late always_A stable_sort
        ["CAT"; "ELEPHANT"]%string [false; true] 3 3 1000 = Some res
    ∧ placed_words res = ["CAT"]%string
    ∧ "ELEPHANT"%string ∈ unplaced_words res
    ∧ ("ELEPHANT"%string ∉ placed_words res)
    ∧ ∀ p, p ∈ placements res → word p ≠ "ELEPHANT"%string.
Proof.
  eexists. split; [apply stable_sort_spec|].
  split; [vm_compute; reflexivity|]. split; [reflexivity|].
  apply (word_longer_than_grid_is_unplaced never_late always_A stable_sort
           ["CAT"; "ELEPHANT"]%string [false; true] 3 3 1000 _ "ELEPHANT"
           stable_sort_spec).
  - vm_compute. reflexivity.
  - apply elem_of_cons. right. by left.
  - simpl. lia.
  - simpl. lia.
Defined.

(** ** The first complete solution is the one returned *)

Lemma record_best_count_upper (rows cols : Z) (g : Grid)
    (pls : list WordPlacement) (b : PuzzleResult) :
  num_placed (record_best rows cols g pls b)
  ≤ Z.max (num_placed b) (Z.of_nat (length pls)).
Proof.
  destruct (lex_lt_dec (rank b)
              (Z.of_nat (length pls), calculateOverlapScore rows cols pls))
    as [Hlt|Hnlt].
  - rewrite record_best_replaced by done. simpl. lia.
  - rewrite record_best_kept by done. lia.
Qed.

(** A node that cannot improve on the best solution leaves it as it is. *)
Lemma saturated_node (rows cols limit : Z) (elapsed : nat → Z)
    (srt : ∀ A : Type, (A → A → bool) → list A → list A)
    (words : list string) (rest : list nat) (g : Grid)
    (pls : list WordPlacement) (st st' : SearchState) :
  Z.of_nat (length pls + length rest) ≤ num_placed (best_result st) →
  ¬ lex_lt (rank (best_result st))
      (Z.of_nat (length pls), calculateOverlapScore rows cols pls) →
  solvePuzzleRecursively rows cols limit elapsed srt words rest g pls st
    = Some st' →
  best_result st' = best_result st.
Proof.
  intros Hfull Hnlt Hrun. destruct rest as [|i rest].
  - rewrite solvePuzzleRecursively_nil in Hrun.
    destruct (fst (hasTimedOut limit elapsed st)); injection Hrun as <-;
      [done|].
    simpl. by apply record_best_kept.
  - rewrite solvePuzzleRecursively_cons in Hrun.
    destruct (fst (hasTimedOut limit elapsed st));
      [by injection Hrun as <-|].
    cbv zeta in Hrun. rewrite record_best_kept in Hrun by done.
    destruct (Z.leb_spec (Z.of_nat (length pls) + Z.of_nat (length (i :: rest)))
                (num_placed (best_result
                   (set_best (best_result st)
                      (snd (hasTimedOut limit elapsed st)))))) as [_|Hgo].
    + by injection Hrun as <-.
    + cbn [best_result set_best] in Hgo. cbn [length] in Hgo, Hfull. lia.
Qed.

Lemma saturated_loop (limit : Z) (elapsed : nat → Z)
    (recur : Grid → list WordPlacement → SearchState → option SearchState)
    (g : Grid) (w : string) (i : nat) (pls : list WordPlacement)
    (B : PuzzleResult) :
  ∀ cands,
    (∀ cand g' st st', cand ∈ cands → best_result st = B →
       recur g' (pls ++ [mkWordPlacement w (cand_r cand) (cand_c cand)
                           (cand_dr cand) (cand_dc cand)]) st = Some st' →
       best_result st' = B) →
    ∀ st ret st', best_result st = B →
      try_candidates limit elapsed recur g w i pls cands st = Some (ret, st') →
      best_result st' = B.
Proof.
  induction cands as [|cand cands IH]; intros Hrecur st ret st' HB Hrun.
  - rewrite try_candidates_nil in Hrun. by injection Hrun as <- <-.
  - rewrite try_candidates_cons in Hrun.
    destruct (fst (hasTimedOut limit elapsed st));
      [by injection Hrun as <- <-|].
    destruct (placeWord g w _ _ _ _) as [g1|]; [|done]. option_step in Hrun.
    destruct (set_used_flag i true _) as [st1|] eqn:H1; [|done].
    option_step in Hrun.
    destruct (recur g1 _ st1) as [st2|] eqn:H2; [|done]. option_step in Hrun.
    destruct (set_used_flag i false st2) as [st3|] eqn:H3; [|done].
    option_step in Hrun.
    eapply (IH ltac:(intros c g' s s' Hc; apply Hrecur; by right) st3);
      [|exact Hrun].
    rewrite (set_used_flag_best _ _ _ _ H3).
    eapply (Hrecur cand g1 st1 st2); [by left| |exact H2].
    by rewrite (set_used_flag_best _ _ _ _ H1), hasTimedOut_best.
Qed.

Lemma first_choices_found (rows cols limit : Z) (elapsed : nat → Z)
    (srt : ∀ A : Type, (A → A → bool) → list A → list A)
    (words : list string) :
  std_sort_spec srt → never_expires limit elapsed →
  Forall no_sentinel words →
  ∀ rest g pls st st' path,
    placed_node rows cols g pls →
    num_placed (best_result st) ≤ Z.of_nat (length pls) →
    num_placed (best_result st) < Z.of_nat (length pls + length rest) →
    first_choices rows cols srt words rest g = Some path →
    solvePuzzleRecursively rows cols limit elapsed srt words rest g pls st
      = Some st' →
    placements (best_result st') = pls ++ path
    ∧ num_placed (best_result st') = Z.of_nat (length pls + length rest)
    ∧ total_overlap_score (best_result st')
      = calculateOverlapScore rows cols (pls ++ path).
Proof.
  intros Hsrt Hnever Hclean.
  induction rest as [|i rest IH]; intros g pls st st' path Hnode Hle Hlt Hpath
    Hrun.
  - simpl in Hpath. injection Hpath as <-.
    rewrite solvePuzzleRecursively_nil, hasTimedOut_never in Hrun by done.
    injection Hrun as <-. simpl. rewrite record_best_replaced.
    2: { left. simpl. simpl in Hlt. lia. }
    simpl. rewrite app_nil_r, Nat.add_0_r. done.
  - cbn [first_choices] in Hpath.
    destruct (words !! i) as [w|] eqn:Hw; [|done]. option_step in Hpath.
    destruct (ranked_candidates rows cols srt g w) as [cands|] eqn:Hc; [|done].
    option_step in Hpath.
    destruct cands as [|cand cands]; [done|]. cbn [head] in Hpath.
    option_step in Hpath.
    destruct (placeWord g w _ _ _ _) as [g1|] eqn:Hplace; [|done].
    option_step in Hpath.
    destruct (first_choices rows cols srt words rest g1) as [path'|] eqn:Hrest;
      [|done].
    option_step in Hpath. injection Hpath as <-.
    set (p := mkWordPlacement w (cand_r cand) (cand_c cand) (cand_dr cand)
                (cand_dc cand)).
    assert (no_sentinel w) as Hwclean.
    { rewrite Forall_forall in Hclean. apply Hclean.
      by eapply list_elem_of_lookup_2. }
    destruct Hnode as (Hshape & Hnode').
    pose proof (conj Hshape Hnode') as Hnode.
    destruct (ranked_candidates_spec rows cols srt g w Hshape Hsrt)
      as (enum & cands0 & _ & Hranked & _ & _ & Hfeas & Hsorted).
    rewrite Hc in Hranked. injection Hranked as <-.
    apply StronglySorted_inv in Hsorted as [_ Hfirst].
    rewrite Forall_forall in Hfirst.
    assert (∀ c, c ∈ cand :: cands →
              (cand_dr c, cand_dc c) ≠ (0, 0)
              ∧ calculateOverlapScore rows cols
                  (pls ++ [mkWordPlacement w (cand_r c) (cand_c c) (cand_dr c)
                             (cand_dc c)])
                = calculateOverlapScore rows cols pls + cand_overlap c)
      as Hgain.
    { intros c (_ & _ & Hd & Hcan)%Hfeas.
      apply DIRECTIONS_nonzero in Hd. split; [done|].
      by eapply overlap_count_is_score_gain_aux. }
    rewrite solvePuzzleRecursively_cons, hasTimedOut_never in Hrun by done.
    cbv zeta in Hrun.
    set (st1 := set_best (record_best rows cols g pls (best_result st))
                  (snd (hasTimedOut limit elapsed st))) in *.
    assert (num_placed (best_result st1) ≤ Z.of_nat (length pls)) as Hle1.
    { pose proof (record_best_count_upper rows cols g pls (best_result st)).
      simpl. lia. }
    destruct (Z.leb_spec (Z.of_nat (length pls) + Z.of_nat (length (i :: rest)))
                (num_placed (best_result st1))) as [Hprune|_].
    { rewrite length_cons in Hprune. lia. }
    rewrite Hw in Hrun. option_step in Hrun. rewrite Hc in Hrun.
    option_step in Hrun.
    rewrite try_candidates_cons, hasTimedOut_never in Hrun by done.
    rewrite Hplace in Hrun. option_step in Hrun.
    destruct (set_used_flag i true _) as [st2|] eqn:H2; [|done].
    option_step in Hrun.
    destruct (solvePuzzleRecursively _ _ _ _ _ _ rest g1 _ st2) as [st3|]
      eqn:H3; [|done].
    option_step in Hrun.
    destruct (set_used_flag i false st3) as [st4|] eqn:H4; [|done].
    option_step in Hrun.
    destruct (try_candidates _ _ _ _ _ _ _ cands st4) as [[ret st5]|] eqn:Htry;
      [|done].
    option_step in Hrun.
    assert (best_result st2 = best_result st1) as Hb2.
    { by rewrite (set_used_flag_best _ _ _ _ H2), hasTimedOut_best. }
    destruct (Hfeas cand) as [(_ & _ & Hd & Hcan) _]; [by left|].
    apply DIRECTIONS_nonzero in Hd.
    destruct (IH g1 (pls ++ [p]) st2 st3 path') as (Hpls & Hnum & Hscore);
      [by eapply placed_node_extend
      |rewrite Hb2, length_app; cbn [length]; lia
      |rewrite Hb2, length_app; cbn [length]; lia
      |done|done|].
    rewrite length_app in Hnum. simpl in Hnum.
    assert (best_result st5 = best_result st3) as Hb5.
    { eapply (saturated_loop limit elapsed _ g w i pls (best_result st3));
        [|by apply (set_used_flag_best _ _ _ _ H4)|exact Htry].
      intros c g' s s' Hc' Hs Hs'. rewrite <- Hs.
      eapply saturated_node; [| |exact Hs'].
      - rewrite Hs, Hnum, length_app. simpl. lia.
      - rewrite Hs. unfold lex_lt, rank. cbn [fst snd].
        rewrite Hnum, Hscore, length_app. cbn [length].
        destruct rest as [|j rest]; [|cbn [length]; lia].
        simpl in Hrest. injection Hrest as <-. rewrite app_nil_r.
        destruct (Hgain cand ltac:(by left)) as [_ Hg1].
        destruct (Hgain c ltac:(by right)) as [_ Hg2].
        specialize (Hfirst c Hc'). unfold ranked_before in Hfirst.
        subst p. cbn [length]. lia. }
    assert (best_result st' = best_result st3) as ->.
    { destruct ret; [injection Hrun as <-; done|].
      rewrite hasTimedOut_never in Hrun by done.
      rewrite <- Hb5, <- (hasTimedOut_best limit elapsed st5).
      eapply saturated_node; [| |exact Hrun].
      - rewrite hasTimedOut_best, Hb5, Hnum. lia.
      - rewrite hasTimedOut_best, Hb5. unfold lex_lt, rank. cbn [fst snd].
        rewrite Hnum. lia. }
    rewrite Hpls, Hnum, Hscore, <- app_assoc. simpl.
    split; [done|]. split; [|done]. lia.
Qed.

(** X19.  When the clock never reaches the limit and every word, taken in
    the word order, has a candidate on the grid that the first-ranked
    candidates of the earlier words have left, [generateWordSearch] returns
    exactly these first-ranked placements: the first solution that holds
    every word ends the search, and no other solution with every word is
    considered for its overlap score. *)
Theorem first_choice_path_is_returned
    (elapsed : nat → Z) (rand_draw : nat → Z)
    (srt : ∀ A : Type, (A → A → bool) → list A → list A)
    (words : list string) (required_flags : list bool)
    (rows cols runtime_ms : Z) (res : PuzzleResult)
    (word_order : list nat) (path : list WordPlacement) :
  std_sort_spec srt → never_expires runtime_ms elapsed →
  Forall no_sentinel words →
  word_order_of srt words required_flags = Some word_order →
  first_choices rows cols srt words word_order (blank_grid rows cols)
    = Some path →
  generateWordSearch elapsed rand_draw srt words required_flags
    rows cols runtime_ms = Some res →
  placements res = path
  ∧ num_placed res = Z.of_nat (length word_order)
  ∧ total_overlap_score res = calculateOverlapScore rows cols path.
Proof.
  intros Hsrt Hnever Hclean Horder Hpath Hres.
  pose proof Hres as (st & filled & Hsearch & _ & _)%generateWordSearch_Some.
  destruct (generateWordSearch_fields _ _ _ _ _ _ _ _ _ _ Hsearch Hres)
    as (-> & -> & ->).
  apply search_result_Some in Hsearch as (_ & _ & order' & Horder' & Hrun).
  rewrite Horder in Horder'. injection Horder' as <-.
  destruct word_order as [|i rest].
  - simpl in Hpath. injection Hpath as <-.
    rewrite solvePuzzleRecursively_nil, hasTimedOut_never in Hrun by done.
    by injection Hrun as <-.
  - apply (first_choices_found rows cols runtime_ms elapsed srt words Hsrt
             Hnever Hclean (i :: rest) (blank_grid rows cols) []
             (initial_state words) st path);
      [apply placed_node_blank|simpl; lia|simpl; lia|done|done].
Qed.

Lemma first_choice_path_is_returned_witness :
  ∃ res,
    std_sort_spec stable_sort ∧ never_expires 1000 never_late
    ∧ Forall no_sentinel ["TEA"; "ATE"]%string
    ∧ word_order_of stable_sort ["TEA"; "ATE"]%string [false; false]
      = Some [1; 0]%nat
    ∧ first_choices 2 4 stable_sort ["TEA"; "ATE"]%string [1; 0]%nat
        (blank_grid 2 4)
      = Some [mkWordPlacement "ATE" 1 2 0 (-1); mkWordPlacement "TEA" 0 2 0 (-1)]
    ∧ generateWordSearch never_late always_A stable_sort
        ["TEA"; "ATE"]%string [false; false] 2 4 1000 = Some res
    ∧ achievable 2 4 ["TEA"; "ATE"]%string [1; 0]%nat (blank_grid 2 4)
        [mkWordPlacement "ATE" 1 3 0 (-1); mkWordPlacement "TEA" 1 2 0 (-1)]
    ∧ calculateOverlapScore 2 4
        [mkWordPlacement "ATE" 1 3 0 (-1); mkWordPlacement "TEA" 1 2 0 (-1)]
      = 2
    ∧ calculateOverlapScore 2 4
        [mkWordPlacement "ATE" 1 2 0 (-1); mkWordPlacement "TEA" 0 2 0 (-1)]
      = 0
    ∧ placements res
      = [mkWordPlacement "ATE" 1 2 0 (-1); mkWordPlacement "TEA" 0 2 0 (-1)]
    ∧ num_placed res = Z.of_nat (length [1; 0]%nat)
    ∧ total_overlap_score res
      = calculateOverlapScore 2 4
          [mkWordPlacement "ATE" 1 2 0 (-1); mkWordPlacement "TEA" 0 2 0 (-1)].
Proof.
  assert (Forall no_sentinel ["TEA"; "ATE"]%string) as Hclean.
  { apply Forall_cons. split; [by apply no_sentinel_check|].
    apply Forall_cons. split; [by apply no_sentinel_check|].
    by apply Forall_nil. }
  assert ((0, -1) ∈ DIRECTIONS) as Hleft.
  { apply elem_of_cons. right. by left. }
  eexists. split; [apply stable_sort_spec|].
  split; [apply never_late_never_expires|]. split; [exact Hclean|].
  split; [reflexivity|]. split; [reflexivity|].
  split; [vm_compute; reflexivity|]. split.
  { apply (achievable_place 2 4 _ 1 [0%nat] _ _ "ATE" 1 3 0 (-1) 0
             [chars "...."; chars ".ETA"]);
      [reflexivity|lia|lia|exact Hleft|reflexivity|reflexivity|].
    apply (achievable_place 2 4 _ 0 [] _ _ "TEA" 1 2 0 (-1) 2
             [chars "...."; chars "AETA"]);
      [reflexivity|lia|lia|exact Hleft|reflexivity|reflexivity|].
    apply achievable_done. }
  split; [reflexivity|]. split; [reflexivity|].
  apply (first_choice_path_is_returned never_late always_A stable_sort
           ["TEA"; "ATE"]%string [false; false] 2 4 1000 _ [1; 0]%nat
           [mkWordPlacement "ATE" 1 2 0 (-1); mkWordPlacement "TEA" 0 2 0 (-1)]
           stable_sort_spec never_late_never_expires Hclean eq_refl eq_refl).
  vm_compute. reflexivity.
Defined.

(** ** What [main] writes between quotes *)

Lemma get_string_of_list_ascii (l : list ascii) (k : nat) :
  String.get k (string_of_list_ascii l) = l !! k.
Proof.
  revert k. induction l as [|ch l IH]; intros [|k]; simpl; by try apply IH.
Qed.

(** X20.  For the call that [main] makes, every row index of the output
    loop is within the returned grid, and every string that [main] writes
    between double quotes (the rows of the grid, the words of the
    placements, the placed and the unplaced words) consists of the letters
    ['A'] to ['Z'] only; there are [rows] grid lines of [cols] letters.
    No written string holds a quote or a backslash. *)
Theorem main_writes_letters_only
    (ceil_sqrt : Z → Z) (cli_rows cli_cols runtime_ms : Z)
    (stdin_lines : list string) (words : list string)
    (required_flags : list bool) (rows cols limit : Z)
    (elapsed : nat → Z) (rand_draw : nat → Z)
    (srt : ∀ A : Type, (A → A → bool) → list A → list A)
    (res : PuzzleResult) :
  main_plan ceil_sqrt cli_rows cli_cols runtime_ms stdin_lines
    = Solve words required_flags rows cols limit →
  std_sort_spec srt → (∀ k, 0 ≤ rand_draw k ≤ 25) →
  generateWordSearch elapsed rand_draw srt words required_flags
    rows cols limit = Some res →
  ∃ grid_lines,
    quoted_output rows res
    = Some (grid_lines ++ map word (placements res)
            ++ placed_words res ++ unplaced_words res)
    ∧ length grid_lines = Z.to_nat rows
    ∧ Forall (λ line, String.length line = Z.to_nat cols) grid_lines
    ∧ Forall uppercase_word
        (grid_lines ++ map word (placements res)
         ++ placed_words res ++ unplaced_words res).
Proof.
  intros (_ & Hwords & _ & _ & Hcli & Hdefault)%main_plan_Solve Hsrt Hdraws Hres.
  assert (Forall uppercase_word words) as Hupper.
  { rewrite Hwords. eapply Forall_impl; [apply normalized_words_clean|].
    by intros w [Hw _]. }
  assert (0 < rows ∧ 0 < cols) as [Hr Hc].
  { destruct (decide (0 < cli_rows ∧ 0 < cli_cols)) as [Hpos|Hnot].
    - destruct (Hcli Hpos) as [-> ->]. lia.
    - destruct Hdefault as (<- & ? & _); lia. }
  destruct (returned_grid_is_full_aux elapsed rand_draw srt words
              required_flags rows cols limit res Hsrt Hupper Hdraws Hr Hc Hres)
    as [[Hrows Hcols] Hcells].
  pose proof Hres as (st & filled & Hsearch & _ & Hfields)%generateWordSearch_Some.
  pose proof (search_result_words _ _ _ _ _ _ _ _ Hsrt Hsearch) as Hplaced.
  destruct (search_result_word_lists _ _ _ _ _ _ _ _ Hsearch) as [Hpw Huw].
  unfold quoted_output.
  destruct (mapM (λ r, string_of_list_ascii <$> grid res !! r)
              (seq 0 (Z.to_nat rows))) as [grid_lines|] eqn:Hlines.
  2: { apply mapM_None in Hlines. apply Exists_exists in Hlines
         as (r & Hin%elem_of_seq & Hnone).
       destruct (lookup_lt_is_Some_2 (grid res) r) as [line Hline]; [lia|].
       by rewrite Hline in Hnone. }
  exists grid_lines. option_step. split; [done|].
  pose proof (length_mapM _ _ _ Hlines) as Hlen. rewrite length_seq in Hlen.
  split; [done|].
  apply mapM_Some in Hlines.
  assert (∀ line, line ∈ grid_lines →
            ∃ r l, grid res !! r = Some l ∧ line = string_of_list_ascii l)
    as Hline.
  { intros line Hin. apply list_elem_of_lookup in Hin as [i Hi].
    destruct (Forall2_lookup_r _ _ _ _ _ Hlines Hi) as (r & _ & Hr').
    destruct (grid res !! r) as [l|] eqn:Hl; [|done].
    exists r, l. split; [done|]. simpl in Hr'. by injection Hr' as <-. }
  split.
  - apply Forall_forall. intros line (r & l & Hl & ->)%Hline.
    rewrite Forall_forall in Hcols.
    rewrite <- (Hcols l); [|by eapply list_elem_of_lookup_2].
    clear. induction l as [|ch l IH]; simpl; [done|]. by rewrite IH.
  - rewrite Forall_forall in Hupper. rewrite Forall_forall in Hplaced.
    rewrite !Forall_app. split; [|split; [|split]].
    + apply Forall_forall. intros line (r & l & Hl & ->)%Hline k ch Hk.
      rewrite get_string_of_list_ascii in Hk.
      apply (Hcells (Z.of_nat r, Z.of_nat k)). unfold grid_at. simpl.
      apply grid_get_Some. split; [lia|]. split; [lia|].
      exists l. by rewrite !Nat2Z.id.
    + apply Forall_forall. intros w Hw.
      apply list_elem_of_In, in_map_iff in Hw as (p & <- & Hp).
      apply list_elem_of_In in Hp. rewrite Hfields in Hp. simpl in Hp.
      by apply Hupper, Hplaced.
    + rewrite Hfields. simpl. rewrite Hpw. simpl.
      apply Forall_forall. intros w [_ Hw]%list_elem_of_filter.
      by apply Hupper.
    + rewrite Hfields. simpl. rewrite Huw. simpl.
      apply Forall_forall. intros w [_ Hw]%list_elem_of_filter.
      by apply Hupper.
Qed.

Lemma main_writes_letters_only_witness :
  ∃ res,
    main_plan (λ _, 4) 3 3 1000 ["*cat"; " car "; "arc!"]%string
    = Solve ["CAT"; "CAR"; "ARC"]%string [true; false; false] 3 3 1000
    ∧ std_sort_spec stable_sort
    ∧ (∀ k, 0 ≤ always_A k ≤ 25)
    ∧ generateWordSearch never_late always_A stable_sort
        ["CAT"; "CAR"; "ARC"]%string [true; false; false] 3 3 1000 = Some res
    ∧ quoted_output 3 res
      = Some ["ACA"; "RAC"; "CTA"; "CAT"; "ARC"; "CAR"; "CAT"; "CAR"; "ARC"]%string
    ∧ ∃ grid_lines,
        quoted_output 3 res
        = Some (grid_lines ++ map word (placements res)
                ++ placed_words res ++ unplaced_words res)
        ∧ length grid_lines = Z.to_nat 3
        ∧ Forall (λ line, String.length line = Z.to_nat 3) grid_lines
        ∧ Forall uppercase_word
            (grid_lines ++ map word (placements res)
             ++ placed_words res ++ unplaced_words res).
Proof.
  assert (∀ k, 0 ≤ always_A k ≤ 25) as Hdraws.
  { intros k. unfold always_A. lia. }
  eexists. split; [reflexivity|]. split; [apply stable_sort_spec|].
  split; [exact Hdraws|]. split; [vm_compute; reflexivity|].
  split; [reflexivity|].
  apply (main_writes_letters_only (λ _, 4) 3 3 1000
           ["*cat"; " car "; "arc!"]%string ["CAT"; "CAR"; "ARC"]%string
           [true; false; false] 3 3 1000 never_late always_A stable_sort _
           eq_refl stable_sort_spec Hdraws).
  vm_compute. reflexivity.
Defined.
